(** * BotWhatsaap-Gemini-OpenAi: a shallow embedding of the message pipeline

    The repository holds several generations of one WhatsApp bot.  Each
    generation that the properties below talk about gets a module of its own:

    - [Js]        the string primitives of JavaScript the sources rely on
                  ([trim], [split] on a regular expression, [replace], [match]);
    - [Humanize]  [src/unnamed/part_002]: the queue with [MAX_QUEUE_SIZE], the
                  retrying [getAssistantResponse] and [splitIntoHumanChunks];
    - [App]       [src/src/app.ts]: aggregation of bursts, the per-user queue
                  and lock, the set of bot-sent ids and manual-message sync;
    - [Sync]      [src/unnamed/part_001] (first file): buffered manual
                  messages and the thread map keyed by phone number;
    - [Handlers]  [src/src/handlers/gemini_handler.ts]: the two [AiHandler]s.

    Node runs every callback to its next [await] without interruption, so an
    asynchronous function is modelled by the list of its suspension points: a
    store holds the shared maps together with the continuations that are
    waiting, and one [step] runs one callback. *)

From Stdlib Require Import ZArith NArith Ascii String List Lia.
From stdpp Require Import base option strings list gmap.
Import ListNotations.

(** ** JavaScript strings *)

Module Js.

Local Open Scope N_scope.

(** A JavaScript string is a sequence of UTF-16 code units; [length] counts
    code units. *)
Abbreviation str := (list N).

Definition u16 (s : string) : str := map N_of_ascii (list_ascii_of_string s).

Definition LF : N := 10.
Definition CR : N := 13.
Definition SPACE : N := 32.
(** U+3010 and U+3011, the brackets of [CLEAN_REGEX]. *)
Definition OPEN : N := 12304.
Definition CLOSE : N := 12305.

(** [LineTerminator] of ECMAScript: what [.] does not match. *)
Definition is_line_terminator (c : N) : bool :=
  (c =? 10) || (c =? 13) || (c =? 8232) || (c =? 8233).

(** [WhiteSpace] of ECMAScript (tab, vertical tab, form feed, the space
    separators, no-break space, byte order mark). *)
Definition is_white_space (c : N) : bool :=
  (c =? 9) || (c =? 11) || (c =? 12) || (c =? 32) || (c =? 160) || (c =? 5760)
  || ((8192 <=? c) && (c <=? 8202)) || (c =? 8239) || (c =? 8287)
  || (c =? 12288) || (c =? 65279).

(** [\s] in a regular expression and the characters [trim] removes. *)
Definition is_space (c : N) : bool := is_white_space c || is_line_terminator c.

Definition nonempty (s : str) : bool :=
  match s with [] => false | _ :: _ => true end.

Fixpoint trim_start (s : str) : str :=
  match s with
  | [] => []
  | c :: r => if is_space c then trim_start r else s
  end.

Definition trim_end (s : str) : str := rev (trim_start (rev s)).

(** [s.trim()] *)
Definition trim (s : str) : str := trim_end (trim_start s).

(** [parts.join(sep)] *)
Fixpoint join (sep : str) (parts : list str) : str :=
  match parts with
  | [] => []
  | [p] => p
  | p :: rest => p ++ sep ++ join sep rest
  end.

(** *** [s.replace(/【.*?】[ ]?/g, "")]

    At a [【] the lazy [.*?] stops at the first [】]; it cannot cross a line
    terminator.  [clean_match r] is the number of code units the expression
    takes after the opening bracket, when it matches there. *)
Fixpoint clean_match (r : str) : option nat :=
  match r with
  | [] => None
  | c :: r' =>
      if c =? CLOSE then
        Some (match r' with s :: _ => if s =? SPACE then 2%nat else 1%nat | [] => 1%nat end)
      else if is_line_terminator c then None
      else S <$> clean_match r'
  end.

(** [skip] code units of a match are still to be dropped. *)
Fixpoint replace_clean_from (skip : nat) (s : str) : str :=
  match s with
  | [] => []
  | c :: r =>
      match skip with
      | S k => replace_clean_from k r
      | O =>
          if c =? OPEN then
            match clean_match r with
            | Some n => replace_clean_from n r
            | None => c :: replace_clean_from 0 r
            end
          else c :: replace_clean_from 0 r
      end
  end.

Definition replace_clean (s : str) : str := replace_clean_from 0 s.

(** *** [s.split(/[..]{2,}/)] and [s.split(/\n\n+/)]

    The separator is a maximal run of at least two characters of the class
    [sep].  [cur] is the piece being read and [run] the separator characters
    seen since its last other character.  A run at the very end leaves an
    empty last piece, as in JavaScript. *)
Fixpoint split_runs (sep : N -> bool) (cur run : str) (s : str) : list str :=
  match s with
  | [] =>
      match run with
      | _ :: _ :: _ => [cur; []]
      | _ => [cur ++ run]
      end
  | c :: r =>
      if sep c then split_runs sep cur (run ++ [c]) r
      else
        match run with
        | _ :: _ :: _ => cur :: split_runs sep [c] [] r
        | _ => split_runs sep (cur ++ run ++ [c]) [] r
        end
  end.

Definition is_lf (c : N) : bool := c =? LF.
Definition is_crlf (c : N) : bool := (c =? LF) || (c =? CR).

(** [response.split(/\n\n+/)] *)
Definition split_blank_lines (s : str) : list str := split_runs is_lf [] [] s.
(** [text.split(/[\n\r]{2,}/)] *)
Definition split_paragraphs (s : str) : list str := split_runs is_crlf [] [] s.

(** *** The sentence matcher of [splitIntoHumanChunks]

    [s.match(re)] for the global expression [re] that reads: one or more
    characters other than [.], [!] and [?]; then either one or more of these
    three, an optional double or single quote and any white space, or the end
    of the string.  One pass over the string.  [Seek]: between matches (a [.], [!] or [?]
    here starts no match and is passed over); [Body]: inside [[^.!?]+];
    [Term]: inside [[.!?]+]; [Tail]: after the optional quote, inside [\s*]. *)
Definition is_terminator (c : N) : bool := (c =? 46) || (c =? 33) || (c =? 63).
Definition is_quote (c : N) : bool := (c =? 34) || (c =? 39).

Inductive scan := Seek | Body | Term | Tail.

Fixpoint sentences_from (st : scan) (acc : str) (s : str) : list str :=
  match s with
  | [] => match st with Seek => [] | _ => [acc] end
  | c :: r =>
      match st with
      | Seek =>
          if is_terminator c then sentences_from Seek [] r
          else sentences_from Body [c] r
      | Body =>
          if is_terminator c then sentences_from Term (acc ++ [c]) r
          else sentences_from Body (acc ++ [c]) r
      | Term =>
          if is_terminator c then sentences_from Term (acc ++ [c]) r
          else if is_quote c || is_space c then sentences_from Tail (acc ++ [c]) r
          else acc :: sentences_from Body [c] r
      | Tail =>
          if is_space c then sentences_from Tail (acc ++ [c]) r
          else if is_terminator c then acc :: sentences_from Seek [] r
          else acc :: sentences_from Body [c] r
      end
  end.

(** The array of matches; [match] answers [null] when there is none, which
    is the empty list here. *)
Definition match_sentences (s : str) : list str := sentences_from Seek [] s.

End Js.

(** ** [src/unnamed/part_002]: the humanised bot *)

Module Humanize.
Import Js.

Local Open Scope nat_scope.

Definition API_TIMEOUT : Z := 60000.
Definition MAX_RETRIES : nat := 3.
Definition MAX_QUEUE_SIZE : nat := 10.
Definition MAX_LINES_PER_MESSAGE : nat := 4.
Definition MAX_MESSAGE_LENGTH : nat := 250.
Definition CHARS_PER_LINE_ESTIMATE : nat := 60.

(** *** [splitIntoHumanChunks] *)

(** [Math.ceil(s.length / CHARS_PER_LINE_ESTIMATE)] *)
Definition estimated_lines (s : str) : nat :=
  (length s + (CHARS_PER_LINE_ESTIMATE - 1)) / CHARS_PER_LINE_ESTIMATE.

(** [s.length <= MAX_MESSAGE_LENGTH && lines <= MAX_LINES_PER_MESSAGE] *)
Definition fits (s : str) : bool :=
  (length s <=? MAX_MESSAGE_LENGTH) && (estimated_lines s <=? MAX_LINES_PER_MESSAGE).

(** [s.length > MAX_MESSAGE_LENGTH || lines > MAX_LINES_PER_MESSAGE] *)
Definition oversize (s : str) : bool :=
  (MAX_MESSAGE_LENGTH <? length s) || (MAX_LINES_PER_MESSAGE <? estimated_lines s).

(** The loop over the sentences of one paragraph.  The chunks pushed are
    produced in order; [currentChunk] is the loop's variable, and what is
    left in it is pushed after the loop. *)
Fixpoint pack (currentChunk : str) (sentences : list str) : list str :=
  match sentences with
  | [] => if nonempty currentChunk then [currentChunk] else []
  | sentenceRaw :: rest =>
      let sentence := trim sentenceRaw in
      if negb (nonempty sentence) then pack currentChunk rest
      else if negb (nonempty currentChunk) then
        if oversize sentence then sentence :: pack [] rest
        else pack sentence rest
      else
        let potentialChunk := currentChunk ++ [SPACE] ++ sentence in
        if fits potentialChunk then pack potentialChunk rest
        else
          currentChunk ::
          (if oversize sentence then sentence :: pack [] rest
           else pack sentence rest)
  end.

(** [paragraphContent.match(..) || [paragraphContent]] *)
Definition sentences_of (paragraphContent : str) : list str :=
  match match_sentences paragraphContent with
  | [] => [paragraphContent]
  | l => l
  end.

(** The body of the loop over [majorParagraphs]. *)
Definition paragraph_chunks (p : str) : list str :=
  let paragraphContent := trim p in
  if negb (nonempty paragraphContent) then []
  else if fits paragraphContent then [paragraphContent]
  else pack [] (sentences_of paragraphContent).

Definition splitIntoHumanChunks (text : str) : list str :=
  let text := replace_clean (trim text) in
  if negb (nonempty text) then []
  else List.filter nonempty (concat (map paragraph_chunks (split_paragraphs text))).

(** *** [getAssistantResponse]

    What a promise rejects with and a [catch] block receives: an [Error]
    with its message, or any other value, of which the code reads only
    whether it is truthy ([undefined], [null], the empty string, [0], [NaN]
    and [false] are not); [id] tells such values apart. *)
Inductive thrown :=
  | ErrorWith (message : str)
  | OtherValue (truthy : bool) (id : nat).

Definition is_truthy (e : thrown) : bool :=
  match e with
  | ErrorWith _ => true
  | OtherValue truthy _ => truthy
  end.

(** [Promise.race] of [toAsk] against the [API_TIMEOUT] timer settles in one
    of four ways. *)
Inductive outcome :=
  | Answer (response : str)      (* [toAsk] resolved with a string *)
  | NotAString                   (* [toAsk] resolved with something else *)
  | Rejects (reason : thrown)    (* [toAsk] rejected *)
  | TimedOut.                    (* the timer rejected first *)

(** The error the [catch] block receives. *)
Definition error_of (o : outcome) : thrown :=
  match o with
  | Answer _ => ErrorWith []
  | NotAString => ErrorWith (u16 "Formato de respuesta inesperado de OpenAI")
  | Rejects reason => reason
  | TimedOut => ErrorWith (u16 "Timeout esperando respuesta de OpenAI")
  end.

Inductive effect :=
  | Ask (attempt : nat)          (* [toAsk(assistantId, message, state)] *)
  | Sleep (ms : Z).              (* [setTimeout(resolve, delay)] awaited *)

Inductive result :=
  | Returned (response : str)
  | Thrown (error : thrown).

(** [responseCache] is a [Map]: keys stay in insertion order. *)
Abbreviation cache := (list (str * str)).

Definition cache_get (k : str) (c : cache) : option str :=
  snd <$> List.find (fun e => bool_decide (fst e = k)) c.

Fixpoint cache_set (k v : str) (c : cache) : cache :=
  match c with
  | [] => [(k, v)]
  | (k', v') :: r => if bool_decide (k' = k) then (k, v) :: r else (k', v') :: cache_set k v r
  end.

(** What a successful attempt does to the cache. *)
Definition remember (k message response : str) (c : cache) : cache :=
  if (length message <? 100) && (length response <? 1000) then
    let c := cache_set k response c in
    if 100 <? length c then tl c else c
  else c.

(** The message of the error thrown when [lastError] is not set or is
    falsy (its [é] is code unit 233). *)
Definition no_response : str :=
  u16 "No se pudo obtener respuesta de OpenAI despu" ++ [233%N]
  ++ u16 "s de varios reintentos.".

(** [lastError || new Error(..)]: [lastError] is [undefined] until a [catch]
    block has set it, and what a [catch] block sets may be falsy. *)
Definition last_or_default (lastError : option thrown) : thrown :=
  match lastError with
  | Some e => if is_truthy e then e else ErrorWith no_response
  | None => ErrorWith no_response
  end.

(** [Math.pow(2, attempt) * 1000] *)
Definition backoff (attempt : nat) : Z := (2 ^ Z.of_nat attempt * 1000)%Z.

(** The [for] loop; [remaining] counts the iterations left, [attempt] is the
    loop variable and [toAsk n] is how the [n]-th call settles. *)
Fixpoint attempts (remaining attempt : nat) (toAsk : nat -> outcome)
    (lastError : option thrown) : list effect * result :=
  match remaining with
  | O =>
      ([], Thrown (last_or_default lastError))
  | S remaining' =>
      match toAsk attempt with
      | Answer response => ([Ask attempt], Returned response)
      | failed =>
          let pause := if attempt <? MAX_RETRIES then [Sleep (backoff attempt)] else [] in
          let '(effects, r) := attempts remaining' (S attempt) toAsk (Some (error_of failed)) in
          (Ask attempt :: pause ++ effects, r)
      end
  end.

Definition getAssistantResponse (assistantId message : str) (toAsk : nat -> outcome)
    (responseCache : cache) : cache * list effect * result :=
  let cacheKey := assistantId ++ u16 "-" ++ message in
  match cache_get cacheKey responseCache with
  | Some response => (responseCache, [], Returned response)
  | None =>
      let '(effects, r) := attempts MAX_RETRIES 1 toAsk None in
      match r with
      | Returned response => (remember cacheKey message response responseCache, effects, r)
      | Thrown _ => (responseCache, effects, r)
      end
  end.

(** *** The queue: [welcomeFlow] and [handleQueue]

    A task is the context of the message ([flowDynamic], [state] and
    [provider] travel with it unchanged).  No entry of [userQueues] is ever
    removed or replaced in this file, so the array a drain holds is the one
    in the map, and the map holds the arrays by value. *)
Record ctx := { from : string; body : str }.

(** Where an asynchronous function is waiting. *)
Inductive cont :=
  | AwaitProcess (userId : string) (task : ctx)     (* [await processUserMessage(..)] *)
  | AwaitPause (deadline : Z) (userId : string).    (* the 500 ms between two tasks *)

Inductive output :=
  | Notice (userId : string)                        (* the queue-full message *)
  | Process (userId : string) (task : ctx).         (* [processUserMessage] starts *)

Record store := {
  userQueues : gmap string (list ctx);
  userLocks : gmap string bool;
  pending : gmap nat cont;
  next_id : nat;
  outputs : list output                             (* newest first *)
}.

Definition empty_store : store :=
  {| userQueues := ∅; userLocks := ∅; pending := ∅; next_id := 0; outputs := [] |}.

Definition with_queues (f : gmap string (list ctx) -> gmap string (list ctx)) (s : store) : store :=
  {| userQueues := f (userQueues s); userLocks := userLocks s; pending := pending s;
     next_id := next_id s; outputs := outputs s |}.
Definition with_locks (f : gmap string bool -> gmap string bool) (s : store) : store :=
  {| userQueues := userQueues s; userLocks := f (userLocks s); pending := pending s;
     next_id := next_id s; outputs := outputs s |}.
Definition emit (o : output) (s : store) : store :=
  {| userQueues := userQueues s; userLocks := userLocks s; pending := pending s;
     next_id := next_id s; outputs := o :: outputs s |}.
(** Suspend: the continuation waits under a fresh id. *)
Definition suspend (c : cont) (s : store) : store :=
  {| userQueues := userQueues s; userLocks := userLocks s;
     pending := <[next_id s := c]> (pending s);
     next_id := S (next_id s); outputs := outputs s |}.
Definition resume (k : nat) (s : store) : store :=
  {| userQueues := userQueues s; userLocks := userLocks s; pending := delete k (pending s);
     next_id := next_id s; outputs := outputs s |}.

(** [userLocks.get(userId)] read as a condition. *)
Definition locked (s : store) (userId : string) : bool :=
  match userLocks s !! userId with Some true => true | _ => false end.

Definition queue_of (s : store) (userId : string) : list ctx :=
  default [] (userQueues s !! userId).

(** [processUserMessage] does not touch the queues or the locks: the
    drain waits until it has returned or thrown.  Its call of
    [getAssistantResponse], with every attempt and pause of [attempts], is
    awaited inside it, and so lies within this one wait. *)
Definition processUserMessage (userId : string) (task : ctx) (s : store) : store :=
  suspend (AwaitProcess userId task) (emit (Process userId task) s).

(** The test of [while (queue.length > 0)] and what follows it up to the
    next [await]: either the next task starts, or the loop is over and the
    lock entry is deleted. *)
Definition drain (userId : string) (s : store) : store :=
  match queue_of s userId with
  | task :: rest => processUserMessage userId task (with_queues (insert userId rest) s)
  | [] => with_locks (delete userId) s
  end.

Definition handleQueue (userId : string) (s : store) : store :=
  match userQueues s !! userId with
  | None => s
  | Some _ =>
      if locked s userId then s
      else drain userId (with_locks (insert userId true) s)
  end.

Definition welcomeFlow (c : ctx) (s : store) : store :=
  let userId := from c in
  let s := match userQueues s !! userId with
           | None => with_queues (insert userId []) s
           | Some _ => s
           end in
  let queue := queue_of s userId in
  if MAX_QUEUE_SIZE <=? length queue then emit (Notice userId) s
  else
    let s := with_queues (insert userId (queue ++ [c])) s in
    if locked s userId then s else handleQueue userId s.

Inductive reply :=
  | Settled        (* the awaited promise resolved or rejected: [handleQueue]
                      catches the rejection and goes on alike *)
  | TimerDue.

Inductive event :=
  | Welcome (c : ctx)
  | Resume (k : nat) (r : reply).

(** One callback, run at time [t]. *)
Definition step (t : Z) (e : event) (s : store) : store :=
  match e with
  | Welcome c => welcomeFlow c s
  | Resume k r =>
      match pending s !! k, r with
      | Some (AwaitProcess userId _), Settled =>
          let s := resume k s in
          match queue_of s userId with
          | _ :: _ => suspend (AwaitPause (t + 500) userId) s
          | [] => drain userId s
          end
      | Some (AwaitPause deadline userId), TimerDue =>
          (* a timer never fires before its delay has passed *)
          if (deadline <=? t)%Z then drain userId (resume k s) else s
      | _, _ => s
      end
  end.

Fixpoint run (es : list (Z * event)) (s : store) : store :=
  match es with
  | [] => s
  | (t, e) :: es => run es (step t e s)
  end.

End Humanize.

(** ** [src/src/app.ts]: bursts, the queue and the lock, manual messages *)

Module App.
Import Js.

Local Open Scope Z_scope.

Definition CHUNK_DELAY_MS : Z := 150.
Definition OPENAI_COOLDOWN_MS : Z := 3000.
Definition USER_INACTIVITY_TIMEOUT_MS : Z := 6000.
(** The delay of the timer that removes an id from [botSentMessages]. *)
Definition BOT_MESSAGE_RETENTION_MS : Z := 300000.
(** The delay of the timer that reads the thread id back from the state. *)
Definition THREAD_SAVE_DELAY_MS : Z := 500.

(** The context of an incoming message, as far as [mainFlow] and
    [processUserMessage] read it: [ctx.from], [ctx.body], [ctx.key.fromMe]. *)
Record ctx := { from : string; body : str; fromMe : bool }.

Definition with_body (c : ctx) (b : str) : ctx :=
  {| from := from c; body := b; fromMe := fromMe c |}.

(** A message of a [messages.upsert] event: [msg.message] with the fields
    [extractTextFromMessage] reads, and [msg.key]. *)
Record content := {
  conversation : option str;
  extendedText : option str;
  imageCaption : option str;
  videoCaption : option str;
  ephemeralExtendedText : option str;
  ephemeralConversation : option str
}.

Record wa_message := {
  message : option content;
  remoteJid : string;
  key_fromMe : bool;
  key_id : string
}.

(** A string as a condition: [undefined] and the empty string are false. *)
Definition truthy (o : option str) : option str :=
  match o with
  | Some (c :: r) => Some (c :: r)
  | _ => None
  end.

(** [a || b]: [a] when it is true, [b] otherwise. *)
Definition or_else (a b : option str) : option str :=
  match truthy a with
  | Some s => Some s
  | None => b
  end.

Definition extractTextFromMessage (msg : wa_message) : option str :=
  match message msg with
  | None => None
  | Some m =>
      truthy
        (or_else (conversation m)
        (or_else (extendedText m)
        (or_else (imageCaption m)
        (or_else (videoCaption m)
        (or_else (ephemeralExtendedText m)
                 (ephemeralConversation m))))))
  end.

(** One entry of [userMessageBuffers]. *)
Record buffer := { messages : list str; lastCtx : ctx }.

(** Where an asynchronous function, or a timer, is waiting.  A drain is a
    call of [handleQueue]: it keeps the array [queue] it read from
    [userQueues] when it started. *)
Inductive cont :=
  | InactivityTimer (deadline : Z) (clientId : string)
  | AwaitAsk (userId : string) (queue : nat) (task : ctx)
  | AwaitSend (userId : string) (queue : nat) (task : ctx) (rest : list str)
  | AwaitPacing (deadline : Z) (userId : string) (queue : nat) (task : ctx) (rest : list str)
  | AwaitCooldown (deadline : Z) (userId : string) (queue : nat)
  | ThreadTimer (deadline : Z) (clientId : string)
  | EvictTimer (deadline : Z) (id : string)
  | AwaitAppend (rest : list wa_message).

Inductive warning :=
  | NoThreadForManual (jid : string)   (* the listener: no entry in [clientThreadIds] *)
  | NoThreadInSync (jid : string).     (* [syncManualMessageToOpenAI]: no thread id *)

(** What the program does to the outside. *)
Inductive output :=
  | Enqueued (clientId : string) (task : ctx)            (* [queue.push] *)
  | AskBackend (userId : string) (ctx_body : str)        (* [toAsk], called for the task with this [ctx.body] *)
  | SendChunk (userId : string) (chunk : str)            (* [flowDynamic] *)
  | AppendMessage (threadId : string) (text : str)       (* [threads.messages.create], role assistant *)
  | Warn (w : warning).

Record store := {
  clientThreadIds : gmap string string;
  botSentMessages : gset string;
  userQueues : gmap string nat;          (* a reference to an array *)
  arrays : gmap nat (list ctx);          (* the arrays *)
  next_array : nat;
  userLocks : gmap string bool;
  userMessageBuffers : gmap string buffer;
  userActivityTimers : gmap string nat;  (* the id of a pending timer *)
  pending : gmap nat cont;
  next_id : nat;
  outputs : list output                  (* newest first *)
}.

Definition empty_store : store :=
  {| clientThreadIds := ∅; botSentMessages := ∅; userQueues := ∅; arrays := ∅;
     next_array := 0; userLocks := ∅; userMessageBuffers := ∅;
     userActivityTimers := ∅; pending := ∅; next_id := 0; outputs := [] |}.

Definition with_threads (f : gmap string string -> gmap string string) (s : store) : store :=
  {| clientThreadIds := f (clientThreadIds s); botSentMessages := botSentMessages s;
     userQueues := userQueues s; arrays := arrays s; next_array := next_array s;
     userLocks := userLocks s; userMessageBuffers := userMessageBuffers s;
     userActivityTimers := userActivityTimers s; pending := pending s;
     next_id := next_id s; outputs := outputs s |}.
Definition with_sent (f : gset string -> gset string) (s : store) : store :=
  {| clientThreadIds := clientThreadIds s; botSentMessages := f (botSentMessages s);
     userQueues := userQueues s; arrays := arrays s; next_array := next_array s;
     userLocks := userLocks s; userMessageBuffers := userMessageBuffers s;
     userActivityTimers := userActivityTimers s; pending := pending s;
     next_id := next_id s; outputs := outputs s |}.
Definition with_queues (f : gmap string nat -> gmap string nat) (s : store) : store :=
  {| clientThreadIds := clientThreadIds s; botSentMessages := botSentMessages s;
     userQueues := f (userQueues s); arrays := arrays s; next_array := next_array s;
     userLocks := userLocks s; userMessageBuffers := userMessageBuffers s;
     userActivityTimers := userActivityTimers s; pending := pending s;
     next_id := next_id s; outputs := outputs s |}.
Definition with_arrays (f : gmap nat (list ctx) -> gmap nat (list ctx)) (s : store) : store :=
  {| clientThreadIds := clientThreadIds s; botSentMessages := botSentMessages s;
     userQueues := userQueues s; arrays := f (arrays s); next_array := next_array s;
     userLocks := userLocks s; userMessageBuffers := userMessageBuffers s;
     userActivityTimers := userActivityTimers s; pending := pending s;
     next_id := next_id s; outputs := outputs s |}.
Definition with_locks (f : gmap string bool -> gmap string bool) (s : store) : store :=
  {| clientThreadIds := clientThreadIds s; botSentMessages := botSentMessages s;
     userQueues := userQueues s; arrays := arrays s; next_array := next_array s;
     userLocks := f (userLocks s); userMessageBuffers := userMessageBuffers s;
     userActivityTimers := userActivityTimers s; pending := pending s;
     next_id := next_id s; outputs := outputs s |}.
Definition with_buffers (f : gmap string buffer -> gmap string buffer) (s : store) : store :=
  {| clientThreadIds := clientThreadIds s; botSentMessages := botSentMessages s;
     userQueues := userQueues s; arrays := arrays s; next_array := next_array s;
     userLocks := userLocks s; userMessageBuffers := f (userMessageBuffers s);
     userActivityTimers := userActivityTimers s; pending := pending s;
     next_id := next_id s; outputs := outputs s |}.
Definition with_timers (f : gmap string nat -> gmap string nat) (s : store) : store :=
  {| clientThreadIds := clientThreadIds s; botSentMessages := botSentMessages s;
     userQueues := userQueues s; arrays := arrays s; next_array := next_array s;
     userLocks := userLocks s; userMessageBuffers := userMessageBuffers s;
     userActivityTimers := f (userActivityTimers s); pending := pending s;
     next_id := next_id s; outputs := outputs s |}.
Definition emit (o : output) (s : store) : store :=
  {| clientThreadIds := clientThreadIds s; botSentMessages := botSentMessages s;
     userQueues := userQueues s; arrays := arrays s; next_array := next_array s;
     userLocks := userLocks s; userMessageBuffers := userMessageBuffers s;
     userActivityTimers := userActivityTimers s; pending := pending s;
     next_id := next_id s; outputs := o :: outputs s |}.
(** Suspend: the continuation waits under a fresh id ([setTimeout] returns
    it as the timer's id). *)
Definition suspend (c : cont) (s : store) : store :=
  {| clientThreadIds := clientThreadIds s; botSentMessages := botSentMessages s;
     userQueues := userQueues s; arrays := arrays s; next_array := next_array s;
     userLocks := userLocks s; userMessageBuffers := userMessageBuffers s;
     userActivityTimers := userActivityTimers s;
     pending := <[next_id s := c]> (pending s);
     next_id := S (next_id s); outputs := outputs s |}.
(** A continuation that runs, and [clearTimeout], take it out. *)
Definition resume (k : nat) (s : store) : store :=
  {| clientThreadIds := clientThreadIds s; botSentMessages := botSentMessages s;
     userQueues := userQueues s; arrays := arrays s; next_array := next_array s;
     userLocks := userLocks s; userMessageBuffers := userMessageBuffers s;
     userActivityTimers := userActivityTimers s; pending := delete k (pending s);
     next_id := next_id s; outputs := outputs s |}.
(** [userQueues.set(clientId, [])]: a new array. *)
Definition new_queue (clientId : string) (s : store) : store :=
  {| clientThreadIds := clientThreadIds s; botSentMessages := botSentMessages s;
     userQueues := <[clientId := next_array s]> (userQueues s);
     arrays := <[next_array s := []]> (arrays s); next_array := S (next_array s);
     userLocks := userLocks s; userMessageBuffers := userMessageBuffers s;
     userActivityTimers := userActivityTimers s; pending := pending s;
     next_id := next_id s; outputs := outputs s |}.

(** [userLocks.get(userId)] read as a condition. *)
Definition locked (s : store) (userId : string) : bool :=
  match userLocks s !! userId with Some true => true | _ => false end.

Definition array_of (s : store) (queue : nat) : list ctx :=
  default [] (arrays s !! queue).

(** *** [handleQueue] *)

(** [processUserMessage] up to its call of [toAsk]: the drain of [queue]
    waits for the answer of the backend.  The reads of the framework's
    per-user state and [typing], awaited before [toAsk], change nothing of
    the store and are folded into this one wait.  The event records the
    call with the [ctx.body] of the task; the prompt handed to [toAsk] is
    that body, after a note when the framework's state asks for one, and
    is not recorded. *)
Definition processUserMessage (userId : string) (queue : nat) (task : ctx) (s : store) : store :=
  suspend (AwaitAsk userId queue task) (emit (AskBackend userId (body task)) s).

(** After the loop: [if (queue.length === 0 && !userLocks.get(userId))]. *)
Definition after_loop (userId : string) (queue : nat) (s : store) : store :=
  match array_of s queue with
  | [] =>
      if locked s userId then s
      else with_locks (delete userId) (with_queues (delete userId) s)
  | _ :: _ => s
  end.

(** The test of [while (queue.length > 0)] and the body up to its first
    [await]: the lock is taken, the task shifted and [processUserMessage]
    called, which runs up to [toAsk].  Every element of the array is a task
    object, so the branch for a null task is never taken. *)
Definition loop (userId : string) (queue : nat) (s : store) : store :=
  match array_of s queue with
  | [] => after_loop userId queue s
  | task :: rest =>
      if locked s userId then s
      else
        processUserMessage userId queue task
          (with_arrays (insert queue rest) (with_locks (insert userId true) s))
  end.

Definition handleQueue (userId : string) (s : store) : store :=
  match userQueues s !! userId with
  | None => with_locks (delete userId) s
  | Some queue => if locked s userId then s else loop userId queue s
  end.

(** The [finally] block, entered when [processUserMessage] has returned or
    thrown, and what follows it up to the next [await]. *)
Definition finish_task (t : Z) (userId : string) (queue : nat) (s : store) : store :=
  let s := with_locks (insert userId false) s in
  match array_of s queue with
  | _ :: _ => suspend (AwaitCooldown (t + OPENAI_COOLDOWN_MS) userId queue) s
  | [] => loop userId queue s
  end.

(** *** [processUserMessage] after [toAsk] *)

(** The chunks the loop sends: the pieces of [response.split(/\n\n+/)],
    trimmed and cleaned, the empty ones left out. *)
Definition response_chunks (response : str) : list str :=
  List.filter nonempty (map (fun chunk => replace_clean (trim chunk)) (split_blank_lines response)).

(** The head of the loop over the chunks: the next [flowDynamic], or the
    end of the task. *)
Definition send_next (t : Z) (userId : string) (queue : nat) (task : ctx)
    (chunks : list str) (s : store) : store :=
  match chunks with
  | chunk :: rest =>
      suspend (AwaitSend userId queue task rest) (emit (SendChunk userId chunk) s)
  | [] => finish_task t userId queue s
  end.

(** [if (msgResult && msgResult.key && msgResult.key.id)]: the id is
    recorded and a timer set to remove it. *)
Definition record_sent (t : Z) (id : option string) (s : store) : store :=
  match id with
  | Some id =>
      if bool_decide (id = "") then s
      else suspend (EvictTimer (t + BOT_MESSAGE_RETENTION_MS) id)
             (with_sent (fun sent => {[id]} ∪ sent) s)
  | None => s
  end.

(** *** [mainFlow] *)

(** The action on a message of a client. *)
Definition mainFlow (t : Z) (c : ctx) (s : store) : store :=
  if fromMe c then s
  else
    let clientId := from c in
    let userBuffer :=
      match userMessageBuffers s !! clientId with
      | Some b => b
      | None => {| messages := []; lastCtx := c |}
      end in
    let s := with_buffers
               (insert clientId {| messages := messages userBuffer ++ [body c]; lastCtx := c |}) s in
    let s := match userActivityTimers s !! clientId with
             | Some timerId => resume timerId s     (* [clearTimeout] *)
             | None => s
             end in
    let timerId := next_id s in
    let s := suspend (InactivityTimer (t + USER_INACTIVITY_TIMEOUT_MS) clientId) s in
    with_timers (insert clientId timerId) s.

(** The callback of the inactivity timer. *)
Definition flush (clientId : string) (s : store) : store :=
  let s :=
    match userMessageBuffers s !! clientId with
    | Some finalBuffer =>
        match messages finalBuffer with
        | [] => s
        | _ :: _ =>
            let combinedMessageBody := join [LF; LF] (messages finalBuffer) in
            let taskCtx := with_body (lastCtx finalBuffer) combinedMessageBody in
            let s := match userQueues s !! clientId with
                     | None => new_queue clientId s
                     | Some _ => s
                     end in
            match userQueues s !! clientId with
            | Some queue =>
                let s := with_arrays (insert queue (array_of s queue ++ [taskCtx])) s in
                let s := emit (Enqueued clientId taskCtx) s in
                if locked s clientId then s else handleQueue clientId s
            | None => s
            end
        end
    | None => s
    end in
  with_timers (delete clientId) (with_buffers (delete clientId) s).

(** *** The [messages.upsert] listener and [syncManualMessageToOpenAI] *)

Definition status_broadcast : string := "status@broadcast".

(** [!threadId]: a missing or empty thread id. *)
Definition thread_of (s : store) (jid : string) : option string :=
  match clientThreadIds s !! jid with
  | Some threadId => if bool_decide (threadId = "") then None else Some threadId
  | None => None
  end.

(** [syncManualMessageToOpenAI] up to its [await]: without a thread id it
    warns and returns ([false]: nothing to wait for); with one it calls
    [threads.messages.create] ([true]: the call is awaited). *)
Definition syncManualMessageToOpenAI (jid : string) (messageContent : str) (s : store)
    : store * bool :=
  match thread_of s jid with
  | Some threadId => (emit (AppendMessage threadId messageContent) s, true)
  | None => (emit (Warn (NoThreadInSync jid)) s, false)
  end.

(** The loop over the messages of one event.  It stops at the [await] of
    [syncManualMessageToOpenAI] and goes on with [rest] when the call of the
    backend has settled.  [main] registers the listener on [ready] and, with
    the same body, on [connection.update]: each registration runs this loop
    on the event. *)
Fixpoint upsert_loop (msgs : list wa_message) (s : store) : store :=
  match msgs with
  | [] => s
  | msg :: rest =>
      if bool_decide (message msg = None) || bool_decide (remoteJid msg = status_broadcast)
      then upsert_loop rest s
      else
        match extractTextFromMessage msg with
        | None => upsert_loop rest s
        | Some messageBody =>
            if key_fromMe msg then
              if bool_decide (key_id msg ∈ botSentMessages s) then upsert_loop rest s
              else
                let jid := remoteJid msg in
                match clientThreadIds s !! jid with
                | Some _ =>
                    let '(s, awaited) := syncManualMessageToOpenAI jid messageBody s in
                    if awaited then suspend (AwaitAppend rest) s else upsert_loop rest s
                | None => upsert_loop rest (emit (Warn (NoThreadForManual jid)) s)
                end
            else upsert_loop rest s
        end
  end.

(** *** The event loop *)

Inductive reply :=
  | TimerDue
  | AskResolved (response : str)
  | SendResolved (id : option string)      (* [msgResult.key.id], when there is one *)
  | ThreadInfo (threadId : option string)  (* the thread id found in the state *)
  | AppendResolved
  | Rejected (message : str).              (* the awaited promise rejected with an error *)

Inductive event :=
  | Message (c : ctx)                      (* [EVENTS.WELCOME] *)
  | MessagesUpsert (msgs : list wa_message)
  | Resume (k : nat) (r : reply).

(** One callback, run at time [t].  A timer does not fire before its
    deadline; a reply that does not fit the continuation is no event of the
    program and changes nothing. *)
Definition step (t : Z) (e : event) (s : store) : store :=
  match e with
  | Message c => mainFlow t c s
  | MessagesUpsert msgs => upsert_loop msgs s
  | Resume k r =>
      match pending s !! k, r with
      | Some (InactivityTimer deadline clientId), TimerDue =>
          if deadline <=? t then flush clientId (resume k s) else s
      | Some (AwaitAsk userId queue task), AskResolved response =>
          let s := suspend (ThreadTimer (t + THREAD_SAVE_DELAY_MS) (from task)) (resume k s) in
          send_next t userId queue task (response_chunks response) s
      | Some (AwaitAsk userId queue task), Rejected _ =>
          (* the message is only looked at to log *)
          finish_task t userId queue (resume k s)
      | Some (AwaitSend userId queue task rest), SendResolved id =>
          suspend (AwaitPacing (t + CHUNK_DELAY_MS) userId queue task rest)
            (record_sent t id (resume k s))
      | Some (AwaitSend userId queue task rest), Rejected _ =>
          finish_task t userId queue (resume k s)
      | Some (AwaitPacing deadline userId queue task rest), TimerDue =>
          if deadline <=? t then send_next t userId queue task rest (resume k s) else s
      | Some (AwaitCooldown deadline userId queue), TimerDue =>
          if deadline <=? t then loop userId queue (resume k s) else s
      | Some (ThreadTimer deadline clientId), ThreadInfo threadId =>
          if deadline <=? t then
            match threadId with
            | Some threadId =>
                if bool_decide (threadId = "") then resume k s
                else with_threads (insert clientId threadId) (resume k s)
            | None => resume k s
            end
          else s
      | Some (ThreadTimer deadline clientId), Rejected _ =>
          (* [state.get] threw: the callback only logs *)
          if deadline <=? t then resume k s else s
      | Some (EvictTimer deadline id), TimerDue =>
          if deadline <=? t then with_sent (fun sent => sent ∖ {[id]}) (resume k s) else s
      | Some (AwaitAppend rest), AppendResolved => upsert_loop rest (resume k s)
      | Some (AwaitAppend rest), Rejected _ => upsert_loop rest (resume k s)
      | _, _ => s
      end
  end.

Fixpoint run (es : list (Z * event)) (s : store) : store :=
  match es with
  | [] => s
  | (t, e) :: es => run es (step t e s)
  end.

End App.

(** ** [src/unnamed/part_001], first file: buffered manual messages *)

Module Sync.
Import Js.

Local Open Scope Z_scope.

Definition CHUNK_DELAY_MS : Z := 150.
Definition USER_INACTIVITY_TIMEOUT_MS : Z := 6000.
Definition MANUAL_INACTIVITY_TIMEOUT_MS : Z := 6000.

(** [jid.split('@')[0]] *)
Fixpoint before_at (jid : string) : string :=
  match jid with
  | EmptyString => EmptyString
  | String c r => if Ascii.eqb c "@" then EmptyString else String c (before_at r)
  end.

(** [getShortUserId] on a string. *)
Definition getShortUserId (jid : string) : string :=
  if bool_decide (before_at jid = "") then jid else before_at jid.

(** [clientThreadMap] is a plain object.  Reading a property gives the
    thread id that [saveThreadId] put there, or, for a name the object has
    no property of its own for, what it inherits from [Object.prototype]
    under that name: a function, or the prototype itself, which is truthy
    and no string. *)
Inductive thread_ref :=
  | ThreadId (id : string)
  | Inherited (name : string).

(** The names of the properties of [Object.prototype]. *)
Definition object_prototype_names : list string :=
  ["constructor"; "__defineGetter__"; "__defineSetter__"; "hasOwnProperty";
   "__lookupGetter__"; "__lookupSetter__"; "isPrototypeOf"; "propertyIsEnumerable";
   "toString"; "valueOf"; "__proto__"; "toLocaleString"]%string.

Record ctx := { from : string; body : str; fromMe : bool }.

Definition with_body (c : ctx) (b : str) : ctx :=
  {| from := from c; body := b; fromMe := fromMe c |}.

Record buffer := { messages : list str; lastCtx : ctx }.

(** A message of [messages.upsert], with the text [extractTextFromMessage]
    finds in it ([None]: no [msg.message], or no text). *)
Record wa_message := {
  text : option str;
  remoteJid : string;
  key_fromMe : bool
}.

Inductive cont :=
  | UserTimer (deadline : Z) (clientId : string)
  | AwaitAsk (clientId : string) (task : ctx)          (* [processUserMessage] at [toAsk] *)
  | AwaitChunks (clientId : string)                    (* the chunks being sent *)
  | AwaitApology (clientId : string)                   (* the [catch] block's [flowDynamic] *)
  | ManualTimer (deadline : Z) (jid : string)
  | AwaitNote (jid : string) (threadId : thread_ref) (text : str)   (* the note's [create] *)
  | AwaitAppend (jid : string).                        (* the message's [create] *)

Inductive output :=
  | Process (clientId : string) (task : ctx)           (* [processUserMessage(newCtx, ..)] *)
  | AppendNote (threadId : thread_ref)                 (* [create], role user: the note *)
  | AppendMessage (threadId : thread_ref) (text : str) (* [create], role assistant *)
  | WarnNoThread (jid : string).

Record store := {
  clientThreadMap : gmap string string;                (* the object's own properties *)
  userMessageBuffers : gmap string buffer;
  userActivityTimers : gmap string nat;
  manualMessageBuffers : gmap string (list str);
  manualActivityTimers : gmap string nat;
  pending : gmap nat cont;
  next_id : nat;
  outputs : list output                                (* newest first *)
}.

Definition empty_store : store :=
  {| clientThreadMap := ∅; userMessageBuffers := ∅; userActivityTimers := ∅;
     manualMessageBuffers := ∅; manualActivityTimers := ∅; pending := ∅;
     next_id := 0; outputs := [] |}.

Definition with_threads (f : gmap string string -> gmap string string) (s : store) : store :=
  {| clientThreadMap := f (clientThreadMap s); userMessageBuffers := userMessageBuffers s;
     userActivityTimers := userActivityTimers s; manualMessageBuffers := manualMessageBuffers s;
     manualActivityTimers := manualActivityTimers s; pending := pending s;
     next_id := next_id s; outputs := outputs s |}.
Definition with_buffers (f : gmap string buffer -> gmap string buffer) (s : store) : store :=
  {| clientThreadMap := clientThreadMap s; userMessageBuffers := f (userMessageBuffers s);
     userActivityTimers := userActivityTimers s; manualMessageBuffers := manualMessageBuffers s;
     manualActivityTimers := manualActivityTimers s; pending := pending s;
     next_id := next_id s; outputs := outputs s |}.
Definition with_timers (f : gmap string nat -> gmap string nat) (s : store) : store :=
  {| clientThreadMap := clientThreadMap s; userMessageBuffers := userMessageBuffers s;
     userActivityTimers := f (userActivityTimers s); manualMessageBuffers := manualMessageBuffers s;
     manualActivityTimers := manualActivityTimers s; pending := pending s;
     next_id := next_id s; outputs := outputs s |}.
Definition with_manual_buffers (f : gmap string (list str) -> gmap string (list str)) (s : store) : store :=
  {| clientThreadMap := clientThreadMap s; userMessageBuffers := userMessageBuffers s;
     userActivityTimers := userActivityTimers s; manualMessageBuffers := f (manualMessageBuffers s);
     manualActivityTimers := manualActivityTimers s; pending := pending s;
     next_id := next_id s; outputs := outputs s |}.
Definition with_manual_timers (f : gmap string nat -> gmap string nat) (s : store) : store :=
  {| clientThreadMap := clientThreadMap s; userMessageBuffers := userMessageBuffers s;
     userActivityTimers := userActivityTimers s; manualMessageBuffers := manualMessageBuffers s;
     manualActivityTimers := f (manualActivityTimers s); pending := pending s;
     next_id := next_id s; outputs := outputs s |}.
Definition emit (o : output) (s : store) : store :=
  {| clientThreadMap := clientThreadMap s; userMessageBuffers := userMessageBuffers s;
     userActivityTimers := userActivityTimers s; manualMessageBuffers := manualMessageBuffers s;
     manualActivityTimers := manualActivityTimers s; pending := pending s;
     next_id := next_id s; outputs := o :: outputs s |}.
Definition suspend (c : cont) (s : store) : store :=
  {| clientThreadMap := clientThreadMap s; userMessageBuffers := userMessageBuffers s;
     userActivityTimers := userActivityTimers s; manualMessageBuffers := manualMessageBuffers s;
     manualActivityTimers := manualActivityTimers s;
     pending := <[next_id s := c]> (pending s);
     next_id := S (next_id s); outputs := outputs s |}.
Definition resume (k : nat) (s : store) : store :=
  {| clientThreadMap := clientThreadMap s; userMessageBuffers := userMessageBuffers s;
     userActivityTimers := userActivityTimers s; manualMessageBuffers := manualMessageBuffers s;
     manualActivityTimers := manualActivityTimers s; pending := delete k (pending s);
     next_id := next_id s; outputs := outputs s |}.

(** [saveThreadId]: nothing is saved for an empty [jid] or thread id.  An
    assignment of a string to [__proto__] goes to the setter the object
    inherits, which ignores it: no property is made. *)
Definition saveThreadId (jid threadId : string) (s : store) : store :=
  if bool_decide (jid = "") || bool_decide (threadId = "") then s
  else
    let clientPhone := getShortUserId jid in
    if bool_decide (clientPhone = "__proto__") then s
    else with_threads (insert clientPhone threadId) s.

(** [getThreadId]: [clientThreadMap[clientPhone] || null]. *)
Definition getThreadId (s : store) (jid : string) : option thread_ref :=
  if bool_decide (jid = "") then None
  else
    let clientPhone := getShortUserId jid in
    match clientThreadMap s !! clientPhone with
    | Some threadId => if bool_decide (threadId = "") then None else Some (ThreadId threadId)
    | None =>
        if bool_decide (clientPhone ∈ object_prototype_names) then Some (Inherited clientPhone)
        else None
    end.

(** [syncManualMessageToOpenAI] up to its first [await]. *)
Definition syncManualMessageToOpenAI (jid : string) (messageContent : str) (s : store) : store + store :=
  match getThreadId s jid with
  | None => inl (emit (WarnNoThread jid) s)            (* returned [false] *)
  | Some threadId =>
      inr (suspend (AwaitNote jid threadId messageContent) (emit (AppendNote threadId) s))
  end.

(** The end of the manual timer's callback. *)
Definition manual_done (jid : string) (s : store) : store :=
  with_manual_timers (delete jid) (with_manual_buffers (delete jid) s).

Definition handleManualMessage (t : Z) (jid : string) (messageBody : str) (s : store) : store :=
  let buffer := default [] (manualMessageBuffers s !! jid) in
  let s := with_manual_buffers (insert jid (buffer ++ [messageBody])) s in
  let s := match manualActivityTimers s !! jid with
           | Some timerId => resume timerId s
           | None => s
           end in
  let timerId := next_id s in
  let s := suspend (ManualTimer (t + MANUAL_INACTIVITY_TIMEOUT_MS) jid) s in
  with_manual_timers (insert jid timerId) s.

(** The callback of the manual timer. *)
Definition manual_flush (jid : string) (s : store) : store :=
  match manualMessageBuffers s !! jid with
  | Some (m :: ms) =>
      match syncManualMessageToOpenAI jid (join [LF; LF] (m :: ms)) s with
      | inl s => manual_done jid s
      | inr s => s                                     (* waiting for the backend *)
      end
  | _ => manual_done jid s
  end.

Definition mainFlow (t : Z) (c : ctx) (s : store) : store :=
  if fromMe c then s
  else
    let clientId := from c in
    let userBuffer :=
      match userMessageBuffers s !! clientId with
      | Some b => b
      | None => {| messages := []; lastCtx := c |}
      end in
    let s := with_buffers
               (insert clientId {| messages := messages userBuffer ++ [body c]; lastCtx := c |}) s in
    let s := match userActivityTimers s !! clientId with
             | Some timerId => resume timerId s
             | None => s
             end in
    let timerId := next_id s in
    let s := suspend (UserTimer (t + USER_INACTIVITY_TIMEOUT_MS) clientId) s in
    with_timers (insert clientId timerId) s.

(** The end of the user timer's callback. *)
Definition user_done (clientId : string) (s : store) : store :=
  with_timers (delete clientId) (with_buffers (delete clientId) s).

(** The callback of the user timer: the combined message goes straight to
    [processUserMessage], and the buffer is deleted when that has returned. *)
Definition flush (clientId : string) (s : store) : store :=
  match userMessageBuffers s !! clientId with
  | Some b =>
      match messages b with
      | [] => user_done clientId s
      | _ :: _ =>
          let newCtx := with_body (lastCtx b) (join [LF; LF] (messages b)) in
          suspend (AwaitAsk clientId newCtx) (emit (Process clientId newCtx) s)
      end
  | None => user_done clientId s
  end.

(** The thread id [processUserMessage] finds in the state after [toAsk]:
    [state.get('thread')] when it starts with [thread_], else the
    [thread_id] of [openaiAssistant], else that of [openai]. *)
Record thread_state := {
  thread : option string;
  openaiAssistant : option string;
  openai : option string
}.

Definition nonempty_id (o : option string) : option string :=
  match o with
  | Some id => if bool_decide (id = "") then None else Some id
  | None => None
  end.

Definition thread_found (st : thread_state) : option string :=
  match thread st with
  | Some th =>
      if String.prefix "thread_" th then Some th
      else match nonempty_id (openaiAssistant st) with
           | Some id => Some id
           | None => nonempty_id (openai st)
           end
  | None =>
      match nonempty_id (openaiAssistant st) with
      | Some id => Some id
      | None => nonempty_id (openai st)
      end
  end.

Inductive upsert_type := Append | Notify.

Definition is_append (type : upsert_type) : bool :=
  match type with Append => true | Notify => false end.

(** [if (!messageBody) continue]: no text, or an empty one. *)
Definition truthy_text (o : option str) : option str :=
  match o with
  | Some (c :: r) => Some (c :: r)
  | _ => None
  end.

(** The listener's loop over the messages of one event. *)
Fixpoint upsert_loop (t : Z) (type : upsert_type) (msgs : list wa_message) (s : store) : store :=
  match msgs with
  | [] => s
  | msg :: rest =>
      if bool_decide (remoteJid msg = "status@broadcast") then upsert_loop t type rest s
      else
        match truthy_text (text msg) with
        | None => upsert_loop t type rest s
        | Some messageBody =>
            if key_fromMe msg && negb (is_append type) then
              let jid := remoteJid msg in
              match getThreadId s jid with
              | Some _ => upsert_loop t type rest (handleManualMessage t jid messageBody s)
              | None => upsert_loop t type rest (emit (WarnNoThread jid) s)
              end
            else upsert_loop t type rest s
        end
  end.

Inductive reply :=
  | TimerDue
  | AskResolved (response : str) (st : thread_state)
  | Settled                                (* a backend or transport call settled *)
  | Rejected.

Inductive event :=
  | Message (c : ctx)
  | MessagesUpsert (type : upsert_type) (msgs : list wa_message)
  | Resume (k : nat) (r : reply).

Definition step (t : Z) (e : event) (s : store) : store :=
  match e with
  | Message c => mainFlow t c s
  | MessagesUpsert type msgs => upsert_loop t type msgs s
  | Resume k r =>
      match pending s !! k, r with
      | Some (UserTimer deadline clientId), TimerDue =>
          if deadline <=? t then flush clientId (resume k s) else s
      | Some (AwaitAsk clientId task), AskResolved response st =>
          let s := resume k s in
          let s := match thread_found st with
                   | Some threadId => saveThreadId (from task) threadId s
                   | None => s
                   end in
          suspend (AwaitChunks clientId) s
      | Some (AwaitAsk clientId task), Rejected =>
          suspend (AwaitApology clientId) (resume k s)
      | Some (AwaitChunks clientId), Settled => user_done clientId (resume k s)
      | Some (AwaitChunks clientId), Rejected =>
          suspend (AwaitApology clientId) (resume k s)
      | Some (AwaitApology clientId), Settled => user_done clientId (resume k s)
      | Some (AwaitApology clientId), Rejected =>
          (* [processUserMessage] rejects and the timer's callback ends there *)
          resume k s
      | Some (ManualTimer deadline jid), TimerDue =>
          if deadline <=? t then manual_flush jid (resume k s) else s
      | Some (AwaitNote jid threadId text), Settled =>
          suspend (AwaitAppend jid) (emit (AppendMessage threadId text) (resume k s))
      | Some (AwaitNote jid _ _), Rejected => manual_done jid (resume k s)
      | Some (AwaitAppend jid), Settled => manual_done jid (resume k s)
      | Some (AwaitAppend jid), Rejected => manual_done jid (resume k s)
      | _, _ => s
      end
  end.

Fixpoint run (es : list (Z * event)) (s : store) : store :=
  match es with
  | [] => s
  | (t, e) :: es => run es (step t e s)
  end.

End Sync.

(** ** [src/src/handlers/gemini_handler.ts]: the two [AiHandler]s *)

Module Handlers.
Import Js.

(** [AiResponse] *)
Record AiResponse := { text : str }.

(** How a call settles: it returns (its promise resolves) or it throws
    (its promise rejects). *)
Inductive settled (A : Type) :=
  | Ok (a : A)
  | Throws.
Arguments Ok {A} a.
Arguments Throws {A}.

Definition apology : str :=
  u16 "Lo siento, tuve un problema al procesar tu solicitud.".
Definition unclear : str :=
  u16 "No obtuve una respuesta clara. Por favor, intenta de nuevo.".
Definition unsupported : str :=
  u16 "Recib" ++ [237%N] ++ u16 " una respuesta en un formato no soportado.".

(** *** [GeminiHandler] *)

Module Gemini.

(** The response of [sendMessage], as far as [processMessage] reads it:
    [response.candidates], and of a candidate [content.parts] with the
    [text] of each part. *)
Record part := { part_text : option str }.
Record candidate := { content_parts : option (list part) }.
Record response := { candidates : option (list candidate) }.

(** The Google SDK.  Models and chat sessions are opaque handles. *)
Record sdk := {
  getGenerativeModel : string -> settled nat;
  startChat : nat -> list str -> settled nat;
  sendMessage : nat -> str -> settled response
}.

Record handler := {
  modelName : string;
  systemInstructionParts : list str;
  userChatSessions : gmap string nat
}.

Definition with_session (userId : string) (chatSession : nat) (h : handler) : handler :=
  {| modelName := modelName h; systemInstructionParts := systemInstructionParts h;
     userChatSessions := <[userId := chatSession]> (userChatSessions h) |}.

(** [part.text] as a condition: a part without text, or with an empty one,
    is filtered out. *)
Definition part_texts (parts : list part) : list str :=
  omap (fun p => match part_text p with
                 | Some (c :: r) => Some (c :: r)
                 | _ => None
                 end) parts.

(** The [try] block. *)
Definition answer (g : sdk) (chatSession : nat) (message : str) : AiResponse :=
  match sendMessage g chatSession message with
  | Throws => {| text := apology |}
  | Ok r =>
      match candidates r with
      | Some (c :: _) =>
          match content_parts c with
          | Some parts => {| text := join [LF] (part_texts parts) |}
          | None => {| text := apology |}       (* a [TypeError], caught *)
          end
      | _ => {| text := unclear |}
      end
  end.

Definition processMessage (g : sdk) (h : handler) (userId : string) (message : str)
    : handler * settled AiResponse :=
  match userChatSessions h !! userId with
  | Some chatSession => (h, Ok (answer g chatSession message))
  | None =>
      match getGenerativeModel g (modelName h) with
      | Throws => (h, Throws)
      | Ok model =>
          match startChat g model (systemInstructionParts h) with
          | Throws => (h, Throws)
          | Ok chatSession =>
              (with_session userId chatSession h, Ok (answer g chatSession message))
          end
      end
  end.

End Gemini.

(** *** [OpenAiHandler] *)

Module OpenAi.

(** The statuses of a run of the Assistants API. *)
Inductive run_status :=
  | queued | in_progress | requires_action | cancelling | cancelled
  | failed | completed | incomplete | expired.

(** [runStatus.status !== 'completed' && runStatus.status !== 'failed'] *)
Definition keeps_polling (st : run_status) : bool :=
  match st with
  | completed | failed => false
  | _ => true
  end.

(** A content block of a message: text, or something else (an image). *)
Inductive block :=
  | TextBlock (value : str)
  | OtherBlock.

(** A message of [messages.list]: its role and its content. *)
Record thread_message := { is_assistant : bool; content : list block }.

(** The OpenAI SDK.  [retrieve n] is what the [n]-th call of
    [runs.retrieve] for the run answers. *)
Record sdk := {
  threads_create : settled string;
  messages_create : string -> str -> settled unit;
  runs_create : string -> settled string;
  retrieve : nat -> settled run_status;
  messages_list : string -> settled (list thread_message)
}.

Record handler := { userThreadMap : gmap string string }.

(** The polling loop, started after the [n]-th answer [st] of [retrieve];
    [fuel] bounds the number of iterations looked at.  [None]: the loop is
    still running after [fuel] iterations. *)
Fixpoint poll (fuel : nat) (g : sdk) (n : nat) (st : run_status) : option (settled run_status) :=
  if keeps_polling st then
    match fuel with
    | O => None
    | S fuel' =>
        match retrieve g (S n) with
        | Ok st' => poll fuel' g (S n) st'
        | Throws => Some Throws
        end
    end
  else Some (Ok st).

(** After the loop. *)
Definition read_answer (g : sdk) (threadId : string) (st : run_status) : settled AiResponse :=
  match st with
  | failed => Ok {| text := apology |}
  | _ =>
      match messages_list g threadId with
      | Throws => Throws
      | Ok data =>
          match List.filter is_assistant data with
          | [] => Ok {| text := unclear |}
          | m :: _ =>
              match content m with
              | TextBlock value :: _ => Ok {| text := value |}
              | OtherBlock :: _ => Ok {| text := unsupported |}
              | [] => Throws                    (* ['text' in undefined] *)
              end
          end
      end
  end.

(** From the first [runs.retrieve] on. *)
Definition wait_for_run (fuel : nat) (g : sdk) (threadId : string) : option (settled AiResponse) :=
  match retrieve g 0 with
  | Throws => Some Throws
  | Ok st =>
      match poll fuel g 0 st with
      | None => None
      | Some Throws => Some Throws
      | Some (Ok st') => Some (read_answer g threadId st')
      end
  end.

(** From [messages.create] on, with the thread of the user. *)
Definition start_run (fuel : nat) (g : sdk) (h : handler) (threadId : string) (message : str)
    : option (handler * settled AiResponse) :=
  match messages_create g threadId message with
  | Throws => Some (h, Throws)
  | Ok _ =>
      match runs_create g threadId with
      | Throws => Some (h, Throws)
      | Ok _ => pair h <$> wait_for_run fuel g threadId
      end
  end.

(** [None]: the promise is still pending after [fuel] iterations of the
    polling loop. *)
Definition processMessage (fuel : nat) (g : sdk) (h : handler) (userId : string) (message : str)
    : option (handler * settled AiResponse) :=
  let known :=
    match userThreadMap h !! userId with
    | Some threadId => if bool_decide (threadId = "") then None else Some threadId
    | None => None
    end in
  match known with
  | Some threadId => start_run fuel g h threadId message
  | None =>
      match threads_create g with
      | Throws => Some (h, Throws)
      | Ok threadId =>
          start_run fuel g {| userThreadMap := <[userId := threadId]> (userThreadMap h) |}
            threadId message
      end
  end.

End OpenAi.

End Handlers.

(** ** Facts about the string primitives *)

Module JsFacts.
Import Js.

Lemma trim_start_id (s : str) :
  is_space <$> head s = Some false -> trim_start s = s.
Proof. destruct s as [|c r]; simpl; [discriminate|]. intros [= ->]. reflexivity. Qed.

Lemma head_rev (s : str) : head (rev s) = last s.
Proof.
  induction s as [|x l _] using rev_ind; [reflexivity|].
  rewrite rev_unit, last_snoc. reflexivity.
Qed.

Lemma trim_id (s : str) :
  is_space <$> head s = Some false ->
  is_space <$> last s = Some false ->
  trim s = s.
Proof.
  intros Hh Hl. unfold trim, trim_end. rewrite (trim_start_id s Hh).
  rewrite trim_start_id; [apply rev_involutive|].
  rewrite head_rev. exact Hl.
Qed.

Lemma replace_clean_plain (s : str) :
  Forall (fun c => c <> OPEN) s -> replace_clean s = s.
Proof.
  unfold replace_clean. induction 1 as [|c r Hc _ IH]; simpl; [reflexivity|].
  apply N.eqb_neq in Hc. rewrite Hc. f_equal. exact IH.
Qed.

Lemma split_runs_plain (sep : N -> bool) (s : str) : forall cur,
  Forall (fun c => sep c = false) s -> split_runs sep cur [] s = [cur ++ s].
Proof.
  induction s as [|c r IH]; intros cur H; simpl.
  - reflexivity.
  - inversion H as [|? ? Hc Hr]; subst. rewrite Hc. simpl.
    rewrite IH by assumption. rewrite <- app_assoc. reflexivity.
Qed.

Lemma sentences_body_plain (s : str) : forall acc,
  Forall (fun c => is_terminator c = false) s ->
  sentences_from Body acc s = [acc ++ s].
Proof.
  induction s as [|c r IH]; intros acc H; simpl.
  - rewrite app_nil_r. reflexivity.
  - inversion H as [|? ? Hc Hr]; subst. rewrite Hc.
    rewrite IH by assumption. rewrite <- app_assoc. reflexivity.
Qed.

Lemma match_sentences_plain (s : str) :
  s <> [] -> Forall (fun c => is_terminator c = false) s ->
  match_sentences s = [s].
Proof.
  destruct s as [|c r]; [congruence|]. intros _ H.
  inversion H as [|? ? Hc Hr]; subst.
  unfold match_sentences. simpl. rewrite Hc.
  apply (sentences_body_plain r [c] Hr).
Qed.

End JsFacts.

(** ** [splitIntoHumanChunks]: what the chunks are *)

Module HumanizeFacts.
Import Js Humanize JsFacts.

Local Open Scope nat_scope.

Lemma oversize_fits (s : str) : oversize s = negb (fits s).
Proof.
  unfold oversize, fits. rewrite negb_andb.
  rewrite !Nat.ltb_antisym. reflexivity.
Qed.

(** The line estimate is the tighter half of the budget: four estimated
    lines are 240 code units. *)
Lemma fits_240 (s : str) : fits s = true <-> length s <= 240.
Proof.
  unfold fits, estimated_lines, MAX_MESSAGE_LENGTH, MAX_LINES_PER_MESSAGE,
    CHARS_PER_LINE_ESTIMATE.
  rewrite andb_true_iff, !Nat.leb_le. simpl Nat.sub.
  split.
  - intros [_ H].
    destruct (Nat.le_gt_cases (length s) 240) as [Hle|Hgt]; [exact Hle|].
    assert (5 <= (length s + 59) / 60); [|lia].
    apply Nat.div_le_lower_bound; lia.
  - intros H. split; [lia|].
    assert ((length s + 59) / 60 < 5); [|lia].
    apply Nat.Div0.div_lt_upper_bound; lia.
Qed.

(** A chunk that is over the budget is one sentence of the paragraph, sent
    whole. *)
Definition whole_sentence (sentences : list str) (c : str) : Prop :=
  oversize c = true /\ exists raw, In raw sentences /\ c = trim raw.

Lemma whole_sentence_cons (a : str) (l : list str) (c : str) :
  whole_sentence l c -> whole_sentence (a :: l) c.
Proof. intros [H (raw & Hin & ->)]. split; [exact H|]. exists raw. simpl. auto. Qed.

Lemma pack_sound (sentences : list str) : forall currentChunk c,
  currentChunk = [] \/ fits currentChunk = true ->
  In c (pack currentChunk sentences) ->
  fits c = true \/ whole_sentence sentences c.
Proof.
  induction sentences as [|raw rest IH]; intros cur c Hcur Hin.
  - simpl in Hin. destruct cur as [|x cur]; simpl in Hin; [tauto|].
    destruct Hin as [<-|[]]. destruct Hcur as [Hcur|Hcur]; [discriminate|auto].
  - assert (Hrest : forall cur', cur' = [] \/ fits cur' = true ->
               In c (pack cur' rest) -> fits c = true \/ whole_sentence (raw :: rest) c).
    { intros cur' H1 H2. destruct (IH cur' c H1 H2) as [?|?]; [auto|].
      right. apply whole_sentence_cons. assumption. }
    assert (Hhere : oversize (trim raw) = true -> whole_sentence (raw :: rest) (trim raw)).
    { intros H. split; [exact H|]. exists raw. simpl. auto. }
    assert (Hstart : In c (if oversize (trim raw) then trim raw :: pack [] rest
                           else pack (trim raw) rest) ->
                     fits c = true \/ whole_sentence (raw :: rest) c).
    { destruct (oversize (trim raw)) eqn:Hos.
      - intros [<-|H]; [right; auto|]. apply (Hrest []); auto.
      - intros H. apply (Hrest (trim raw)); [|exact H].
        right. rewrite oversize_fits in Hos. apply negb_false_iff. exact Hos. }
    simpl in Hin.
    destruct (nonempty (trim raw)) eqn:Hne; simpl in Hin.
    + destruct (nonempty cur) eqn:Hc; simpl in Hin.
      * destruct (fits (cur ++ SPACE :: trim raw)) eqn:Hfit.
        -- apply (Hrest (cur ++ SPACE :: trim raw)); auto.
        -- destruct Hin as [<-|Hin]; [|auto].
           destruct Hcur as [->|Hcur]; [discriminate|auto].
      * auto.
    + apply (Hrest cur); assumption.
Qed.

Lemma paragraph_chunks_sound (p c : str) :
  In c (paragraph_chunks p) ->
  fits c = true \/ whole_sentence (sentences_of (trim p)) c.
Proof.
  unfold paragraph_chunks.
  destruct (nonempty (trim p)); simpl; [|tauto].
  destruct (fits (trim p)) eqn:Hfit.
  - intros [<-|[]]. auto.
  - apply pack_sound. auto.
Qed.

(** A text without markers, paragraph breaks or sentence ends, and without
    white space at either end. *)
Definition plain (text : str) : Prop :=
  Forall (fun c => c <> OPEN /\ is_crlf c = false /\ is_terminator c = false) text
  /\ is_space <$> head text = Some false
  /\ is_space <$> last text = Some false.

Lemma plain_whole (text : str) : plain text -> splitIntoHumanChunks text = [text].
Proof.
  intros (Hall & Hh & Hl).
  assert (Hne : nonempty text = true) by (destruct text; [discriminate|reflexivity]).
  assert (Hnil : text <> []) by (destruct text; [discriminate|congruence]).
  unfold splitIntoHumanChunks.
  rewrite (trim_id text Hh Hl).
  rewrite replace_clean_plain by (eapply Forall_impl; [exact Hall|]; simpl; tauto).
  rewrite Hne. simpl negb. cbv iota.
  unfold split_paragraphs.
  rewrite split_runs_plain by (eapply Forall_impl; [exact Hall|]; simpl; tauto).
  simpl. rewrite app_nil_r.
  unfold paragraph_chunks. rewrite (trim_id text Hh Hl), Hne. simpl negb. cbv iota.
  destruct (fits text) eqn:Hfit.
  - simpl. rewrite Hne. reflexivity.
  - unfold sentences_of.
    rewrite match_sentences_plain;
      [|assumption|eapply Forall_impl; [exact Hall|]; simpl; tauto].
    simpl. rewrite (trim_id text Hh Hl), Hne. simpl.
    rewrite oversize_fits, Hfit. simpl. rewrite Hne. reflexivity.
Qed.

(** The loop of [processUserMessage] in [src/src/app.ts] splits at blank
    lines only: a plain text is one chunk there too. *)
Lemma response_chunks_plain (text : str) : plain text -> App.response_chunks text = [text].
Proof.
  intros (Hall & Hh & Hl).
  assert (Hne : nonempty text = true) by (destruct text; [discriminate|reflexivity]).
  unfold App.response_chunks, split_blank_lines.
  rewrite split_runs_plain.
  - simpl. rewrite (trim_id text Hh Hl).
    rewrite replace_clean_plain by (eapply Forall_impl; [exact Hall|]; simpl; tauto).
    rewrite Hne. reflexivity.
  - eapply Forall_impl; [exact Hall|]. simpl. intros c (_ & Hc & _).
    unfold is_crlf in Hc. apply orb_false_iff in Hc as [Hc _]. exact Hc.
Qed.

(** 900 letters [a]: one paragraph, no sentence end anywhere. *)
Definition letters900 : str := repeat 97%N 900.

(** 900 code units, one paragraph, whose only sentence end is at 601, far
    from the limit of 250. *)
Definition two_long_sentences : str :=
  repeat 97%N 600 ++ u16 ". " ++ repeat 98%N 298.

Lemma plain_letters900 : plain letters900.
Proof.
  split; [|split; reflexivity].
  apply Forall_forall. intros c Hin.
  apply list_elem_of_In, repeat_spec in Hin. subst c.
  repeat split; discriminate.
Qed.

End HumanizeFacts.

(** ** The queue of [src/unnamed/part_002]: bound and mutual exclusion *)

Module HumanizeQueue.
Import Js Humanize.

Definition user_of (c : cont) : string :=
  match c with
  | AwaitProcess userId _ => userId
  | AwaitPause _ userId => userId
  end.

(** What every callback keeps true. *)
Record inv (s : store) : Prop := {
  inv_bound : forall u q, userQueues s !! u = Some q -> length q <= MAX_QUEUE_SIZE;
  inv_fresh : forall k c, pending s !! k = Some c -> k < next_id s;
  inv_unique : forall k1 k2 c1 c2,
    pending s !! k1 = Some c1 -> pending s !! k2 = Some c2 ->
    user_of c1 = user_of c2 -> k1 = k2;
  inv_locked : forall k c, pending s !! k = Some c -> userLocks s !! user_of c = Some true
}.

Definition idle (s : store) (u : string) : Prop :=
  forall k c, pending s !! k = Some c -> user_of c <> u.

Lemma queue_inv_empty : inv empty_store.
Proof. split; simpl; intros *; rewrite ?lookup_empty; congruence. Qed.

Lemma not_locked_idle s u : inv s -> locked s u = false -> idle s u.
Proof.
  intros Hi Hl k c Hk <-. unfold locked in Hl.
  rewrite (inv_locked s Hi k c Hk) in Hl. discriminate.
Qed.

Lemma queue_of_bound s u : inv s -> length (queue_of s u) <= MAX_QUEUE_SIZE.
Proof.
  intros Hi. unfold queue_of. destruct (userQueues s !! u) eqn:E; simpl.
  - eapply inv_bound; eauto.
  - unfold MAX_QUEUE_SIZE. lia.
Qed.

Lemma queue_drain_inv u s :
  inv s -> idle s u -> userLocks s !! u = Some true -> inv (drain u s).
Proof.
  intros Hi Hidle Hlock. unfold drain.
  pose proof (queue_of_bound s u Hi) as Hb.
  destruct (queue_of s u) as [|task rest] eqn:Eq.
  - split; simpl.
    + apply Hi.
    + apply Hi.
    + apply Hi.
    + intros k c Hk. rewrite lookup_delete_ne by (intros ->; eapply Hidle; eauto).
      eapply inv_locked; eauto.
  - split; simpl.
    + intros u' q. rewrite lookup_insert. case_decide.
      * intros [= <-]. simpl in Hb. lia.
      * apply Hi.
    + intros k c. rewrite lookup_insert. case_decide.
      * intros _. lia.
      * intros Hk. pose proof (inv_fresh s Hi k c Hk). lia.
    + intros k1 k2 c1 c2. rewrite !lookup_insert.
      repeat case_decide; subst; try congruence.
      * intros [= <-] Hk2 Hu. simpl in Hu. exfalso. eapply Hidle; eauto.
      * intros Hk1 [= <-] Hu. simpl in Hu. exfalso. eapply Hidle; eauto.
      * apply Hi.
    + intros k c. rewrite lookup_insert. case_decide.
      * intros [= <-]. simpl. exact Hlock.
      * apply Hi.
Qed.

Lemma queue_lock_inv u s : inv s -> idle s u -> inv (with_locks (insert u true) s).
Proof.
  intros Hi Hidle. split; simpl; try apply Hi.
  intros k c Hk. rewrite lookup_insert_ne by (intros ->; eapply Hidle; eauto).
  eapply inv_locked; eauto.
Qed.

Lemma queue_handleQueue_inv u s : inv s -> inv (handleQueue u s).
Proof.
  intros Hi. unfold handleQueue.
  destruct (userQueues s !! u); [|exact Hi].
  destruct (locked s u) eqn:Hl; [exact Hi|].
  pose proof (not_locked_idle s u Hi Hl) as Hidle.
  apply queue_drain_inv.
  - apply queue_lock_inv; assumption.
  - exact Hidle.
  - simpl. apply lookup_insert_eq.
Qed.

Lemma queue_ensure_queue_inv u s :
  inv s ->
  inv (match userQueues s !! u with
       | None => with_queues (insert u []) s
       | Some _ => s
       end).
Proof.
  intros Hi. destruct (userQueues s !! u) eqn:E; [exact Hi|].
  split; simpl; try apply Hi.
  intros u' q. rewrite lookup_insert. case_decide.
  - intros [= <-]. simpl. unfold MAX_QUEUE_SIZE. lia.
  - apply Hi.
Qed.

Lemma queue_welcomeFlow_inv c s : inv s -> inv (welcomeFlow c s).
Proof.
  intros Hi. unfold welcomeFlow.
  pose proof (queue_ensure_queue_inv (from c) s Hi) as Hi'.
  set (s1 := match userQueues s !! from c with
             | None => with_queues (insert (from c) []) s
             | Some _ => s
             end) in *.
  destruct (MAX_QUEUE_SIZE <=? length (queue_of s1 (from c))) eqn:Hfull.
  - split; simpl; apply Hi'.
  - apply Nat.leb_gt in Hfull.
    assert (Hpush : inv (with_queues (insert (from c) (queue_of s1 (from c) ++ [c])) s1)).
    { split; simpl; try apply Hi'.
      intros u q. rewrite lookup_insert. case_decide.
      - intros [= <-]. rewrite length_app. simpl. lia.
      - apply Hi'. }
    destruct (locked _ (from c)); [exact Hpush|].
    apply queue_handleQueue_inv. exact Hpush.
Qed.

Lemma queue_resume_inv k s : inv s -> inv (resume k s).
Proof.
  intros Hi. split; simpl.
  - apply Hi.
  - intros k' c Hk. apply lookup_delete_Some in Hk as [_ Hk]. eapply inv_fresh; eauto.
  - intros k1 k2 c1 c2 H1 H2. apply lookup_delete_Some in H1 as [_ H1].
    apply lookup_delete_Some in H2 as [_ H2]. eapply inv_unique; eauto.
  - intros k' c Hk. apply lookup_delete_Some in Hk as [_ Hk]. eapply inv_locked; eauto.
Qed.

Lemma resume_idle k c s :
  inv s -> pending s !! k = Some c -> idle (resume k s) (user_of c).
Proof.
  intros Hi Hk k' c' Hk' Hu. simpl in Hk'.
  apply lookup_delete_Some in Hk' as [Hne Hk'].
  apply Hne. eapply inv_unique; eauto.
Qed.

Lemma queue_suspend_pause_inv d u s :
  inv s -> idle s u -> userLocks s !! u = Some true -> inv (suspend (AwaitPause d u) s).
Proof.
  intros Hi Hidle Hlock. split; simpl.
  - apply Hi.
  - intros k c. rewrite lookup_insert. case_decide.
    + intros _. lia.
    + intros Hk. pose proof (inv_fresh s Hi k c Hk). lia.
  - intros k1 k2 c1 c2. rewrite !lookup_insert.
    repeat case_decide; subst; try congruence.
    + intros [= <-] Hk2 Hu. simpl in Hu. exfalso. eapply Hidle; eauto.
    + intros Hk1 [= <-] Hu. simpl in Hu. exfalso. eapply Hidle; eauto.
    + apply Hi.
  - intros k c. rewrite lookup_insert. case_decide.
    + intros [= <-]. simpl. exact Hlock.
    + apply Hi.
Qed.

Lemma queue_step_inv t e s : inv s -> inv (step t e s).
Proof.
  intros Hi. destruct e as [c|k r]; simpl.
  - apply queue_welcomeFlow_inv. exact Hi.
  - destruct (pending s !! k) as [[u task|d u]|] eqn:Hk; [| |exact Hi].
    + destruct r; [|exact Hi].
      pose proof (resume_idle k _ s Hi Hk) as Hidle. simpl in Hidle.
      pose proof (inv_locked s Hi k _ Hk) as Hlock. simpl in Hlock.
      destruct (queue_of (resume k s) u).
      * apply queue_drain_inv; [apply queue_resume_inv; exact Hi|exact Hidle|exact Hlock].
      * apply queue_suspend_pause_inv; [apply queue_resume_inv; exact Hi|exact Hidle|exact Hlock].
    + destruct r; [exact Hi|].
      destruct (d <=? t)%Z; [|exact Hi].
      pose proof (resume_idle k _ s Hi Hk) as Hidle. simpl in Hidle.
      pose proof (inv_locked s Hi k _ Hk) as Hlock. simpl in Hlock.
      apply queue_drain_inv; [apply queue_resume_inv; exact Hi|exact Hidle|exact Hlock].
Qed.

Lemma queue_run_inv es : forall s, inv s -> inv (run es s).
Proof.
  induction es as [|[t e] es IH]; intros s Hi; simpl; [exact Hi|].
  apply IH, queue_step_inv, Hi.
Qed.

(** No callback removes an entry of [userQueues]. *)
Lemma step_keeps_queue t e s u :
  is_Some (userQueues s !! u) -> is_Some (userQueues (step t e s) !! u).
Proof.
  assert (Hdrain : forall v s, is_Some (userQueues s !! u) -> is_Some (userQueues (drain v s) !! u)).
  { intros v s0 H. unfold drain. destruct (queue_of s0 v); simpl; [exact H|].
    rewrite lookup_insert. case_decide; [eexists; reflexivity|exact H]. }
  assert (Hhq : forall v s, is_Some (userQueues s !! u) -> is_Some (userQueues (handleQueue v s) !! u)).
  { intros v s0 H. unfold handleQueue. destruct (userQueues s0 !! v); [|exact H].
    destruct (locked s0 v); [exact H|]. apply Hdrain. exact H. }
  intros H. destruct e as [c|k r]; simpl.
  - unfold welcomeFlow.
    set (s1 := match userQueues s !! from c with
               | None => with_queues (insert (from c) []) s
               | Some _ => s
               end).
    assert (H1 : is_Some (userQueues s1 !! u)).
    { subst s1. destruct (userQueues s !! from c); [exact H|]. simpl.
      rewrite lookup_insert. case_decide; [eexists; reflexivity|exact H]. }
    destruct (MAX_QUEUE_SIZE <=? _); [exact H1|].
    assert (H2 : is_Some (userQueues (with_queues (insert (from c) (queue_of s1 (from c) ++ [c])) s1) !! u)).
    { simpl. rewrite lookup_insert. case_decide; [eexists; reflexivity|exact H1]. }
    destruct (locked _ _); [exact H2|apply Hhq, H2].
  - destruct (pending s !! k) as [[v task|d v]|]; [| |exact H].
    + destruct r; [|exact H]. destruct (queue_of (resume k s) v) eqn:E.
      * apply Hdrain. exact H.
      * exact H.
    + destruct r; [exact H|]. destruct (d <=? t)%Z; [|exact H]. apply Hdrain. exact H.
Qed.
End HumanizeQueue.

(** ** [src/src/app.ts]: the inactivity timers *)

Module AppTimers.
Import Js App.

(** The inactivity timers: the timer registered for a client is the only
    one pending for it. *)
Record timers_ok (s : store) : Prop := {
  registered_fresh : forall u k, userActivityTimers s !! u = Some k -> k < next_id s;
  registered_timer : forall u k c,
    userActivityTimers s !! u = Some k -> pending s !! k = Some c ->
    exists d, c = InactivityTimer d u;
  timer_registered : forall k d u,
    pending s !! k = Some (InactivityTimer d u) -> userActivityTimers s !! u = Some k;
  pending_fresh : forall k c, pending s !! k = Some c -> k < next_id s
}.

Definition is_inactivity_timer (c : cont) : bool :=
  match c with InactivityTimer _ _ => true | _ => false end.

Lemma timers_ok_empty : timers_ok empty_store.
Proof. split; simpl; intros *; rewrite ?lookup_empty; congruence. Qed.

(** Stores that agree on the timers and the continuations. *)
Lemma timers_ok_ext s s' :
  userActivityTimers s' = userActivityTimers s -> pending s' = pending s ->
  next_id s' = next_id s -> timers_ok s -> timers_ok s'.
Proof.
  intros E1 E2 E3 [H1 H2 H3 H4]. split; rewrite ?E1, ?E2, ?E3; assumption.
Qed.

Lemma timers_ok_suspend c s :
  is_inactivity_timer c = false -> timers_ok s -> timers_ok (suspend c s).
Proof.
  intros Hc [H1 H2 H3 H4]. split; simpl.
  - intros u k Hk. specialize (H1 u k Hk). lia.
  - intros u k c' Hk. rewrite lookup_insert. case_decide.
    + subst. specialize (H1 u _ Hk). lia.
    + apply H2. exact Hk.
  - intros k d u. rewrite lookup_insert. case_decide.
    + intros [= ->]. discriminate.
    + apply H3.
  - intros k c'. rewrite lookup_insert. case_decide.
    + intros _. lia.
    + intros Hk. specialize (H4 k c' Hk). lia.
Qed.

(** The tasks enqueued for [u], newest first. *)
Definition enqueued_for (u : string) (outs : list output) : list ctx :=
  omap (fun o => match o with
                 | Enqueued c task => if bool_decide (c = u) then Some task else None
                 | _ => None
                 end) outs.

(** [quiet s s']: from [s] to [s'] no inactivity timer was set or cleared,
    nothing that was waiting was resumed, no buffer touched and no task
    enqueued. *)
Record quiet (s s' : store) : Prop := {
  quiet_timers : userActivityTimers s' = userActivityTimers s;
  quiet_buffers : userMessageBuffers s' = userMessageBuffers s;
  quiet_enqueued : forall u, enqueued_for u (outputs s') = enqueued_for u (outputs s);
  quiet_next : next_id s <= next_id s';
  quiet_old : forall k c, pending s !! k = Some c -> pending s' !! k = Some c;
  quiet_new : forall k c, pending s' !! k = Some c ->
    pending s !! k = Some c
    \/ (is_inactivity_timer c = false /\ next_id s <= k < next_id s')
}.

Lemma quiet_refl s : quiet s s.
Proof. split; intros; auto. Qed.

Lemma quiet_trans s1 s2 s3 : quiet s1 s2 -> quiet s2 s3 -> quiet s1 s3.
Proof.
  intros [A1 Ab Ae A2 A3 A4] [B1 Bb Be B2 B3 B4]. split.
  - congruence.
  - congruence.
  - intros u. rewrite Be. apply Ae.
  - lia.
  - auto.
  - intros k c Hk. destruct (B4 k c Hk) as [H|[H1 H2]].
    + destruct (A4 k c H) as [H'|[H1 H2]]; [auto|]. right. split; [assumption|lia].
    + right. split; [assumption|lia].
Qed.

Lemma quiet_ext s s' :
  userActivityTimers s' = userActivityTimers s ->
  userMessageBuffers s' = userMessageBuffers s ->
  (forall u, enqueued_for u (outputs s') = enqueued_for u (outputs s)) ->
  pending s' = pending s ->
  next_id s' = next_id s -> quiet s s'.
Proof.
  intros E1 Eb Ee E2 E3. split; rewrite ?E1, ?E2, ?E3; auto.
Qed.

Definition fresh (s : store) : Prop :=
  forall k c, pending s !! k = Some c -> k < next_id s.

Lemma quiet_fresh s s' : fresh s -> quiet s s' -> fresh s'.
Proof.
  intros Hf [_ _ _ Hn _ Hnew] k c Hk.
  destruct (Hnew k c Hk) as [H|[_ H]]; [|lia].
  specialize (Hf k c H). lia.
Qed.

Lemma quiet_suspend c s :
  fresh s -> is_inactivity_timer c = false -> quiet s (suspend c s).
Proof.
  intros Hf Hc. split; simpl.
  - reflexivity.
  - reflexivity.
  - reflexivity.
  - lia.
  - intros k c' Hk. rewrite lookup_insert_ne; [exact Hk|].
    specialize (Hf k c' Hk). lia.
  - intros k c'. rewrite lookup_insert. case_decide.
    + intros [= <-]. right. split; [exact Hc|lia].
    + auto.
Qed.

Lemma quiet_timers_ok s s' : timers_ok s -> quiet s s' -> timers_ok s'.
Proof.
  intros [H1 H2 H3 H4] [Q1 _ _ Q2 Q3 Q4]. split; rewrite ?Q1.
  - intros u k Hk. specialize (H1 u k Hk). lia.
  - intros u k c Hu Hk. destruct (Q4 k c Hk) as [H|[_ H]]; [eauto|].
    specialize (H1 u k Hu). lia.
  - intros k d u Hk. destruct (Q4 k _ Hk) as [H|[H _]]; [eauto|discriminate].
  - intros k c Hk. destruct (Q4 k c Hk) as [H|[_ H]]; [|lia].
    specialize (H4 k c H). lia.
Qed.

(** The helpers of the queue and of the listener are quiet. *)
Ltac quiet_same := apply quiet_ext; solve [reflexivity | intros; reflexivity].

Lemma after_loop_quiet u q s : quiet s (after_loop u q s).
Proof.
  unfold after_loop. destruct (array_of s q); [|apply quiet_refl].
  destruct (locked s u); [apply quiet_refl|quiet_same].
Qed.

Lemma loop_quiet u q s : fresh s -> quiet s (loop u q s).
Proof.
  intros Hf. unfold loop. destruct (array_of s q); [apply after_loop_quiet|].
  destruct (locked s u); [apply quiet_refl|].
  eapply quiet_trans; [|apply quiet_suspend; [|reflexivity]].
  - quiet_same.
  - exact Hf.
Qed.

Lemma handleQueue_quiet u s : fresh s -> quiet s (handleQueue u s).
Proof.
  intros Hf. unfold handleQueue. destruct (userQueues s !! u); [|quiet_same].
  destruct (locked s u); [apply quiet_refl|apply loop_quiet, Hf].
Qed.

Lemma finish_task_quiet t u q s : fresh s -> quiet s (finish_task t u q s).
Proof.
  intros Hf. unfold finish_task.
  destruct (array_of _ q).
  - eapply quiet_trans; [|apply loop_quiet; exact Hf]. quiet_same.
  - eapply quiet_trans; [|apply quiet_suspend; [exact Hf|reflexivity]]. quiet_same.
Qed.

Lemma send_next_quiet t u q task chunks s : fresh s -> quiet s (send_next t u q task chunks s).
Proof.
  intros Hf. destruct chunks; simpl; [apply finish_task_quiet, Hf|].
  eapply quiet_trans; [|apply quiet_suspend; [exact Hf|reflexivity]]. quiet_same.
Qed.

Lemma record_sent_quiet t id s : fresh s -> quiet s (record_sent t id s).
Proof.
  intros Hf. destruct id as [id|]; simpl; [|apply quiet_refl].
  case_bool_decide; [apply quiet_refl|].
  eapply quiet_trans; [|apply quiet_suspend; [exact Hf|reflexivity]]. quiet_same.
Qed.

Lemma upsert_loop_quiet msgs : forall s, fresh s -> quiet s (upsert_loop msgs s).
Proof.
  induction msgs as [|msg rest IH]; intros s Hf; simpl; [apply quiet_refl|].
  destruct (_ || _); [apply IH, Hf|].
  destruct (extractTextFromMessage msg); [|apply IH, Hf].
  destruct (key_fromMe msg); [|apply IH, Hf].
  case_bool_decide; [apply IH, Hf|].
  destruct (clientThreadIds s !! remoteJid msg).
  - unfold syncManualMessageToOpenAI. destruct (thread_of s (remoteJid msg)).
    + eapply quiet_trans; [|apply quiet_suspend; [exact Hf|reflexivity]]. quiet_same.
    + eapply quiet_trans; [|apply IH; exact Hf]. quiet_same.
  - eapply quiet_trans; [|apply IH; exact Hf]. quiet_same.
Qed.


Lemma timers_ok_fresh s : timers_ok s -> fresh s.
Proof. intros H. exact (pending_fresh s H). Qed.

Lemma timers_ok_resume k s : timers_ok s -> timers_ok (resume k s).
Proof.
  intros [H1 H2 H3 H4]. split; simpl.
  - exact H1.
  - intros u k' c' Hu Hk'. apply lookup_delete_Some in Hk' as [_ Hk']. eauto.
  - intros k' d u Hk'. apply lookup_delete_Some in Hk' as [_ Hk']. eauto.
  - intros k' c' Hk'. apply lookup_delete_Some in Hk' as [_ Hk']. eauto.
Qed.

Lemma mainFlow_timers_ok t c s : timers_ok s -> timers_ok (mainFlow t c s).
Proof.
  intros Hok. unfold mainFlow. destruct (fromMe c); [exact Hok|].
  set (b := {| messages := _; lastCtx := c |}).
  set (s1 := with_buffers (insert (from c) b) s).
  assert (Hok1 : timers_ok s1) by (apply (timers_ok_ext s s1); auto).
  set (s2 := match userActivityTimers s1 !! from c with
             | Some timerId => resume timerId s1
             | None => s1
             end).
  assert (Hok2 : timers_ok s2).
  { subst s2. destruct (userActivityTimers s1 !! from c); [apply timers_ok_resume|]; exact Hok1. }
  assert (Hreg : userActivityTimers s2 = userActivityTimers s).
  { subst s2. destruct (userActivityTimers s1 !! from c); reflexivity. }
  assert (Hgone : forall k d, pending s2 !! k <> Some (InactivityTimer d (from c))).
  { intros k d Hk. pose proof (timer_registered s2 Hok2 k d _ Hk) as Hr.
    rewrite Hreg in Hr. subst s2. change (userActivityTimers s1) with (userActivityTimers s) in Hk.
    rewrite Hr in Hk. simpl in Hk. rewrite lookup_delete_eq in Hk. discriminate. }
  destruct Hok2 as [H1 H2 H3 H4]. split; simpl.
  - intros u k. rewrite lookup_insert. case_decide.
    + intros [= <-]. lia.
    + intros Hk. specialize (H1 u k Hk). lia.
  - intros u k c'. rewrite !lookup_insert. case_decide.
    + intros [= <-]. rewrite decide_True by reflexivity. intros [= <-]. subst. eauto.
    + intros Hu. case_decide.
      * subst. specialize (H1 u _ Hu). lia.
      * apply H2. exact Hu.
  - intros k d u. rewrite !lookup_insert. case_decide.
    + intros [= <- <-]. rewrite decide_True by reflexivity. subst. reflexivity.
    + intros Hk. case_decide.
      * subst. exfalso. eapply Hgone. exact Hk.
      * apply H3 in Hk. exact Hk.
  - intros k c'. rewrite lookup_insert. case_decide.
    + intros _. lia.
    + intros Hk. specialize (H4 k c' Hk). lia.
Qed.

(** What the timer's callback does before it deletes the buffer. *)
Definition flush_body (clientId : string) (s : store) : store :=
  match userMessageBuffers s !! clientId with
  | Some finalBuffer =>
      match messages finalBuffer with
      | [] => s
      | _ :: _ =>
          let taskCtx := with_body (lastCtx finalBuffer) (join [LF; LF] (messages finalBuffer)) in
          let s := match userQueues s !! clientId with
                   | None => new_queue clientId s
                   | Some _ => s
                   end in
          match userQueues s !! clientId with
          | Some queue =>
              let s := with_arrays (insert queue (array_of s queue ++ [taskCtx])) s in
              let s := emit (Enqueued clientId taskCtx) s in
              if locked s clientId then s else handleQueue clientId s
          | None => s
          end
      end
  | None => s
  end.

Lemma flush_unfold clientId s :
  flush clientId s
  = with_timers (delete clientId) (with_buffers (delete clientId) (flush_body clientId s)).
Proof. reflexivity. Qed.

(** The callback is quiet but for the task it enqueues. *)
Record flushed (u : string) (s s' : store) : Prop := {
  flushed_timers : userActivityTimers s' = userActivityTimers s;
  flushed_buffers : userMessageBuffers s' = userMessageBuffers s;
  flushed_other : forall v, v <> u -> enqueued_for v (outputs s') = enqueued_for v (outputs s);
  flushed_next : next_id s <= next_id s';
  flushed_old : forall k c, pending s !! k = Some c -> pending s' !! k = Some c;
  flushed_new : forall k c, pending s' !! k = Some c ->
    pending s !! k = Some c
    \/ (is_inactivity_timer c = false /\ next_id s <= k < next_id s')
}.

Lemma quiet_flushed u s s' : quiet s s' -> flushed u s s'.
Proof. intros [? ? ? ? ? ?]. split; auto. Qed.

Lemma flush_body_flushed u s : fresh s -> flushed u s (flush_body u s).
Proof.
  intros Hf. unfold flush_body.
  destruct (userMessageBuffers s !! u) as [b|]; [|apply quiet_flushed, quiet_refl].
  destruct (messages b) as [|m ms]; [apply quiet_flushed, quiet_refl|].
  set (task := with_body _ _).
  set (s1 := match userQueues s !! u with None => new_queue u s | Some _ => s end).
  assert (Q1 : quiet s s1).
  { subst s1. destruct (userQueues s !! u); [apply quiet_refl|quiet_same]. }
  destruct (userQueues s1 !! u) as [q|]; [|apply quiet_flushed, Q1].
  set (s2 := emit (Enqueued u task) (with_arrays (insert q (array_of s1 q ++ [task])) s1)).
  assert (F2 : flushed u s s2).
  { destruct Q1 as [A1 Ab Ae A2 A3 A4]. split; simpl; auto.
    intros v Hv. rewrite bool_decide_eq_false_2 by congruence. apply Ae.
}
  assert (Hf2 : fresh s2).
  { intros k c Hk. exact (quiet_fresh s s1 Hf Q1 k c Hk). }
  assert (F3 : forall s3, quiet s2 s3 -> flushed u s s3).
  { intros s3 [B1 Bb Be B2 B3 B4]. destruct F2 as [A1 Ab Ae A2 A3 A4]. split.
    - congruence.
    - congruence.
    - intros v Hv. rewrite Be. apply Ae, Hv.
    - lia.
    - auto.
    - intros k c Hk. destruct (B4 k c Hk) as [H|[H1 H2]].
      + destruct (A4 k c H) as [H'|[H1 H2]]; [auto|]. right. split; [assumption|lia].
      + right. split; [assumption|lia]. }
  change (flushed u s (if locked s2 u then s2 else handleQueue u s2)).
  destruct (locked s2 u); [exact F2|].
  apply F3, handleQueue_quiet, Hf2.
Qed.

Lemma flush_timers_ok k d u s :
  timers_ok s -> pending s !! k = Some (InactivityTimer d u) ->
  timers_ok (flush u (resume k s)).
Proof.
  intros Hok Hk. rewrite flush_unfold.
  pose proof (timers_ok_resume k s Hok) as Hok1.
  pose proof (flush_body_flushed u (resume k s) (timers_ok_fresh _ Hok1)) as F.
  set (s1 := flush_body u (resume k s)) in *.
  destruct Hok1 as [H1 H2 H3 H4]. destruct F as [F1 Fb Fe F2 F3 F4].
  pose proof (timer_registered s Hok k d u Hk) as Hreg.
  split; simpl; rewrite ?F1.
  - intros v k' Hv. apply lookup_delete_Some in Hv as [_ Hv].
    specialize (H1 v k' Hv). lia.
  - intros v k' c Hv Hk'. apply lookup_delete_Some in Hv as [_ Hv].
    destruct (F4 k' c Hk') as [H|[_ H]]; [eauto|]. specialize (H1 v k' Hv). lia.
  - intros k' d' v Hk'. destruct (F4 k' _ Hk') as [H|[H _]]; [|discriminate].
    pose proof (H3 k' d' v H) as Hv. simpl in Hv.
    rewrite lookup_delete_ne; [exact Hv|]. intros ->.
    rewrite Hreg in Hv. injection Hv as <-. simpl in H.
    rewrite lookup_delete_eq in H. discriminate.
  - intros k' c Hk'. destruct (F4 k' c Hk') as [H|[_ H]]; [|lia].
    specialize (H4 k' c H). lia.
Qed.

Lemma step_timers_ok t e s : timers_ok s -> timers_ok (step t e s).
Proof.
  intros Hok. pose proof (timers_ok_fresh s Hok) as Hf.
  assert (Hr : forall k, fresh (resume k s)).
  { intros k. apply timers_ok_fresh, timers_ok_resume, Hok. }
  assert (Hq : forall k s', quiet (resume k s) s' -> timers_ok s').
  { intros k s' Q. eapply quiet_timers_ok; [apply timers_ok_resume, Hok|exact Q]. }
  destruct e as [c|msgs|k r]; simpl.
  - apply mainFlow_timers_ok, Hok.
  - eapply quiet_timers_ok; [exact Hok|apply upsert_loop_quiet, Hf].
  - destruct (pending s !! k) as [c|] eqn:Hk; [|exact Hok].
    destruct c, r; try exact Hok.
    + destruct (deadline <=? t)%Z; [|exact Hok]. eapply flush_timers_ok; eauto.
    + apply (Hq k).
      pose proof (quiet_suspend (ThreadTimer (t + THREAD_SAVE_DELAY_MS) (from task))
                    (resume k s) (Hr k) eq_refl) as Q.
      eapply quiet_trans; [exact Q|].
      apply send_next_quiet. eapply quiet_fresh; [apply Hr|exact Q].
    + apply (Hq k), finish_task_quiet, Hr.
    + apply (Hq k).
      pose proof (record_sent_quiet t id (resume k s) (Hr k)) as Q.
      eapply quiet_trans; [exact Q|].
      apply quiet_suspend; [|reflexivity].
      eapply quiet_fresh; [apply Hr|exact Q].
    + apply (Hq k), finish_task_quiet, Hr.
    + destruct (deadline <=? t)%Z; [|exact Hok]. apply (Hq k), send_next_quiet, Hr.
    + destruct (deadline <=? t)%Z; [|exact Hok]. apply (Hq k), loop_quiet, Hr.
    + destruct (deadline <=? t)%Z; [|exact Hok].
      destruct threadId as [th|]; [|apply (Hq k), quiet_refl].
      case_bool_decide; [apply (Hq k), quiet_refl|]. apply (Hq k). quiet_same.
    + destruct (deadline <=? t)%Z; [|exact Hok]. apply (Hq k), quiet_refl.
    + destruct (deadline <=? t)%Z; [|exact Hok]. apply (Hq k). quiet_same.
    + apply (Hq k), upsert_loop_quiet, Hr.
    + apply (Hq k), upsert_loop_quiet, Hr.
Qed.

Lemma run_timers_ok es : forall s, timers_ok s -> timers_ok (run es s).
Proof.
  induction es as [|[t e] es IH]; intros s H; simpl; [exact H|].
  apply IH, step_timers_ok, H.
Qed.

End AppTimers.

(** ** [src/src/app.ts]: the queue and the lock *)

Module AppQueue.
Import Js App AppTimers.

(** A call of [handleQueue] that is waiting, with its user and its array. *)
Definition drain_of (c : cont) : option (string * nat) :=
  match c with
  | AwaitAsk u q _ | AwaitSend u q _ _ | AwaitPacing _ u q _ _
  | AwaitCooldown _ u q => Some (u, q)
  | _ => None
  end.

(** A drain between the [shift] of a task and the [finally] block: the task
    is being processed. *)
Definition processing (c : cont) : option (string * nat) :=
  match c with
  | AwaitAsk u q _ | AwaitSend u q _ _ | AwaitPacing _ u q _ _ => Some (u, q)
  | _ => None
  end.

Lemma processing_drain c p : processing c = Some p -> drain_of c = Some p.
Proof. destruct c; simpl; congruence. Qed.

Lemma idle_processing c : drain_of c = None -> processing c = None.
Proof. destruct c; simpl; congruence. Qed.

(** How arrays are shared, and mutual exclusion. *)
Record base (s : store) : Prop := {
  fresh_entry : forall u q, userQueues s !! u = Some q -> q < next_array s;
  fresh_drain : forall k c u q,
    pending s !! k = Some c -> drain_of c = Some (u, q) -> q < next_array s;
  entry_inj : forall u1 u2 q,
    userQueues s !! u1 = Some q -> userQueues s !! u2 = Some q -> u1 = u2;
  drain_owner : forall k c u q u2,
    pending s !! k = Some c -> drain_of c = Some (u, q) ->
    userQueues s !! u2 = Some q -> u2 = u;
  one_processing : forall k1 k2 c1 c2 u q1 q2,
    pending s !! k1 = Some c1 -> pending s !! k2 = Some c2 ->
    processing c1 = Some (u, q1) -> processing c2 = Some (u, q2) -> k1 = k2;
  processing_locked : forall k c u q,
    pending s !! k = Some c -> processing c = Some (u, q) ->
    userLocks s !! u = Some true
}.

(** An array in [userQueues] is empty only while its last task is being
    processed. *)
Definition busy (s : store) (u : string) (q : nat) : Prop :=
  exists k c, pending s !! k = Some c /\ processing c = Some (u, q).

Record inv (s : store) : Prop := {
  inv_base : base s;
  entry_busy : forall u q,
    userQueues s !! u = Some q -> array_of s q = [] -> busy s u q
}.

(** The store while the drain of [u] on [q] runs its callback: the drain is
    out of [pending], its lock is still set. *)
Record mid (u : string) (q : nat) (s : store) : Prop := {
  mid_base : base s;
  mid_fresh : q < next_array s;
  mid_owner : forall u2, userQueues s !! u2 = Some q -> u2 = u;
  mid_idle : forall k c q', pending s !! k = Some c -> processing c <> Some (u, q');
  mid_locked : userLocks s !! u = Some true;
  mid_busy : forall u2 q2,
    userQueues s !! u2 = Some q2 -> array_of s q2 = [] ->
    (u2 = u /\ q2 = q) \/ busy s u2 q2
}.

Lemma inv_empty : inv empty_store.
Proof.
  split; [split|]; simpl; intros *; rewrite ?lookup_empty; congruence.
Qed.

(** Stores that agree on the queues, the locks and the continuations. *)
Record same_queues (s s' : store) : Prop := {
  same_userQueues : userQueues s' = userQueues s;
  same_arrays : arrays s' = arrays s;
  same_next_array : next_array s' = next_array s;
  same_userLocks : userLocks s' = userLocks s;
  same_pending : pending s' = pending s;
  same_next_id : next_id s' = next_id s
}.

Lemma base_same s s' :
  userQueues s' = userQueues s -> next_array s' = next_array s ->
  userLocks s' = userLocks s -> pending s' = pending s -> base s -> base s'.
Proof.
  intros E1 E3 E4 E5 [H1 H2 H3 H4 H5 H6].
  split; rewrite ?E1, ?E3, ?E4, ?E5; assumption.
Qed.

Lemma base_ext s s' : same_queues s s' -> base s -> base s'.
Proof. intros [E1 E2 E3 E4 E5 E6]. apply base_same; assumption. Qed.

Lemma busy_ext s s' u q : pending s' = pending s -> busy s u q -> busy s' u q.
Proof. intros E (k & c & Hk & Hc). exists k, c. rewrite E. auto. Qed.

Lemma array_of_ext s s' q : arrays s' = arrays s -> array_of s' q = array_of s q.
Proof. unfold array_of. intros ->. reflexivity. Qed.

Lemma inv_ext s s' : same_queues s s' -> inv s -> inv s'.
Proof.
  intros E [Hb Hbusy]. split; [eapply base_ext; eauto|].
  destruct E as [E1 E2 E3 E4 E5 E6]. intros u q. rewrite E1, (array_of_ext s s' q E2).
  intros Hu Ha. eapply busy_ext; eauto.
Qed.

Lemma mid_ext u q s s' : same_queues s s' -> mid u q s -> mid u q s'.
Proof.
  intros E [Hb Hf Ho Hi Hl Hbusy]. pose proof (base_ext s s' E Hb) as Hb'.
  destruct E as [E1 E2 E3 E4 E5 E6]. split; rewrite ?E1, ?E3, ?E4, ?E5; try assumption.
  intros u2 q2. rewrite (array_of_ext s s' q2 E2). intros Hu Ha.
  destruct (Hbusy u2 q2 Hu Ha) as [?|?]; [auto|]. right. eapply busy_ext; eauto.
Qed.

Ltac same := split; reflexivity.

(** A continuation that is no drain starts waiting. *)
Lemma base_suspend_idle c s :
  fresh s -> drain_of c = None -> base s -> base (suspend c s).
Proof.
  intros Hf Hc [H1 H2 H3 H4 H5 H6]. pose proof (idle_processing c Hc) as Hp.
  split; simpl; try assumption.
  - intros k c' u q. rewrite lookup_insert. case_decide; [congruence|eauto].
  - intros k c' u q u2. rewrite lookup_insert. case_decide; [congruence|eauto].
  - intros k1 k2 c1 c2 u q1 q2. rewrite !lookup_insert.
    repeat case_decide; try congruence. eauto.
  - intros k c' u q. rewrite lookup_insert. case_decide; [congruence|eauto].
Qed.

Lemma busy_suspend c s u q : fresh s -> busy s u q -> busy (suspend c s) u q.
Proof.
  intros Hf (k & c' & Hk & Hc). exists k, c'. split; [|exact Hc]. simpl.
  rewrite lookup_insert_ne; [exact Hk|]. specialize (Hf k c' Hk). lia.
Qed.

Lemma inv_suspend_idle c s :
  fresh s -> drain_of c = None -> inv s -> inv (suspend c s).
Proof.
  intros Hf Hc [Hb Hbusy]. split; [apply base_suspend_idle; assumption|].
  intros u q Hu Ha. apply busy_suspend; [exact Hf|]. apply Hbusy; assumption.
Qed.

Lemma mid_suspend_idle u q c s :
  fresh s -> drain_of c = None -> mid u q s -> mid u q (suspend c s).
Proof.
  intros Hf Hc [Hb Hfr Ho Hi Hl Hbusy]. pose proof (idle_processing c Hc) as Hp.
  split; try assumption.
  - apply base_suspend_idle; assumption.
  - intros k c' q'. simpl. rewrite lookup_insert. case_decide; [congruence|eauto].
  - intros u2 q2 Hu Ha. destruct (Hbusy u2 q2 Hu Ha) as [?|?]; [auto|].
    right. apply busy_suspend; assumption.
Qed.

(** Something that waited is taken out. *)
Lemma base_resume k s : base s -> base (resume k s).
Proof.
  intros [H1 H2 H3 H4 H5 H6]. split; simpl; try assumption.
  - intros k' c u q Hk'. apply lookup_delete_Some in Hk' as [_ Hk']. eauto.
  - intros k' c u q u2 Hk'. apply lookup_delete_Some in Hk' as [_ Hk']. eauto.
  - intros k1 k2 c1 c2 u q1 q2 Hk1 Hk2.
    apply lookup_delete_Some in Hk1 as [_ Hk1].
    apply lookup_delete_Some in Hk2 as [_ Hk2]. eauto.
  - intros k' c u q Hk'. apply lookup_delete_Some in Hk' as [_ Hk']. eauto.
Qed.

Lemma busy_resume k c s u q :
  pending s !! k = Some c -> processing c <> Some (u, q) ->
  busy s u q -> busy (resume k s) u q.
Proof.
  intros Hk Hc (k' & c' & Hk' & Hc'). exists k', c'. split; [|exact Hc']. simpl.
  rewrite lookup_delete_ne; [exact Hk'|]. intros ->. congruence.
Qed.

Lemma inv_resume_idle k c s :
  pending s !! k = Some c -> processing c = None -> inv s -> inv (resume k s).
Proof.
  intros Hk Hc [Hb Hbusy]. split; [apply base_resume; assumption|].
  intros u q Hu Ha. apply (busy_resume k c); [assumption|congruence|].
  apply Hbusy; assumption.
Qed.

Lemma inv_resume_absent k s : pending s !! k = None -> inv s -> inv (resume k s).
Proof.
  intros Hk. apply inv_ext. split; try reflexivity. simpl.
  apply delete_id. exact Hk.
Qed.

Lemma inv_resume_processing k c u q s :
  pending s !! k = Some c -> processing c = Some (u, q) -> inv s -> mid u q (resume k s).
Proof.
  intros Hk Hc [Hb Hbusy]. pose proof (processing_drain c _ Hc) as Hd. split.
  - apply base_resume. exact Hb.
  - exact (fresh_drain s Hb k c u q Hk Hd).
  - intros u2 Hu. exact (drain_owner s Hb k c u q u2 Hk Hd Hu).
  - intros k' c' q' Hk' Hc'. simpl in Hk'. apply lookup_delete_Some in Hk' as [Hne Hk'].
    apply Hne. exact (one_processing s Hb k k' c c' u q q' Hk Hk' Hc Hc').
  - exact (processing_locked s Hb k c u q Hk Hc).
  - intros u2 q2 Hu Ha. destruct (Hbusy u2 q2 Hu Ha) as (k' & c' & Hk' & Hc').
    destruct (decide (k' = k)) as [->|Hne].
    + left. rewrite Hk in Hk'. injection Hk' as <-. rewrite Hc in Hc'.
      injection Hc' as <- <-. auto.
    + right. exists k', c'. split; [|exact Hc']. simpl.
      rewrite lookup_delete_ne by congruence. exact Hk'.
Qed.

(** The drain goes on waiting with its task. *)
Lemma mid_suspend_processing u q c s :
  fresh s -> processing c = Some (u, q) -> mid u q s -> inv (suspend c s).
Proof.
  intros Hf Hc [[H1 H2 H3 H4 H5 H6] Hfr Ho Hi Hl Hbusy].
  pose proof (processing_drain c _ Hc) as Hd.
  split; [split|]; simpl; try assumption.
  - intros k c' u' q'. rewrite lookup_insert. case_decide; [|eauto].
    intros [= <-]. rewrite Hd. intros [= <- <-]. exact Hfr.
  - intros k c' u' q' u2. rewrite lookup_insert. case_decide; [|eauto].
    intros [= <-]. rewrite Hd. intros [= <- <-]. apply Ho.
  - intros k1 k2 c1 c2 u' q1 q2. rewrite !lookup_insert.
    repeat case_decide; subst; try congruence.
    + intros [= <-] Hk2. rewrite Hc. intros [= <- <-] Hc2. exfalso. eapply Hi; eauto.
    + intros Hk1 [= <-] Hc1. rewrite Hc. intros [= <- <-]. exfalso. eapply Hi; eauto.
    + eauto.
  - intros k c' u' q'. rewrite lookup_insert. case_decide; [|eauto].
    intros [= <-]. rewrite Hc. intros [= <- <-]. exact Hl.
  - intros u2 q2 Hu Ha. destruct (Hbusy u2 q2 Hu Ha) as [[-> ->]|Hb].
    + exists (next_id s), c. split; [apply lookup_insert_eq|exact Hc].
    + apply busy_suspend; assumption.
Qed.


Lemma locked_false_idle s u k c q :
  base s -> locked s u = false -> pending s !! k = Some c -> processing c <> Some (u, q).
Proof.
  intros Hb Hl Hk Hc. unfold locked in Hl.
  rewrite (processing_locked s Hb k c u q Hk Hc) in Hl. discriminate.
Qed.

(** *** [handleQueue] *)

Lemma after_loop_inv u q s : inv s -> inv (after_loop u q s).
Proof.
  intros Hi. unfold after_loop. destruct (array_of s q); [|exact Hi].
  destruct (locked s u) eqn:Hl; [exact Hi|].
  destruct Hi as [Hb Hbusy]. pose proof Hb as [H1 H2 H3 H4 H5 H6].
  split; [split|]; simpl.
  - intros u' q' Hu. apply lookup_delete_Some in Hu as [_ Hu]. eauto.
  - exact H2.
  - intros u1 u2 q' Hu1 Hu2. apply lookup_delete_Some in Hu1 as [_ Hu1].
    apply lookup_delete_Some in Hu2 as [_ Hu2]. eauto.
  - intros k c u' q' u2 Hk Hd Hu. apply lookup_delete_Some in Hu as [_ Hu]. eauto.
  - exact H5.
  - intros k c u' q' Hk Hc. rewrite lookup_delete_ne; [eauto|].
    intros <-. eapply locked_false_idle; eauto.
  - intros u' q' Hu Ha. apply lookup_delete_Some in Hu as [_ Hu].
    apply Hbusy; assumption.
Qed.

(** The drain takes the lock and the next task. *)
Lemma start_inv u q task rest s :
  fresh s -> inv s -> q < next_array s ->
  (forall u2, userQueues s !! u2 = Some q -> u2 = u) ->
  locked s u = false ->
  inv (suspend (AwaitAsk u q task)
         (emit (AskBackend u (body task))
            (with_arrays (insert q rest) (with_locks (insert u true) s)))).
Proof.
  intros Hf [Hb Hbusy] Hq Ho Hl. pose proof Hb as [H1 H2 H3 H4 H5 H6].
  split; [split|]; simpl; try assumption.
  - intros k c u' q'. rewrite lookup_insert. case_decide; [|eauto].
    intros [= <-]. simpl. intros [= <- <-]. exact Hq.
  - intros k c u' q' u2. rewrite lookup_insert. case_decide; [|eauto].
    intros [= <-]. simpl. intros [= <- <-]. apply Ho.
  - intros k1 k2 c1 c2 u' q1 q2. rewrite !lookup_insert.
    repeat case_decide; subst; try congruence.
    + intros [= <-] Hk2. simpl. intros [= <- <-] Hc2. exfalso.
      eapply locked_false_idle; eauto.
    + intros Hk1 [= <-] Hc1. simpl. intros [= <- <-]. exfalso.
      eapply locked_false_idle; eauto.
    + eauto.
  - intros k c u' q'. rewrite lookup_insert. case_decide.
    + intros [= <-]. simpl. intros [= <- <-]. apply lookup_insert_eq.
    + intros Hk Hc. rewrite lookup_insert_ne; [eauto|].
      intros <-. eapply locked_false_idle; eauto.
  - intros u2 q2 Hu. unfold array_of. simpl. rewrite lookup_insert. case_decide.
    + subst q2. intros _. rewrite (Ho u2 Hu). exists (next_id s), (AwaitAsk u q task).
      split; [simpl; apply lookup_insert_eq|reflexivity].
    + intros Ha. destruct (Hbusy u2 q2 Hu Ha) as (k & c & Hk & Hc).
      exists k, c. split; [|exact Hc]. simpl. rewrite lookup_insert_ne; [exact Hk|].
      specialize (Hf k c Hk). lia.
Qed.

Lemma loop_inv u q s :
  fresh s -> inv s -> q < next_array s ->
  (forall u2, userQueues s !! u2 = Some q -> u2 = u) ->
  inv (loop u q s).
Proof.
  intros Hf Hi Hq Ho. unfold loop.
  destruct (array_of s q) as [|task rest] eqn:Ha.
  - pose proof (after_loop_inv u q s Hi) as H. unfold after_loop in H.
    rewrite Ha in H. unfold after_loop. rewrite Ha. exact H.
  - destruct (locked s u) eqn:Hl; [exact Hi|]. apply start_inv; assumption.
Qed.

Lemma handleQueue_inv u s :
  fresh s -> inv s -> is_Some (userQueues s !! u) -> inv (handleQueue u s).
Proof.
  intros Hf Hi [q Hu]. unfold handleQueue. rewrite Hu.
  destruct (locked s u); [exact Hi|].
  apply loop_inv; try assumption.
  - exact (fresh_entry s (inv_base s Hi) u q Hu).
  - intros u2 Hu2. exact (entry_inj s (inv_base s Hi) u2 u q Hu2 Hu).
Qed.

(** The [finally] block. *)
Lemma finish_task_inv t u q s : fresh s -> mid u q s -> inv (finish_task t u q s).
Proof.
  intros Hf [Hb Hfr Ho Hi Hl Hbusy]. pose proof Hb as [H1 H2 H3 H4 H5 H6].
  unfold finish_task.
  change (array_of (with_locks (insert u false) s) q) with (array_of s q).
  destruct (array_of s q) as [|task rest] eqn:Ha.
  - unfold loop.
    change (array_of (with_locks (insert u false) s) q) with (array_of s q).
    rewrite Ha. unfold after_loop.
    change (array_of (with_locks (insert u false) s) q) with (array_of s q).
    rewrite Ha.
    assert (Hnl : locked (with_locks (insert u false) s) u = false).
    { unfold locked. simpl. rewrite lookup_insert_eq. reflexivity. }
    rewrite Hnl.
    split; [split|]; simpl.
    + intros u' q' Hu. apply lookup_delete_Some in Hu as [_ Hu]. eauto.
    + exact H2.
    + intros u1 u2 q' Hu1 Hu2. apply lookup_delete_Some in Hu1 as [_ Hu1].
      apply lookup_delete_Some in Hu2 as [_ Hu2]. eauto.
    + intros k c u' q' u2 Hk Hd Hu. apply lookup_delete_Some in Hu as [_ Hu]. eauto.
    + exact H5.
    + intros k c u' q' Hk Hc.
      assert (u' <> u) by (intros ->; eapply Hi; eauto).
      rewrite lookup_delete_ne, lookup_insert_ne by congruence. eauto.
    + intros u' q' Hu Hq. apply lookup_delete_Some in Hu as [Hne Hu].
      destruct (Hbusy u' q' Hu Hq) as [[-> _]|Hbz]; [congruence|exact Hbz].
  - split; [split|]; simpl; try assumption.
    + intros k c u' q'. rewrite lookup_insert. case_decide; [|eauto].
      intros [= <-]. simpl. intros [= <- <-]. exact Hfr.
    + intros k c u' q' u2. rewrite lookup_insert. case_decide; [|eauto].
      intros [= <-]. simpl. intros [= <- <-]. apply Ho.
    + intros k1 k2 c1 c2 u' q1 q2. rewrite !lookup_insert.
      repeat case_decide; subst; try congruence.
      * intros [= <-]. discriminate.
      * intros _ [= <-] _. discriminate.
      * eauto.
    + intros k c u' q'. rewrite lookup_insert. case_decide.
      * intros [= <-]. discriminate.
      * intros Hk Hc. assert (u' <> u) by (intros ->; eapply Hi; eauto).
        rewrite lookup_insert_ne by congruence. eauto.
    + intros u2 q2 Hu Hq.
      change (array_of s q2 = []) in Hq.
      destruct (Hbusy u2 q2 Hu Hq) as [[-> ->]|Hbz]; [congruence|].
      apply (busy_suspend _ (with_locks (insert u false) s)); [exact Hf|exact Hbz].
Qed.

Lemma send_next_inv t u q task chunks s :
  fresh s -> mid u q s -> inv (send_next t u q task chunks s).
Proof.
  intros Hf Hm. destruct chunks as [|chunk rest]; simpl.
  - apply finish_task_inv; assumption.
  - apply (mid_suspend_processing u q); [exact Hf|reflexivity|].
    eapply mid_ext; [|exact Hm]. same.
Qed.

Lemma record_sent_mid t id u q s : fresh s -> mid u q s -> mid u q (record_sent t id s).
Proof.
  intros Hf Hm. destruct id as [id|]; simpl; [|exact Hm].
  case_bool_decide; [exact Hm|].
  apply mid_suspend_idle; [exact Hf|reflexivity|].
  eapply mid_ext; [|exact Hm]. same.
Qed.


(** *** The timer's callback *)

(** The task is pushed on the client's array, made first when there is
    none. *)
Lemma push_inv u task s :
  inv s ->
  let s1 := match userQueues s !! u with
            | None => new_queue u s
            | Some _ => s
            end in
  exists q, userQueues s1 !! u = Some q
    /\ inv (with_arrays (insert q (array_of s1 q ++ [task])) s1).
Proof.
  intros [Hb Hbusy]. pose proof Hb as [H1 H2 H3 H4 H5 H6].
  destruct (userQueues s !! u) as [q|] eqn:Hu; simpl.
  - exists q. split; [exact Hu|]. split; [apply (base_same s); auto|].
    intros u2 q2 Hu2. unfold array_of at 1. simpl. rewrite lookup_insert. case_decide.
    + simpl. intros Ha. apply app_eq_nil in Ha as [_ Ha]. discriminate.
    + intros Ha. eapply busy_ext; [|apply Hbusy; eauto]. reflexivity.
  - exists (next_array s). split; [apply lookup_insert_eq|].
    split; [split|]; simpl.
    + intros u' q'. rewrite lookup_insert. case_decide.
      * intros [= <-]. lia.
      * intros Hu'. specialize (H1 u' q' Hu'). lia.
    + intros k c u' q' Hk Hd. specialize (H2 k c u' q' Hk Hd). lia.
    + intros u1 u2 q'. rewrite !lookup_insert. repeat case_decide; subst; try congruence.
      * intros [= <-] Hu2. specialize (H1 u2 _ Hu2). lia.
      * intros Hu1 [= <-]. specialize (H1 u1 _ Hu1). lia.
      * eauto.
    + intros k c u' q' u2 Hk Hd. rewrite lookup_insert. case_decide; [|eauto].
      intros [= <-]. specialize (H2 k c u' _ Hk Hd). lia.
    + exact H5.
    + exact H6.
    + intros u2 q2. rewrite lookup_insert. unfold array_of at 1. simpl.
      case_decide.
      * intros [= <-]. rewrite lookup_insert_eq. simpl.
        intros Ha. apply app_eq_nil in Ha as [_ Ha]. discriminate.
      * intros Hu2. rewrite !lookup_insert_ne by (specialize (H1 u2 q2 Hu2); lia).
        intros Ha. eapply busy_ext; [|apply Hbusy; eauto]. reflexivity.
Qed.

Lemma flush_body_inv u s : fresh s -> inv s -> inv (flush_body u s).
Proof.
  intros Hf Hi. unfold flush_body.
  destruct (userMessageBuffers s !! u) as [b|]; [|exact Hi].
  destruct (messages b) as [|m ms]; [exact Hi|].
  set (task := with_body _ _).
  destruct (push_inv u task s Hi) as (q & Hq & Hi2).
  set (s1 := match userQueues s !! u with None => new_queue u s | Some _ => s end) in *.
  rewrite Hq.
  set (s2 := emit (Enqueued u task) (with_arrays (insert q (array_of s1 q ++ [task])) s1)).
  assert (Hi3 : inv s2) by (eapply inv_ext; [|exact Hi2]; same).
  assert (Hf3 : fresh s2).
  { intros k c Hk. subst s2 s1. simpl in Hk.
    destruct (userQueues s !! u); apply (Hf k c Hk). }
  change (inv (if locked s2 u then s2 else handleQueue u s2)).
  destruct (locked s2 u); [exact Hi3|].
  apply handleQueue_inv; [exact Hf3|exact Hi3|]. exists q. exact Hq.
Qed.

Lemma flush_inv k d u s :
  timers_ok s -> inv s -> pending s !! k = Some (InactivityTimer d u) ->
  inv (flush u (resume k s)).
Proof.
  intros Hok Hi Hk. rewrite flush_unfold.
  eapply inv_ext; [|apply flush_body_inv].
  - same.
  - apply timers_ok_fresh, timers_ok_resume, Hok.
  - eapply inv_resume_idle; [exact Hk|reflexivity|exact Hi].
Qed.

(** *** [mainFlow] and the listener *)

Lemma mainFlow_inv t c s : timers_ok s -> inv s -> inv (mainFlow t c s).
Proof.
  intros Hok Hi. unfold mainFlow. destruct (fromMe c); [exact Hi|].
  set (b := {| messages := _; lastCtx := c |}).
  set (s1 := with_buffers (insert (from c) b) s).
  set (s2 := match userActivityTimers s1 !! from c with
             | Some timerId => resume timerId s1
             | None => s1
             end).
  assert (Hi1 : inv s1) by (eapply inv_ext; [|exact Hi]; same).
  assert (Hok1 : timers_ok s1) by (apply (timers_ok_ext s s1); auto).
  assert (Hi2 : inv s2).
  { subst s2. destruct (userActivityTimers s1 !! from c) as [timerId|] eqn:Ht; [|exact Hi1].
    destruct (pending s1 !! timerId) as [c'|] eqn:Hp.
    - destruct (registered_timer s1 Hok1 _ _ _ Ht Hp) as [d ->].
      eapply inv_resume_idle; [exact Hp|reflexivity|exact Hi1].
    - apply inv_resume_absent; assumption. }
  assert (Hf2 : fresh s2).
  { subst s2. destruct (userActivityTimers s1 !! from c).
    - apply timers_ok_fresh, timers_ok_resume, Hok1.
    - apply timers_ok_fresh, Hok1. }
  eapply inv_ext; [|apply (inv_suspend_idle
    (InactivityTimer (t + USER_INACTIVITY_TIMEOUT_MS) (from c)) s2 Hf2 eq_refl Hi2)].
  same.
Qed.

Lemma upsert_loop_inv msgs : forall s, fresh s -> inv s -> inv (upsert_loop msgs s).
Proof.
  induction msgs as [|msg rest IH]; intros s Hf Hi; simpl; [exact Hi|].
  destruct (_ || _); [apply IH; assumption|].
  destruct (extractTextFromMessage msg); [|apply IH; assumption].
  destruct (key_fromMe msg); [|apply IH; assumption].
  case_bool_decide; [apply IH; assumption|].
  assert (Hemit : forall o, inv (emit o s)) by (intros o; eapply inv_ext; [|exact Hi]; same).
  destruct (clientThreadIds s !! remoteJid msg).
  - unfold syncManualMessageToOpenAI. destruct (thread_of s (remoteJid msg)).
    + apply inv_suspend_idle; [exact Hf|reflexivity|apply Hemit].
    + apply IH; [exact Hf|apply Hemit].
  - apply IH; [exact Hf|apply Hemit].
Qed.

(** *** Every callback keeps the invariant *)

Lemma step_inv t e s : timers_ok s -> inv s -> inv (step t e s).
Proof.
  intros Hok Hi. pose proof (timers_ok_fresh s Hok) as Hf.
  assert (Hr : forall k, fresh (resume k s)).
  { intros k. apply timers_ok_fresh, timers_ok_resume, Hok. }
  destruct e as [c|msgs|k r]; simpl.
  - apply mainFlow_inv; assumption.
  - apply upsert_loop_inv; assumption.
  - destruct (pending s !! k) as [c|] eqn:Hk; [|exact Hi].
    destruct c, r; try exact Hi.
    + destruct (deadline <=? t)%Z; [|exact Hi]. eapply flush_inv; eauto.
    + pose proof (inv_resume_processing k _ userId queue s Hk eq_refl Hi) as Hm.
      pose proof (quiet_suspend (ThreadTimer (t + THREAD_SAVE_DELAY_MS) (from task))
                    (resume k s) (Hr k) eq_refl) as Q.
      apply send_next_inv.
      * eapply quiet_fresh; [apply Hr|exact Q].
      * apply mid_suspend_idle; [apply Hr|reflexivity|exact Hm].
    + apply finish_task_inv; [apply Hr|].
      exact (inv_resume_processing k _ userId queue s Hk eq_refl Hi).
    + pose proof (inv_resume_processing k _ userId queue s Hk eq_refl Hi) as Hm.
      apply (mid_suspend_processing userId queue); [|reflexivity|].
      * eapply quiet_fresh; [apply Hr|apply record_sent_quiet, Hr].
      * apply record_sent_mid; [apply Hr|exact Hm].
    + apply finish_task_inv; [apply Hr|].
      exact (inv_resume_processing k _ userId queue s Hk eq_refl Hi).
    + destruct (deadline <=? t)%Z; [|exact Hi].
      apply send_next_inv; [apply Hr|].
      exact (inv_resume_processing k _ userId queue s Hk eq_refl Hi).
    + destruct (deadline <=? t)%Z; [|exact Hi].
      pose proof (inv_base s Hi) as Hb.
      apply loop_inv; [apply Hr| | |].
      * eapply inv_resume_idle; [exact Hk|reflexivity|exact Hi].
      * exact (fresh_drain s Hb k _ userId queue Hk eq_refl).
      * intros u2 Hu. exact (drain_owner s Hb k _ userId queue u2 Hk eq_refl Hu).
    + destruct (deadline <=? t)%Z; [|exact Hi].
      assert (Hi' : inv (resume k s))
        by (eapply inv_resume_idle; [exact Hk|reflexivity|exact Hi]).
      destruct threadId as [th|]; [|exact Hi'].
      case_bool_decide; [exact Hi'|]. eapply inv_ext; [|exact Hi']. same.
    + destruct (deadline <=? t)%Z; [|exact Hi].
      eapply inv_resume_idle; [exact Hk|reflexivity|exact Hi].
    + destruct (deadline <=? t)%Z; [|exact Hi].
      eapply inv_ext; [|eapply inv_resume_idle; [exact Hk|reflexivity|exact Hi]]. same.
    + apply upsert_loop_inv; [apply Hr|].
      eapply inv_resume_idle; [exact Hk|reflexivity|exact Hi].
    + apply upsert_loop_inv; [apply Hr|].
      eapply inv_resume_idle; [exact Hk|reflexivity|exact Hi].
Qed.

Lemma run_inv es : forall s, timers_ok s -> inv s -> inv (run es s).
Proof.
  induction es as [|[t e] es IH]; intros s Hok Hi; simpl; [exact Hi|].
  apply IH; [apply step_timers_ok, Hok|apply step_inv; assumption].
Qed.

End AppQueue.

(** ** [src/src/app.ts]: a burst of messages is one task *)

Module AppBurst.
Import Js App AppTimers.

Local Open Scope Z_scope.

(** A message of client [u] that [mainFlow] buffers. *)
Definition of_client (u : string) (e : event) : bool :=
  match e with
  | Message c => bool_decide (from c = u) && negb (fromMe c)
  | _ => false
  end.

(** [burst u es cs last]: in the schedule [es] the client [u] sends the
    messages [cs], the last one at time [last], each one before the timer
    that the one before it started is due; whatever else happens in between
    happens before that timer is due. *)
Inductive burst (u : string) : list (Z * event) -> list ctx -> Z -> Prop :=
  | burst_first t c :
      from c = u -> fromMe c = false ->
      burst u [(t, Message c)] [c] t
  | burst_message es cs t0 t c :
      burst u es cs t0 ->
      from c = u -> fromMe c = false ->
      t0 <= t < t0 + USER_INACTIVITY_TIMEOUT_MS ->
      burst u (es ++ [(t, Message c)]) (cs ++ [c]) t
  | burst_other es cs t0 t e :
      burst u es cs t0 ->
      of_client u e = false ->
      t < t0 + USER_INACTIVITY_TIMEOUT_MS ->
      burst u (es ++ [(t, e)]) cs t0.

(** The client's burst is in its buffer and its timer is pending. *)
Record collecting (u : string) (s0 s : store) (cs : list ctx) (last_time : Z) : Prop := {
  col_ok : timers_ok s;
  col_buffer : exists b,
    userMessageBuffers s !! u = Some b
    /\ messages b = map body cs /\ Some (lastCtx b) = last cs;
  col_timer : exists k,
    userActivityTimers s !! u = Some k
    /\ pending s !! k = Some (InactivityTimer (last_time + USER_INACTIVITY_TIMEOUT_MS) u);
  col_enqueued : enqueued_for u (outputs s) = enqueued_for u (outputs s0)
}.

Lemma run_app es1 es2 s : run (es1 ++ es2) s = run es2 (run es1 s).
Proof. revert s. induction es1 as [|[t e] es1 IH]; intros s; simpl; auto. Qed.

(** A message of the client: appended, the timer started again. *)
Lemma mainFlow_buffer t c s :
  fromMe c = false ->
  let s' := mainFlow t c s in
  userMessageBuffers s' !! from c
  = Some {| messages := match userMessageBuffers s !! from c with
                        | Some b => messages b
                        | None => []
                        end ++ [body c];
            lastCtx := c |}
  /\ (exists k, userActivityTimers s' !! from c = Some k
      /\ pending s' !! k = Some (InactivityTimer (t + USER_INACTIVITY_TIMEOUT_MS) (from c)))
  /\ outputs s' = outputs s.
Proof.
  intros Hme. unfold mainFlow. rewrite Hme. simpl.
  split; [|split].
  - destruct (userActivityTimers s !! from c); simpl; rewrite lookup_insert_eq;
      destruct (userMessageBuffers s !! from c); reflexivity.
  - destruct (userActivityTimers s !! from c); simpl;
      eexists; (split; [apply lookup_insert_eq|apply lookup_insert_eq]).
  - destruct (userActivityTimers s !! from c); reflexivity.
Qed.


(** [calm u k s s']: nothing happened to the buffer, the registered timer
    [k] and the enqueued tasks of [u]. *)
Record calm (u : string) (k : nat) (s s' : store) : Prop := {
  calm_timer : userActivityTimers s' !! u = userActivityTimers s !! u;
  calm_buffer : userMessageBuffers s' !! u = userMessageBuffers s !! u;
  calm_pending : pending s' !! k = pending s !! k;
  calm_enqueued : enqueued_for u (outputs s') = enqueued_for u (outputs s)
}.

Lemma calm_refl u k s : calm u k s s.
Proof. split; reflexivity. Qed.

Lemma calm_trans u k s1 s2 s3 : calm u k s1 s2 -> calm u k s2 s3 -> calm u k s1 s3.
Proof. intros [A1 A2 A3 A4] [B1 B2 B3 B4]. split; congruence. Qed.

Lemma quiet_calm u k c s s' : pending s !! k = Some c -> quiet s s' -> calm u k s s'.
Proof.
  intros Hk [Q1 Qb Qe Q2 Q3 Q4]. split.
  - rewrite Q1. reflexivity.
  - rewrite Qb. reflexivity.
  - rewrite Hk. apply Q3. exact Hk.
  - apply Qe.
Qed.

Lemma resume_calm u k k' s : k' <> k -> calm u k s (resume k' s).
Proof. intros Hne. split; simpl; try reflexivity. apply lookup_delete_ne. exact Hne. Qed.

Lemma flush_calm u k c u' s :
  u' <> u -> fresh s -> pending s !! k = Some c -> calm u k s (flush u' s).
Proof.
  intros Hne Hf Hk. rewrite flush_unfold.
  destruct (flush_body_flushed u' s Hf) as [F1 Fb Fe F2 F3 F4].
  split; simpl.
  - rewrite lookup_delete_ne by exact Hne. rewrite F1. reflexivity.
  - rewrite lookup_delete_ne by exact Hne. rewrite Fb. reflexivity.
  - rewrite Hk. apply F3. exact Hk.
  - apply Fe. congruence.
Qed.

(** Before its timer is due, nothing but the client's own messages touches
    the client's buffer. *)
Lemma step_calm t e s u k d :
  timers_ok s ->
  userActivityTimers s !! u = Some k ->
  pending s !! k = Some (InactivityTimer d u) ->
  t < d -> of_client u e = false ->
  calm u k s (step t e s).
Proof.
  intros Hok Hreg Hk Ht He. pose proof (timers_ok_fresh s Hok) as Hf.
  assert (Hr : forall k', fresh (resume k' s)).
  { intros k'. apply timers_ok_fresh, timers_ok_resume, Hok. }
  destruct e as [c|msgs|k' r]; simpl.
  - simpl in He. unfold mainFlow. destruct (fromMe c); [apply calm_refl|].
    rewrite andb_true_r in He. apply bool_decide_eq_false in He.
    assert (Hkn : k <> next_id s) by (specialize (Hf k _ Hk); lia).
    destruct (userActivityTimers s !! from c) as [timerId|] eqn:Etimer; simpl;
      rewrite Etimer; simpl.
    + assert (timerId <> k).
      { intros ->. destruct (registered_timer s Hok _ _ _ Etimer Hk) as [d' [= _ Hu]].
        congruence. }
      split; simpl.
      * apply lookup_insert_ne. exact He.
      * apply lookup_insert_ne. exact He.
      * rewrite lookup_insert_ne by congruence. apply lookup_delete_ne. congruence.
      * reflexivity.
    + split; simpl.
      * apply lookup_insert_ne. exact He.
      * apply lookup_insert_ne. exact He.
      * apply lookup_insert_ne. congruence.
      * reflexivity.
  - eapply quiet_calm; [exact Hk|]. apply upsert_loop_quiet, Hf.
  - destruct (decide (k' = k)) as [->|Hne].
    + rewrite Hk. destruct r; try apply calm_refl.
      destruct (d <=? t) eqn:Hd; [|apply calm_refl]. apply Z.leb_le in Hd. lia.
    + assert (Hk' : pending (resume k' s) !! k = Some (InactivityTimer d u)).
      { simpl. rewrite lookup_delete_ne by exact Hne. exact Hk. }
      assert (Hq : forall s', quiet (resume k' s) s' -> calm u k s s').
      { intros s' Q. eapply calm_trans; [apply resume_calm; exact Hne|].
        eapply quiet_calm; [exact Hk'|exact Q]. }
      destruct (pending s !! k') as [c|] eqn:Ec; [|apply calm_refl].
      destruct c, r; try apply calm_refl.
      * destruct (deadline <=? t); [|apply calm_refl].
        eapply calm_trans; [apply resume_calm; exact Hne|].
        eapply flush_calm; [|apply Hr|exact Hk'].
        intros ->. pose proof (timer_registered s Hok _ _ _ Ec) as Hreg'.
        congruence.
      * apply Hq.
        pose proof (quiet_suspend (ThreadTimer (t + THREAD_SAVE_DELAY_MS) (from task))
                      (resume k' s) (Hr k') eq_refl) as Q.
        eapply quiet_trans; [exact Q|].
        apply send_next_quiet. eapply quiet_fresh; [apply Hr|exact Q].
      * apply Hq, finish_task_quiet, Hr.
      * apply Hq.
        pose proof (record_sent_quiet t id (resume k' s) (Hr k')) as Q.
        eapply quiet_trans; [exact Q|].
        apply quiet_suspend; [|reflexivity].
        eapply quiet_fresh; [apply Hr|exact Q].
      * apply Hq, finish_task_quiet, Hr.
      * destruct (deadline <=? t); [|apply calm_refl]. apply Hq, send_next_quiet, Hr.
      * destruct (deadline <=? t); [|apply calm_refl]. apply Hq, loop_quiet, Hr.
      * destruct (deadline <=? t); [|apply calm_refl].
        destruct threadId as [th|]; [|apply Hq, quiet_refl].
        case_bool_decide; [apply Hq, quiet_refl|]. apply Hq. quiet_same.
      * destruct (deadline <=? t); [|apply calm_refl]. apply Hq, quiet_refl.
      * destruct (deadline <=? t); [|apply calm_refl]. apply Hq. quiet_same.
      * apply Hq, upsert_loop_quiet, Hr.
      * apply Hq, upsert_loop_quiet, Hr.
Qed.

Lemma burst_collecting u es cs last_time s0 :
  timers_ok s0 -> userMessageBuffers s0 !! u = None ->
  burst u es cs last_time -> collecting u s0 (run es s0) cs last_time.
Proof.
  intros Hok Hnone Hb. induction Hb as [t c Hu Hme|es cs t0 t c Hb IH Hu Hme Ht|es cs t0 t e Hb IH He Ht].
  - simpl. destruct (mainFlow_buffer t c s0 Hme) as (Hbuf & Htimer & Hout).
    subst u. rewrite Hnone in Hbuf. split.
    + apply mainFlow_timers_ok, Hok.
    + eexists. split; [exact Hbuf|]. split; reflexivity.
    + exact Htimer.
    + rewrite Hout. reflexivity.
  - rewrite run_app. simpl. destruct IH as [Hok' (b & Hbuf & Hmsgs & Hlast) _ Henq].
    destruct (mainFlow_buffer t c (run es s0) Hme) as (Hbuf' & Htimer & Hout).
    subst u. rewrite Hbuf in Hbuf'. split.
    + apply mainFlow_timers_ok, Hok'.
    + eexists. split; [exact Hbuf'|]. simpl. split.
      * rewrite Hmsgs, map_app. reflexivity.
      * rewrite last_snoc. reflexivity.
    + exact Htimer.
    + rewrite Hout. exact Henq.
  - rewrite run_app. simpl. destruct IH as [Hok' Hbuf (k & Hreg & Hk) Henq].
    destruct (step_calm t e (run es s0) u k _ Hok' Hreg Hk Ht He) as [C1 C2 C3 C4].
    split.
    + apply step_timers_ok, Hok'.
    + rewrite C2. exact Hbuf.
    + exists k. rewrite C1, C3. auto.
    + rewrite C4. exact Henq.
Qed.

Lemma burst_nonempty u es cs last_time : burst u es cs last_time -> cs <> [].
Proof.
  induction 1; [discriminate| |assumption].
  intros H'. apply app_eq_nil in H' as [_ H']. discriminate.
Qed.

(** The timer fires: one task, the buffer gone. *)
Lemma flush_enqueues u b s :
  fresh s -> userMessageBuffers s !! u = Some b -> messages b <> [] ->
  enqueued_for u (outputs (flush u s))
  = with_body (lastCtx b) (join [LF; LF] (messages b)) :: enqueued_for u (outputs s).
Proof.
  intros Hf Hb Hne. rewrite flush_unfold. simpl. unfold flush_body. rewrite Hb.
  destruct (messages b) as [|m ms] eqn:Hm; [congruence|].
  set (task := with_body _ _).
  set (s1 := match userQueues s !! u with None => new_queue u s | Some _ => s end).
  assert (Hq : exists q, userQueues s1 !! u = Some q).
  { subst s1. destruct (userQueues s !! u) as [q|] eqn:E; [eauto|].
    simpl. rewrite lookup_insert_eq. eauto. }
  destruct Hq as [q Hq]. rewrite Hq.
  set (s2 := emit (Enqueued u task) (with_arrays (insert q (array_of s1 q ++ [task])) s1)).
  assert (H2 : enqueued_for u (outputs s2) = task :: enqueued_for u (outputs s)).
  { subst s2 s1. simpl. rewrite bool_decide_eq_true_2 by reflexivity.
    destruct (userQueues s !! u); reflexivity. }
  assert (Hf2 : fresh s2).
  { intros k c Hk. subst s2 s1. simpl in Hk. destruct (userQueues s !! u); apply (Hf k c Hk). }
  change (enqueued_for u (outputs (if locked s2 u then s2 else handleQueue u s2))
          = task :: enqueued_for u (outputs s)).
  destruct (locked s2 u); [exact H2|].
  rewrite (quiet_enqueued _ _ (handleQueue_quiet u s2 Hf2)). exact H2.
Qed.


(** The spec's scenario: [Hola], and [Quiero info] two seconds later. *)
Definition hola : ctx := {| from := "C1"; body := u16 "Hola"; fromMe := false |}.
Definition quiero_info : ctx := {| from := "C1"; body := u16 "Quiero info"; fromMe := false |}.

(** A burst is flushed once.  From any reachable store in which the client
    has no buffer, a burst leaves exactly one inactivity timer pending for
    the client, due [USER_INACTIVITY_TIMEOUT_MS] after the last message, and
    enqueues nothing; when that timer fires, exactly one task is enqueued
    for the client, its body the bodies of the burst joined by two line
    feeds, and the buffer and every timer of the client are gone. *)
Theorem burst_flushed_once (es0 : list (Z * event)) (u : string)
    (es : list (Z * event)) (cs : list ctx) (last_time : Z) :
  let s0 := run es0 empty_store in
  userMessageBuffers s0 !! u = None ->
  burst u es cs last_time ->
  let s := run es s0 in
  exists k task,
    (exists c, last cs = Some c /\ task = with_body c (join [LF; LF] (map body cs)))
    /\ pending s !! k = Some (InactivityTimer (last_time + USER_INACTIVITY_TIMEOUT_MS) u)
    /\ (forall k' d, pending s !! k' = Some (InactivityTimer d u) -> k' = k)
    /\ enqueued_for u (outputs s) = enqueued_for u (outputs s0)
    /\ forall t, last_time + USER_INACTIVITY_TIMEOUT_MS <= t ->
         let s' := step t (Resume k TimerDue) s in
         enqueued_for u (outputs s') = task :: enqueued_for u (outputs s0)
         /\ userMessageBuffers s' !! u = None
         /\ forall k' d, pending s' !! k' <> Some (InactivityTimer d u).
Proof.
  intros s0 Hnone Hb s.
  assert (Hok0 : timers_ok s0) by (apply run_timers_ok, timers_ok_empty).
  destruct (burst_collecting u es cs last_time s0 Hok0 Hnone Hb)
    as [Hok (b & Hbuf & Hmsgs & Hlast) (k & Hreg & Hk) Henq].
  fold s in Hok, Hbuf, Hreg, Hk, Henq.
  exists k, (with_body (lastCtx b) (join [LF; LF] (map body cs))).
  split; [exists (lastCtx b); auto|]. split; [exact Hk|]. split; [|split; [exact Henq|]].
  - intros k' d Hk'. pose proof (timer_registered s Hok k' d u Hk') as Hreg'. congruence.
  - intros t Ht. simpl. rewrite Hk.
    apply Z.leb_le in Ht. rewrite Ht.
    assert (Hf : fresh (resume k s)) by apply timers_ok_fresh, timers_ok_resume, Hok.
    assert (Hne : messages b <> []).
    { rewrite Hmsgs. pose proof (burst_nonempty u es cs last_time Hb).
      destruct cs; [congruence|discriminate]. }
    split; [|split].
    + rewrite (flush_enqueues u b (resume k s) Hf Hbuf Hne). simpl.
      rewrite Hmsgs, Henq. reflexivity.
    + rewrite flush_unfold. simpl. apply lookup_delete_eq.
    + intros k' d Hk'.
      pose proof (flush_timers_ok k _ u s Hok Hk) as Hok'.
      pose proof (timer_registered _ Hok' k' d u Hk') as Hreg'.
      rewrite flush_unfold in Hreg'. simpl in Hreg'.
      rewrite lookup_delete_eq in Hreg'. discriminate.
Qed.

Lemma burst_hola_quiero_info :
  burst "C1" [(0, Message hola); (2000, Message quiero_info)] [hola; quiero_info] 2000.
Proof.
  apply (burst_message "C1" [(0, Message hola)] [hola] 0 2000 quiero_info);
    [apply burst_first; reflexivity|reflexivity|reflexivity|].
  unfold USER_INACTIVITY_TIMEOUT_MS. lia.
Qed.

Lemma burst_flushed_once_witness :
  exists k task,
    (exists c, last [hola; quiero_info] = Some c
       /\ task = with_body c (join [LF; LF] (map body [hola; quiero_info])))
    /\ pending (run [(0, Message hola); (2000, Message quiero_info)] (run [] empty_store)) !! k
       = Some (InactivityTimer (2000 + USER_INACTIVITY_TIMEOUT_MS) "C1")
    /\ (forall k' d,
          pending (run [(0, Message hola); (2000, Message quiero_info)] (run [] empty_store)) !! k'
          = Some (InactivityTimer d "C1") -> k' = k)
    /\ enqueued_for "C1"
         (outputs (run [(0, Message hola); (2000, Message quiero_info)] (run [] empty_store)))
       = enqueued_for "C1" (outputs (run [] empty_store))
    /\ forall t, 2000 + USER_INACTIVITY_TIMEOUT_MS <= t ->
         let s' := step t (Resume k TimerDue)
                     (run [(0, Message hola); (2000, Message quiero_info)] (run [] empty_store)) in
         enqueued_for "C1" (outputs s') = task :: enqueued_for "C1" (outputs (run [] empty_store))
         /\ userMessageBuffers s' !! "C1" = None
         /\ forall k' d, pending s' !! k' <> Some (InactivityTimer d "C1").
Proof.
  exact (burst_flushed_once [] "C1" [(0, Message hola); (2000, Message quiero_info)]
           [hola; quiero_info] 2000 eq_refl burst_hola_quiero_info).
Defined.

(** In the spec's scenario the task is [Hola], two line feeds, [Quiero info]. *)
Example hola_quiero_info_task :
  enqueued_for "C1"
    (outputs (run [(0, Message hola); (2000, Message quiero_info); (8000, Resume 1 TimerDue)]
                empty_store))
  = [{| from := "C1"; body := u16 "Hola" ++ [LF; LF] ++ u16 "Quiero info"; fromMe := false |}].
Proof. vm_compute. reflexivity. Qed.

End AppBurst.

(** ** Manual messages and the echoes of the bot *)

Module AppManual.
Import Js App AppTimers AppQueue.

Local Open Scope Z_scope.

(** An outgoing message with a text, sent to a conversation. *)
Definition outgoing (msg : wa_message) (messageBody : str) : Prop :=
  message msg <> None /\ remoteJid msg <> status_broadcast
  /\ extractTextFromMessage msg = Some messageBody /\ key_fromMe msg = true.

Lemma upsert_outgoing msg messageBody rest s :
  outgoing msg messageBody ->
  upsert_loop (msg :: rest) s
  = if bool_decide (key_id msg ∈ botSentMessages s) then upsert_loop rest s
    else match clientThreadIds s !! remoteJid msg with
         | Some _ =>
             let '(s, awaited) := syncManualMessageToOpenAI (remoteJid msg) messageBody s in
             if awaited then suspend (AwaitAppend rest) s else upsert_loop rest s
         | None => upsert_loop rest (emit (Warn (NoThreadForManual (remoteJid msg))) s)
         end.
Proof.
  intros (Hm & Hj & Ht & Hme). simpl.
  rewrite bool_decide_eq_false_2 by exact Hm.
  rewrite bool_decide_eq_false_2 by exact Hj. simpl.
  rewrite Ht, Hme. reflexivity.
Qed.

(** The echo of a message the bot sent is passed over, whatever it is. *)
Lemma upsert_echo msg rest s :
  key_id msg ∈ botSentMessages s -> upsert_loop (msg :: rest) s = upsert_loop rest s.
Proof.
  intros Hin. simpl. destruct (_ || _); [reflexivity|].
  destruct (extractTextFromMessage msg); [|reflexivity].
  destruct (key_fromMe msg); [|reflexivity].
  rewrite bool_decide_eq_true_2 by exact Hin. reflexivity.
Qed.

(** The listener never reads [userLocks]: it commutes with any change of
    the locks. *)
Lemma upsert_loop_locks f msgs : forall s,
  upsert_loop msgs (with_locks f s) = with_locks f (upsert_loop msgs s).
Proof.
  induction msgs as [|msg rest IH]; intros s; simpl; [reflexivity|].
  destruct (_ || _); [apply IH|].
  destruct (extractTextFromMessage msg); [|apply IH].
  destruct (key_fromMe msg); [|apply IH].
  case_bool_decide; [apply IH|].
  destruct (clientThreadIds s !! remoteJid msg).
  - unfold syncManualMessageToOpenAI, thread_of. simpl.
    destruct (clientThreadIds s !! remoteJid msg) as [th|].
    + case_bool_decide; [|reflexivity]. apply (IH (emit _ s)).
    + apply (IH (emit _ s)).
  - apply (IH (emit _ s)).
Qed.

Lemma upsert_loop_keeps_locks msgs : forall s, userLocks (upsert_loop msgs s) = userLocks s.
Proof.
  induction msgs as [|msg rest IH]; intros s; simpl; [reflexivity|].
  destruct (_ || _); [apply IH|].
  destruct (extractTextFromMessage msg); [|apply IH].
  destruct (key_fromMe msg); [|apply IH].
  case_bool_decide; [apply IH|].
  destruct (clientThreadIds s !! remoteJid msg).
  - unfold syncManualMessageToOpenAI.
    destruct (thread_of s (remoteJid msg)); [reflexivity|]. rewrite IH. reflexivity.
  - rewrite IH. reflexivity.
Qed.

Ltac split_cases :=
  repeat (simpl; match goal with
                 | |- context [match ?x with _ => _ end] => destruct x
                 end).

(** An id stays in [botSentMessages] until its timer fires. *)
Lemma sent_until_evicted t e s id :
  id ∈ botSentMessages s ->
  id ∈ botSentMessages (step t e s)
  \/ exists k d, e = Resume k TimerDue /\ pending s !! k = Some (EvictTimer d id) /\ d <= t.
Proof.
  intros Hin.
  assert (Hq : forall s', botSentMessages s' = botSentMessages s -> id ∈ botSentMessages s')
    by (intros s' ->; exact Hin).
  assert (Hfinish : forall t u q s, botSentMessages (finish_task t u q s) = botSentMessages s).
  { intros t0 u q s0. unfold finish_task, loop, after_loop.
    split_cases; reflexivity. }
  assert (Hsend : forall t u q task chunks s,
             botSentMessages (send_next t u q task chunks s) = botSentMessages s).
  { intros t0 u q task chunks s0. destruct chunks; simpl; [apply Hfinish|reflexivity]. }
  assert (Hupsert : forall msgs s, botSentMessages (upsert_loop msgs s) = botSentMessages s).
  { induction msgs as [|msg rest IH]; intros s0; simpl; [reflexivity|].
    destruct (_ || _); [apply IH|].
    destruct (extractTextFromMessage msg); [|apply IH].
    destruct (key_fromMe msg); [|apply IH].
    case_bool_decide; [apply IH|].
    destruct (clientThreadIds s0 !! remoteJid msg); [|rewrite IH; reflexivity].
    unfold syncManualMessageToOpenAI.
    destruct (thread_of s0 (remoteJid msg)); [reflexivity|]. rewrite IH. reflexivity. }
  destruct e as [c|msgs|k r]; simpl.
  - left. apply Hq. unfold mainFlow. split_cases; reflexivity.
  - left. apply Hq, Hupsert.
  - destruct (pending s !! k) as [c|] eqn:Hk; [|left; exact Hin].
    destruct c, r; try (left; exact Hin).
    + left. destruct (deadline <=? t); [|exact Hin]. apply Hq.
      rewrite flush_unfold. simpl. unfold flush_body, handleQueue, loop, after_loop.
      split_cases; reflexivity.
    + left. apply Hq. rewrite Hsend. reflexivity.
    + left. apply Hq. rewrite Hfinish. reflexivity.
    + left. simpl. unfold record_sent. destruct id0 as [id'|]; [|exact Hin].
      case_bool_decide; [exact Hin|]. simpl. apply elem_of_union. right. exact Hin.
    + left. apply Hq. rewrite Hfinish. reflexivity.
    + left. destruct (deadline <=? t); [|exact Hin]. apply Hq. rewrite Hsend. reflexivity.
    + left. destruct (deadline <=? t); [|exact Hin]. apply Hq.
      unfold loop, after_loop. split_cases; reflexivity.
    + left. destruct (deadline <=? t); [|exact Hin].
      destruct threadId; [|exact Hin]. case_bool_decide; exact Hin.
    + left. destruct (deadline <=? t); exact Hin.
    + destruct (deadline <=? t) eqn:Hd; [|left; exact Hin].
      destruct (decide (id0 = id)) as [->|Hne].
      * right. exists k, deadline. apply Z.leb_le in Hd. auto.
      * left. simpl. apply elem_of_difference. split; [exact Hin|].
        rewrite elem_of_singleton. congruence.
    + left. apply Hq. rewrite Hupsert. reflexivity.
    + left. apply Hq. rewrite Hupsert. reflexivity.
Qed.

End AppManual.

Module SyncFacts.
Import Js Sync.

Local Open Scope Z_scope.

(** An outgoing message with a text, sent to a conversation, in an event
    that is no [append]. *)
Definition outgoing (type : upsert_type) (msg : wa_message) (messageBody : str) : Prop :=
  remoteJid msg <> "status@broadcast" /\ truthy_text (text msg) = Some messageBody
  /\ key_fromMe msg = true /\ type = Notify.

Lemma sync_upsert_outgoing t type msg messageBody rest s :
  outgoing type msg messageBody ->
  upsert_loop t type (msg :: rest) s
  = match getThreadId s (remoteJid msg) with
    | Some _ => upsert_loop t type rest (handleManualMessage t (remoteJid msg) messageBody s)
    | None => upsert_loop t type rest (emit (WarnNoThread (remoteJid msg)) s)
    end.
Proof.
  intros (Hj & Ht & Hme & ->). simpl.
  rewrite bool_decide_eq_false_2 by exact Hj. rewrite Ht, Hme. reflexivity.
Qed.

(** When the manual timer fires and the thread is known, the note goes to
    the backend at once. *)
Lemma manual_flush_appends jid m ms threadId s :
  manualMessageBuffers s !! jid = Some (m :: ms) ->
  getThreadId s jid = Some threadId ->
  manual_flush jid s
  = suspend (AwaitNote jid threadId (join [LF; LF] (m :: ms))) (emit (AppendNote threadId) s).
Proof.
  intros Hb Ht. unfold manual_flush, syncManualMessageToOpenAI. rewrite Hb, Ht. reflexivity.
Qed.

End SyncFacts.

(** ** Retries, and the two handlers *)

Module RetryFacts.
Import Js Humanize.

Definition is_answer (o : outcome) : bool :=
  match o with Answer _ => true | _ => false end.

(** The calls and pauses of [n] attempts in a row, the first numbered [a]:
    a pause after each attempt but the last. *)
Fixpoint schedule (n a : nat) : list effect :=
  match n with
  | O => []
  | S O => [Ask a]
  | S n' => Ask a :: Sleep (backoff a) :: schedule n' (S a)
  end.

(** How the loop ends at attempt [n]: with the answer, or with
    [throw lastError || new Error(..)] for the error of that attempt. *)
Definition ending (o : outcome) : result :=
  match o with
  | Answer response => Returned response
  | failed => Thrown (last_or_default (Some (error_of failed)))
  end.

Lemma backoff_increasing (i j : nat) : i < j -> (backoff i < backoff j)%Z.
Proof.
  intros H. unfold backoff.
  apply Z.mul_lt_mono_pos_r; [lia|].
  apply Z.pow_lt_mono_r; lia.
Qed.

Lemma attempts_schedule (toAsk : nat -> outcome) :
  exists n,
    1 <= n <= MAX_RETRIES
    /\ (forall i, 1 <= i < n -> is_answer (toAsk i) = false)
    /\ (is_answer (toAsk n) = false -> n = MAX_RETRIES)
    /\ attempts MAX_RETRIES 1 toAsk None = (schedule n 1, ending (toAsk n)).
Proof.
  unfold MAX_RETRIES.
  destruct (is_answer (toAsk 1)) eqn:H1.
  { exists 1. split; [lia|]. split; [intros i Hi; lia|]. split; [congruence|].
    simpl. destruct (toAsk 1); try discriminate. reflexivity. }
  destruct (is_answer (toAsk 2)) eqn:H2.
  { exists 2. split; [lia|]. split.
    - intros i Hi. assert (i = 1) as -> by lia. exact H1.
    - split; [congruence|]. simpl.
      destruct (toAsk 1); try discriminate; destruct (toAsk 2); try discriminate; reflexivity. }
  exists 3. split; [lia|]. split.
  - intros i Hi. assert (i = 1 \/ i = 2) as [-> | ->] by lia; assumption.
  - split; [reflexivity|]. simpl.
    destruct (toAsk 1); try discriminate; destruct (toAsk 2); try discriminate;
      destruct (toAsk 3); reflexivity.
Qed.

End RetryFacts.

Module HandlerFacts.
Import Js Handlers.

(** *** [GeminiHandler.processMessage] *)

(** The chat session the call works with: the user's, or a new one. *)
Definition session_for (g : Gemini.sdk) (h : Gemini.handler) (userId : string) : option nat :=
  match Gemini.userChatSessions h !! userId with
  | Some chatSession => Some chatSession
  | None =>
      match Gemini.getGenerativeModel g (Gemini.modelName h) with
      | Ok model =>
          match Gemini.startChat g model (Gemini.systemInstructionParts h) with
          | Ok chatSession => Some chatSession
          | Throws => None
          end
      | Throws => None
      end
  end.

Lemma gemini_resolves g h userId message chatSession :
  session_for g h userId = Some chatSession ->
  exists h', Gemini.processMessage g h userId message
             = (h', Ok (Gemini.answer g chatSession message)).
Proof.
  unfold session_for, Gemini.processMessage.
  destruct (Gemini.userChatSessions h !! userId) as [cs|].
  - intros [= ->]. eauto.
  - destruct (Gemini.getGenerativeModel g (Gemini.modelName h)) as [model|]; [|discriminate].
    destruct (Gemini.startChat g model (Gemini.systemInstructionParts h)) as [cs|]; [|discriminate].
    intros [= ->]. eauto.
Qed.

Lemma gemini_rejects g h userId message :
  session_for g h userId = None ->
  Gemini.processMessage g h userId message = (h, Throws).
Proof.
  unfold session_for, Gemini.processMessage.
  destruct (Gemini.userChatSessions h !! userId) as [cs|]; [discriminate|].
  destruct (Gemini.getGenerativeModel g (Gemini.modelName h)) as [model|]; [|reflexivity].
  destruct (Gemini.startChat g model (Gemini.systemInstructionParts h)) as [cs|];
    [discriminate|reflexivity].
Qed.

(** *** [OpenAiHandler.processMessage] *)

Import OpenAi.

Lemma poll_exits (g : sdk) (d : nat) : forall n st st',
  retrieve g (n + d) = Ok st' -> keeps_polling st' = false ->
  (d = 0 -> st = st') ->
  exists fuel, is_Some (poll fuel g n st).
Proof.
  induction d as [|d IH]; intros n st st' Hr Hst H0.
  - exists 0. simpl. rewrite (H0 eq_refl), Hst. eauto.
  - destruct (keeps_polling st) eqn:Hk.
    + destruct (retrieve g (S n)) as [st1|] eqn:H1.
      * destruct (IH (S n) st1 st') as [fuel Hf].
        -- replace (S n + d) with (n + S d) by lia. exact Hr.
        -- exact Hst.
        -- intros ->. replace (n + 1) with (S n) in Hr by lia. congruence.
        -- exists (S fuel). simpl. rewrite Hk, H1. exact Hf.
      * exists 1. simpl. rewrite Hk, H1. eauto.
    + exists 0. simpl. rewrite Hk. eauto.
Qed.

Lemma poll_forever (g : sdk) :
  (forall n, exists st, retrieve g n = Ok st /\ keeps_polling st = true) ->
  forall fuel n st, keeps_polling st = true -> poll fuel g n st = None.
Proof.
  intros Hall. induction fuel as [|fuel IH]; intros n st Hk; simpl; rewrite Hk.
  - reflexivity.
  - destruct (Hall (S n)) as (st' & -> & Hk'). apply IH. exact Hk'.
Qed.

Lemma wait_exits (g : sdk) (threadId : string) (n : nat) (st : run_status) :
  retrieve g n = Ok st -> keeps_polling st = false ->
  exists fuel, is_Some (wait_for_run fuel g threadId).
Proof.
  intros Hr Hst. unfold wait_for_run.
  destruct (retrieve g 0) as [st0|] eqn:H0; [|exists 0; eauto].
  destruct (poll_exits g n 0 st0 st) as [fuel [r Hf]]; [exact Hr|exact Hst| |].
  - intros ->. congruence.
  - exists fuel. rewrite Hf. destruct r; eauto.
Qed.

Lemma wait_forever (g : sdk) (threadId : string) :
  (forall n, exists st, retrieve g n = Ok st /\ keeps_polling st = true) ->
  forall fuel, wait_for_run fuel g threadId = None.
Proof.
  intros Hall fuel. unfold wait_for_run.
  destruct (Hall 0) as (st & -> & Hk). rewrite (poll_forever g Hall fuel 0 st Hk). reflexivity.
Qed.

(** The calls before the polling loop all return. *)
Definition reaches_loop (g : sdk) (h : handler) (userId : string) (message : str) : Prop :=
  exists threadId,
    (match userThreadMap h !! userId with
     | Some t => if bool_decide (t = "") then threads_create g = Ok threadId else t = threadId
     | None => threads_create g = Ok threadId
     end)
    /\ messages_create g threadId message = Ok tt
    /\ exists runId, runs_create g threadId = Ok runId.

End HandlerFacts.

(** ** More of the sources: texts, short ids, the thread map, the cache *)

Module TextFacts.
Import Js App.

(** The fields [extractTextFromMessage] reads, in the order of its [||]
    chain. *)
Definition text_fields (m : content) : list (option str) :=
  [conversation m; extendedText m; imageCaption m; videoCaption m;
   ephemeralExtendedText m; ephemeralConversation m].

Lemma truthy_or_else (a b : option str) :
  truthy (or_else a b) = match truthy a with Some s => Some s | None => truthy b end.
Proof. destruct a as [[|c r]|]; reflexivity. Qed.

Lemma truthy_idem (a : option str) : truthy (truthy a) = truthy a.
Proof. destruct a as [[|c r]|]; reflexivity. Qed.

Lemma truthy_nonempty (a : option str) : truthy a <> Some [].
Proof. destruct a as [[|c r]|]; simpl; congruence. Qed.

(** [extractTextFromMessage] answers the first of the six text fields that
    is neither missing nor the empty string, and [null] when there is none
    or the message has no [message]; it never answers the empty string. *)
Theorem extractTextFromMessage_first_text (msg : wa_message) :
  extractTextFromMessage msg
  = (message msg ≫= fun m => head (omap truthy (text_fields m)))
  /\ extractTextFromMessage msg <> Some [].
Proof.
  unfold extractTextFromMessage. destruct (message msg) as [m|]; simpl; [|split; congruence].
  split; [|apply truthy_nonempty].
  rewrite !truthy_or_else. unfold text_fields.
  destruct (truthy (conversation m)); simpl; [reflexivity|].
  destruct (truthy (extendedText m)); simpl; [reflexivity|].
  destruct (truthy (imageCaption m)); simpl; [reflexivity|].
  destruct (truthy (videoCaption m)); simpl; [reflexivity|].
  destruct (truthy (ephemeralExtendedText m)); simpl; [reflexivity|].
  destruct (truthy (ephemeralConversation m)); reflexivity.
Qed.

End TextFacts.

Module ShortId.
Import Js Sync.

Local Open Scope string_scope.

Lemma append_empty (s : string) : String.append s "" = s.
Proof.
  induction s as [|c r IH]; [reflexivity|].
  change (String c (String.append r "") = String c r). f_equal. exact IH.
Qed.

Lemma before_at_split (jid : string) :
  exists rest, jid = String.append (before_at jid) rest /\ (rest = "" \/ exists r, rest = String "@" r).
Proof.
  induction jid as [|c r IH]; simpl.
  - exists "". auto.
  - destruct (Ascii.eqb c "@") eqn:E.
    + apply Ascii.eqb_eq in E. subst c. exists (String "@" r). simpl. eauto.
    + destruct IH as (rest & Hr & Hrest). exists rest. split; [|exact Hrest].
      change (String c r = String c (String.append (before_at r) rest)). f_equal. exact Hr.
Qed.

Lemma before_at_no_at (jid : string) :
  ~ In "@"%char (list_ascii_of_string (before_at jid)).
Proof.
  induction jid as [|c r IH]; simpl; [tauto|].
  destruct (Ascii.eqb c "@") eqn:E; simpl; [tauto|].
  apply Ascii.eqb_neq in E. intros [H|H]; [congruence|auto].
Qed.

Lemma before_at_id (s : string) :
  ~ In "@"%char (list_ascii_of_string s) -> before_at s = s.
Proof.
  induction s as [|c r IH]; simpl; [reflexivity|].
  intros H. destruct (Ascii.eqb c "@") eqn:E.
  - apply Ascii.eqb_eq in E. tauto.
  - f_equal. apply IH. tauto.
Qed.

Lemma before_at_idem (jid : string) : before_at (before_at jid) = before_at jid.
Proof. apply before_at_id, before_at_no_at. Qed.

(** [getShortUserId] on a string answers the part before the first [@], or
    the whole string when that part is empty: applying it twice changes
    nothing more, the answer is empty only for the empty string, the string
    is the answer followed by nothing or by a part that starts with [@],
    and the answer has no [@] unless the string starts with one. *)
Theorem getShortUserId_part_before_at (jid : string) :
  getShortUserId (getShortUserId jid) = getShortUserId jid
  /\ (getShortUserId jid = "" <-> jid = "")
  /\ (exists rest, jid = String.append (getShortUserId jid) rest
                   /\ (rest = "" \/ exists r, rest = String "@" r))
  /\ (forall c r, jid = String c r -> c <> "@"%char ->
        ~ In "@"%char (list_ascii_of_string (getShortUserId jid))).
Proof.
  unfold getShortUserId.
  destruct (decide (before_at jid = "")) as [H|H].
  - repeat rewrite (bool_decide_eq_true_2 _ H).
    split; [reflexivity|]. split; [|split].
    + split; [intros ->; reflexivity|intros ->; reflexivity].
    + exists "". split; [|auto]. symmetry. apply append_empty.
    + intros c r -> Hc. simpl in H. destruct (Ascii.eqb c "@") eqn:E; [|discriminate].
      apply Ascii.eqb_eq in E. contradiction.
  - repeat rewrite (bool_decide_eq_false_2 _ H). rewrite before_at_idem.
    repeat rewrite (bool_decide_eq_false_2 _ H).
    split; [reflexivity|]. split; [|split].
    + split; [congruence|]. intros ->. simpl in H. congruence.
    + apply before_at_split.
    + intros c r _ _. apply before_at_no_at.
Qed.

(** [saveThreadId] and [getThreadId] key the map by the short id: once a
    thread id is saved for a jid, every jid with the same part before the
    [@] finds it, and the jids with another short id find what they found
    before.  Nothing is saved under [__proto__], where the plain object has
    a setter that ignores a string: a jid with that short id keeps finding
    the prototype. *)
Theorem thread_saved_by_short_id (jid jid' threadId : string) (s : store) :
  jid <> "" -> jid' <> "" -> threadId <> "" ->
  getThreadId (saveThreadId jid threadId s) jid'
  = if bool_decide (getShortUserId jid = "__proto__") then getThreadId s jid'
    else if bool_decide (getShortUserId jid' = getShortUserId jid)
         then Some (ThreadId threadId)
         else getThreadId s jid'.
Proof.
  intros Hj Hj' Ht. unfold saveThreadId.
  rewrite (bool_decide_eq_false_2 _ Hj), (bool_decide_eq_false_2 _ Ht). cbn [orb].
  case_bool_decide as Hp; [reflexivity|].
  unfold getThreadId. rewrite (bool_decide_eq_false_2 _ Hj'). cbn [clientThreadMap with_threads].
  destruct (decide (getShortUserId jid' = getShortUserId jid)) as [E|E].
  - rewrite (bool_decide_eq_true_2 _ E), E, lookup_insert_eq.
    rewrite (bool_decide_eq_false_2 _ Ht). reflexivity.
  - rewrite (bool_decide_eq_false_2 _ E), lookup_insert_ne by congruence. reflexivity.
Qed.

Lemma thread_saved_by_short_id_witness :
  getThreadId (saveThreadId "573001112233@s.whatsapp.net" "thread_abc" empty_store)
    "573001112233@lid"
  = Some (ThreadId "thread_abc").
Proof.
  exact (thread_saved_by_short_id "573001112233@s.whatsapp.net" "573001112233@lid"
           "thread_abc" empty_store ltac:(discriminate) ltac:(discriminate)
           ltac:(discriminate)).
Defined.

End ShortId.

Module CacheFacts.
Import Js Humanize.

Local Open Scope nat_scope.


Lemma cache_set_new (k v : str) (c : cache) :
  cache_get k c = None -> cache_set k v c = c ++ [(k, v)].
Proof.
  unfold cache_get. induction c as [|[k' v'] r IH]; simpl; [reflexivity|].
  case_bool_decide as E; simpl; [discriminate|].
  intros H. rewrite IH by exact H. reflexivity.
Qed.







(** [responseCache] never holds more than 100 answers, and a call changes
    it only when a backend call answered a message that was not in it, the
    message shorter than 100 code units and the answer shorter than 1000: a
    failure, a long message or a long answer leave it as it was. *)
Theorem cache_bounded (assistantId message : str) (toAsk : nat -> outcome)
    (responseCache : cache) :
  let cacheKey := assistantId ++ u16 "-" ++ message in
  let out := getAssistantResponse assistantId message toAsk responseCache in
  (length responseCache <= 100 -> length out.1.1 <= 100)
  /\ (out.1.1 <> responseCache ->
      cache_get cacheKey responseCache = None
      /\ length message < 100
      /\ exists response, out.2 = Returned response /\ length response < 1000).
Proof.
  intros cacheKey out. subst out. unfold getAssistantResponse. fold cacheKey.
  destruct (cache_get cacheKey responseCache) as [cached|] eqn:Hget.
  { cbn [fst snd]. split; [auto|intros H; exfalso; apply H; reflexivity]. }
  generalize (attempts MAX_RETRIES 1 toAsk None). intros [eff [r|err]]; cbn [fst snd];
    [|split; [auto|intros H; exfalso; apply H; reflexivity]].
  unfold remember.
  destruct (length message <? 100) eqn:Hm; cbn [andb];
    [|split; [auto|intros H; exfalso; apply H; reflexivity]].
  destruct (length r <? 1000) eqn:Hr;
    [|split; [auto|intros H; exfalso; apply H; reflexivity]].
  apply Nat.ltb_lt in Hm, Hr. split.
  - intros Hlen. rewrite (cache_set_new cacheKey r responseCache Hget).
    destruct (100 <? length (responseCache ++ [(cacheKey, r)])) eqn:E.
    + destruct responseCache as [|e rest]; cbn [tl app length] in *; [lia|].
      rewrite length_app. cbn [length]. lia.
    + apply Nat.ltb_ge in E. exact E.
  - intros _. split; [reflexivity|]. split; [exact Hm|]. eauto.
Qed.

End CacheFacts.

(** ** More of the sources: the chunks *)

Module TrimFacts.
Import Js JsFacts.

(** A string that has no white space at either end ([trim] leaves it as it
    is) and is not empty. *)
Definition clean_ends (s : str) : Prop :=
  is_space <$> head s = Some false /\ is_space <$> last s = Some false.

Lemma clean_ends_nonempty (s : str) : clean_ends s -> nonempty s = true.
Proof. intros [H _]. destruct s; [discriminate|reflexivity]. Qed.

Lemma clean_ends_trim (s : str) : clean_ends s -> trim s = s.
Proof. intros [H1 H2]. apply trim_id; assumption. Qed.

Lemma trim_start_suffix (s : str) :
  exists pre, s = pre ++ trim_start s /\ Forall (fun c => is_space c = true) pre.
Proof.
  induction s as [|c r IH]; simpl.
  - exists []. split; [reflexivity|constructor].
  - destruct (is_space c) eqn:E.
    + destruct IH as (pre & Hr & Hpre). exists (c :: pre). split.
      * simpl. congruence.
      * constructor; assumption.
    + exists []. split; [reflexivity|constructor].
Qed.

Lemma trim_start_head (s : str) :
  trim_start s = [] \/ is_space <$> head (trim_start s) = Some false.
Proof.
  induction s as [|c r IH]; simpl; [auto|].
  destruct (is_space c) eqn:E; [exact IH|]. right. simpl. rewrite E. reflexivity.
Qed.

Lemma trim_start_spaces (s : str) :
  Forall (fun c => is_space c = true) s -> trim_start s = [].
Proof. induction 1 as [|c r Hc _ IH]; simpl; [reflexivity|]. rewrite Hc. exact IH. Qed.

Lemma last_rev (s : str) : last (rev s) = head s.
Proof. rewrite <- head_rev, rev_involutive. reflexivity. Qed.

(** [trim] answers the empty string or a string with clean ends. *)
Lemma trim_clean (s : str) : trim s = [] \/ clean_ends (trim s).
Proof.
  unfold trim, trim_end. set (a := trim_start s).
  destruct (trim_start_head (rev a)) as [H|H].
  - left. rewrite H. reflexivity.
  - right. split; [|rewrite last_rev; exact H].
    destruct (trim_start_suffix (rev a)) as (pre & Hsplit & _).
    assert (Ha : a = rev (trim_start (rev a)) ++ rev pre).
    { rewrite <- rev_app_distr, <- Hsplit, rev_involutive. reflexivity. }
    destruct (rev (trim_start (rev a))) as [|c r] eqn:E.
    + apply (f_equal (@rev N)) in E. rewrite rev_involutive in E. simpl in E.
      rewrite E in H. discriminate.
    + simpl. destruct (trim_start_head s) as [H0|H0]; fold a in H0.
      * rewrite H0 in Ha. discriminate.
      * rewrite Ha in H0. simpl in H0. exact H0.
Qed.

Lemma trim_nonempty_clean (s : str) : nonempty (trim s) = true -> clean_ends (trim s).
Proof. destruct (trim_clean s) as [->|H]; [discriminate|auto]. Qed.

Lemma trim_spaces (s : str) : Forall (fun c => is_space c = true) s -> trim s = [].
Proof. intros H. unfold trim. rewrite (trim_start_spaces s H). reflexivity. Qed.

Lemma clean_ends_join (a b : str) :
  clean_ends a -> clean_ends b -> clean_ends (a ++ [SPACE] ++ b).
Proof.
  intros [Ha _] [Hb0 Hb]. split.
  - destruct a; [discriminate|exact Ha].
  - destruct b as [|c r] using rev_ind; [discriminate|].
    rewrite !app_assoc, last_snoc. rewrite last_snoc in Hb. exact Hb.
Qed.

(** The pieces of a split are made of characters of the string. *)
Lemma split_runs_forall (P : N -> Prop) (sep : N -> bool) (s : str) : forall cur run,
  Forall P cur -> Forall P run -> Forall P s ->
  Forall (Forall P) (split_runs sep cur run s).
Proof.
  induction s as [|c r IH]; intros cur run Hcur Hrun Hs; simpl.
  - destruct run as [|x [|y run']].
    + repeat constructor. rewrite app_nil_r. exact Hcur.
    + repeat constructor. apply Forall_app. auto.
    + repeat constructor. exact Hcur.
  - inversion Hs as [|? ? Hc Hr]; subst.
    assert (H1 : Forall P [c]) by (repeat constructor; exact Hc).
    destruct (sep c).
    + apply IH; [exact Hcur| |exact Hr]. apply Forall_app. auto.
    + destruct run as [|x [|y run']].
      * apply IH; [|constructor|exact Hr]. apply Forall_app. auto.
      * apply IH; [|constructor|exact Hr]. apply Forall_app. split; [exact Hcur|].
        apply Forall_app. auto.
      * constructor; [exact Hcur|]. apply IH; [exact H1|constructor|exact Hr].
Qed.

End TrimFacts.

Module ChunkFacts.
Import Js Humanize JsFacts TrimFacts HumanizeFacts.

Local Open Scope nat_scope.

Lemma pack_clean (sentences : list str) : forall currentChunk c,
  currentChunk = [] \/ clean_ends currentChunk ->
  In c (pack currentChunk sentences) -> clean_ends c.
Proof.
  induction sentences as [|raw rest IH]; intros cur c Hcur Hin; simpl in Hin.
  - destruct Hcur as [->|Hcur]; [destruct Hin|].
    rewrite (clean_ends_nonempty cur Hcur) in Hin. destruct Hin as [<-|[]]. exact Hcur.
  - destruct (nonempty (trim raw)) eqn:Hne; simpl in Hin; [|exact (IH cur c Hcur Hin)].
    pose proof (trim_nonempty_clean raw Hne) as Hraw.
    assert (Hstart : In c (if oversize (trim raw) then trim raw :: pack [] rest
                           else pack (trim raw) rest) -> clean_ends c).
    { destruct (oversize (trim raw)).
      - intros [<-|H]; [exact Hraw|]. apply (IH [] c); auto.
      - apply IH. auto. }
    destruct (nonempty cur) eqn:Hc; simpl in Hin; [|exact (Hstart Hin)].
    destruct Hcur as [->|Hcur]; [discriminate|].
    destruct (fits (cur ++ SPACE :: trim raw)).
    + apply (IH (cur ++ SPACE :: trim raw) c); [|exact Hin].
      right. apply (clean_ends_join cur (trim raw)); assumption.
    + destruct Hin as [<-|Hin]; [exact Hcur|exact (Hstart Hin)].
Qed.

Lemma paragraph_chunks_clean (p c : str) : In c (paragraph_chunks p) -> clean_ends c.
Proof.
  unfold paragraph_chunks. destruct (nonempty (trim p)) eqn:Hne; simpl; [|tauto].
  destruct (fits (trim p)).
  - intros [<-|[]]. apply trim_nonempty_clean. exact Hne.
  - apply pack_clean. auto.
Qed.

(** Every chunk of [splitIntoHumanChunks] is a string that is not empty and
    has no white space at its start or its end ([trim] leaves it as it is);
    and a text of white space only has no chunk at all. *)
Theorem splitIntoHumanChunks_chunks_trimmed :
  (forall text c, In c (splitIntoHumanChunks text) -> nonempty c = true /\ trim c = c)
  /\ (forall text, Forall (fun ch => is_space ch = true) text -> splitIntoHumanChunks text = []).
Proof.
  split.
  - intros text c. unfold splitIntoHumanChunks.
    destruct (nonempty (replace_clean (trim text))); simpl; [|tauto].
    rewrite filter_In, in_concat. intros [(l & Hl & Hc) _].
    apply in_map_iff in Hl. destruct Hl as (p & <- & _).
    pose proof (paragraph_chunks_clean p c Hc) as H.
    split; [apply clean_ends_nonempty|apply clean_ends_trim]; exact H.
  - intros text H. unfold splitIntoHumanChunks. rewrite (trim_spaces text H). reflexivity.
Qed.

(** The budget of a chunk is 240 code units in effect: four estimated lines
    of 60 are reached before [MAX_MESSAGE_LENGTH], so a paragraph or a run
    of sentences of 241 to 250 code units is over the budget, and a chunk of
    [splitIntoHumanChunks] longer than 240 is one sentence sent whole. *)
Theorem chunk_budget_is_240 :
  (forall s, fits s = true <-> length s <= 240)
  /\ (forall s, oversize s = true <-> 240 < length s)
  /\ (forall text c, In c (splitIntoHumanChunks text) -> 240 < length c ->
        exists p, In p (split_paragraphs (replace_clean (trim text)))
                  /\ whole_sentence (sentences_of (trim p)) c).
Proof.
  split; [exact fits_240|]. split.
  - intros s. rewrite oversize_fits, negb_true_iff.
    pose proof (fits_240 s) as H. destruct (fits s).
    + split; [discriminate|]. intros Hlt. assert (length s <= 240) by (apply H; reflexivity). lia.
    + split; [|reflexivity]. intros _.
      destruct (Nat.le_gt_cases (length s) 240) as [Hle|Hgt]; [|exact Hgt].
      apply H in Hle. discriminate.
  - intros text c. unfold splitIntoHumanChunks.
    destruct (nonempty (replace_clean (trim text))); simpl; [|tauto].
    rewrite filter_In, in_concat. intros [(l & Hl & Hc) _] Hlen.
    apply in_map_iff in Hl. destruct Hl as (p & <- & Hp).
    destruct (paragraph_chunks_sound p c Hc) as [Hfit|Hwhole].
    + apply fits_240 in Hfit. lia.
    + exists p. auto.
Qed.

End ChunkFacts.

(** ** More of the sources: the chunks [processUserMessage] sends *)

Module MarkerFacts.
Import Js JsFacts TrimFacts.

Local Open Scope N_scope.

(** No place of the string where [CLEAN_REGEX] matches: no [【] that has a
    [】] after it on its line. *)
Fixpoint marker_free (s : str) : bool :=
  match s with
  | [] => true
  | c :: r =>
      match clean_match r with
      | Some _ => negb (c =? OPEN)
      | None => true
      end && marker_free r
  end.

Lemma replace_clean_from_drop (n : nat) : forall s,
  replace_clean_from n s = replace_clean (drop n s).
Proof.
  induction n as [|n IH]; intros s; [rewrite drop_0; reflexivity|].
  destruct s as [|c r]; simpl; [reflexivity|]. apply IH.
Qed.

Lemma replace_clean_cons (c : N) (r : str) :
  replace_clean (c :: r)
  = if c =? OPEN then
      match clean_match r with
      | Some n => replace_clean (drop n r)
      | None => c :: replace_clean r
      end
    else c :: replace_clean r.
Proof.
  unfold replace_clean at 1. simpl. destruct (c =? OPEN); [|reflexivity].
  destruct (clean_match r) as [n|]; [apply replace_clean_from_drop|reflexivity].
Qed.

(** A line without [】] keeps being one when it is cleaned. *)
Lemma clean_match_none (r : str) :
  clean_match r = None -> clean_match (replace_clean r) = None.
Proof.
  induction r as [|c r IH]; [reflexivity|]. simpl.
  destruct (c =? CLOSE) eqn:Ec; [discriminate|].
  destruct (is_line_terminator c) eqn:El.
  - intros _. rewrite replace_clean_cons.
    assert ((c =? OPEN) = false) as ->.
    { apply N.eqb_neq. intros ->. discriminate. }
    simpl. rewrite Ec, El. reflexivity.
  - intros H. destruct (clean_match r) as [n|] eqn:Em; [discriminate|].
    rewrite replace_clean_cons, Em.
    assert (clean_match (c :: replace_clean r) = None) as Hc.
    { simpl. rewrite Ec, El, IH by reflexivity. reflexivity. }
    destruct (c =? OPEN); exact Hc.
Qed.

Lemma replace_clean_marker_free_le (n : nat) : forall s,
  (length s <= n)%nat -> marker_free (replace_clean s) = true.
Proof.
  induction n as [|n IH]; intros s Hlen.
  - destruct s; [reflexivity|simpl in Hlen; lia].
  - destruct s as [|c r]; [reflexivity|]. simpl in Hlen.
    assert (Hr : marker_free (replace_clean r) = true) by (apply IH; lia).
    rewrite replace_clean_cons. destruct (c =? OPEN) eqn:Eo.
    + destruct (clean_match r) as [k|] eqn:Em.
      * apply IH. rewrite length_drop. lia.
      * simpl. rewrite (clean_match_none r Em). exact Hr.
    + simpl. rewrite Hr, Eo. destruct (clean_match (replace_clean r)); reflexivity.
Qed.

Lemma replace_clean_marker_free (s : str) : marker_free (replace_clean s) = true.
Proof. apply (replace_clean_marker_free_le (length s)). lia. Qed.

Lemma marker_free_fixed (s : str) : marker_free s = true -> replace_clean s = s.
Proof.
  induction s as [|c r IH]; [reflexivity|]. simpl. intros H.
  apply andb_true_iff in H as [H1 H2]. rewrite replace_clean_cons, (IH H2).
  destruct (clean_match r); [|destruct (c =? OPEN); reflexivity].
  apply negb_true_iff in H1. rewrite H1. reflexivity.
Qed.

(** The chunks that the loop of [processUserMessage] sends with
    [flowDynamic]: none is empty, none has a place left where [CLEAN_REGEX]
    matches (cleaning it again changes nothing), and an answer of white
    space only sends nothing. *)
Theorem response_chunks_cleaned :
  (forall response c, In c (App.response_chunks response) ->
     nonempty c = true /\ marker_free c = true /\ replace_clean c = c)
  /\ (forall response, Forall (fun ch => is_space ch = true) response ->
        App.response_chunks response = []).
Proof.
  split.
  - intros response c. unfold App.response_chunks.
    rewrite filter_In, in_map_iff. intros [(chunk & <- & _) Hne].
    split; [exact Hne|]. split; [apply replace_clean_marker_free|].
    apply marker_free_fixed, replace_clean_marker_free.
  - intros response H. unfold App.response_chunks, split_blank_lines.
    pose proof (split_runs_forall (fun ch => is_space ch = true) is_lf response [] []
                  (List.Forall_nil _) (List.Forall_nil _) H) as Hall.
    induction Hall as [|p ps Hp _ IH]; [reflexivity|].
    simpl. rewrite (trim_spaces p Hp). exact IH.
Qed.

End MarkerFacts.

(** ** [splitIntoHumanChunks]: how the sentences of a paragraph are packed *)

Module PackFacts.
Import Js Humanize JsFacts TrimFacts HumanizeFacts ChunkFacts.

Local Open Scope nat_scope.

(** The sentences the loop packs: each one trimmed, the empty ones left
    out. *)
Definition kept_sentences (sentences : list str) : list str :=
  List.filter nonempty (map trim sentences).

(** The chunk of a group of sentences: the sentences with one space between
    them. *)
Definition chunk_of (group : list str) : str := join [SPACE] group.

(** A group is one sentence, of any length, or several that fit the budget
    together. *)
Definition group_ok (group : list str) : Prop :=
  match group with
  | [] => False
  | [_] => True
  | _ :: _ :: _ => fits (chunk_of group) = true
  end.

(** No chunk could have taken the sentence that follows it: with it, the
    chunk would be over the budget. *)
Fixpoint greedy (groups : list (list str)) : Prop :=
  match groups with
  | [] => True
  | group :: rest =>
      match rest with
      | (next :: _) :: _ => fits (chunk_of group ++ [SPACE] ++ next) = false
      | _ => True
      end /\ greedy rest
  end.

Lemma chunk_of_snoc (g : list str) (s : str) :
  g <> [] -> chunk_of (g ++ [s]) = chunk_of g ++ [SPACE] ++ s.
Proof.
  unfold chunk_of. induction g as [|a g IH]; [congruence|]. intros _.
  destruct g as [|b g]; [reflexivity|].
  change (a ++ [SPACE] ++ join [SPACE] ((b :: g) ++ [s])
          = (a ++ [SPACE] ++ join [SPACE] (b :: g)) ++ [SPACE] ++ s).
  rewrite IH by discriminate. rewrite <- !app_assoc. reflexivity.
Qed.

Lemma chunk_of_nonempty (g : list str) :
  g <> [] -> Forall (fun s => nonempty s = true) g -> nonempty (chunk_of g) = true.
Proof.
  unfold chunk_of. destruct g as [|a g]; [congruence|]. intros _ H.
  apply Forall_cons in H as [Ha _]. destruct a as [|c a]; [discriminate|].
  destruct g; reflexivity.
Qed.

Lemma fits_prefix (a b : str) : fits (a ++ b) = true -> fits a = true.
Proof. rewrite !fits_240, length_app. lia. Qed.

(** The state of the loop: [currentChunk] is the chunk of the group [g]
    collected so far. *)
Definition collecting (g : list str) : Prop :=
  g = [] \/ (Forall (fun s => nonempty s = true) g /\ fits (chunk_of g) = true).

Lemma pack_groups (sentences : list str) : forall g,
  collecting g ->
  exists groups,
    pack (chunk_of g) sentences = map chunk_of groups
    /\ concat groups = g ++ kept_sentences sentences
    /\ Forall group_ok groups
    /\ greedy groups
    /\ (g <> [] -> exists more tail, groups = (g ++ more) :: tail).
Proof.
  induction sentences as [|raw rest IH]; intros g Hg.
  - destruct Hg as [->|[Hne Hfit]].
    + exists []. simpl. repeat split; auto. congruence.
    + destruct g as [|a g']; [exists []; simpl; repeat split; auto; congruence|].
      exists [a :: g']. simpl pack.
      rewrite (chunk_of_nonempty (a :: g')) by (congruence || exact Hne).
      split; [reflexivity|]. split; [simpl; rewrite !app_nil_r; reflexivity|].
      split; [constructor; [|constructor]; destruct g'; [exact I|exact Hfit]|].
      split; [simpl; auto|].
      intros _. exists [], []. rewrite app_nil_r. reflexivity.
  - unfold kept_sentences. simpl pack. simpl map. simpl List.filter.
    fold (kept_sentences rest).
    destruct (nonempty (trim raw)) eqn:Hs; simpl negb; cbv iota; [|apply IH, Hg].
    set (s := trim raw) in *.
    (* starting a chunk with [s] *)
    assert (Hstart : exists groups,
              (if oversize s then s :: pack [] rest else pack s rest) = map chunk_of groups
              /\ concat groups = s :: kept_sentences rest
              /\ Forall group_ok groups /\ greedy groups
              /\ exists more tail, groups = (s :: more) :: tail).
    { destruct (oversize s) eqn:Hos.
      - destruct (IH [] (or_introl eq_refl)) as (groups & Hp & Hc & Hok & Hgr & _).
        exists ([s] :: groups). change (chunk_of []) with (@nil N) in Hp.
        split; [simpl; rewrite Hp; reflexivity|].
        split; [simpl; rewrite Hc; reflexivity|].
        split; [constructor; [exact I|exact Hok]|]. split.
        + simpl. split; [|exact Hgr]. destruct groups as [|[|next more] tail]; auto.
          change (chunk_of [s]) with s.
          rewrite oversize_fits in Hos. apply negb_true_iff in Hos.
          destruct (fits (s ++ [SPACE] ++ next)) eqn:E; [|exact E].
          apply fits_prefix in E. congruence.
        + exists [], groups. reflexivity.
      - assert (Hc1 : collecting [s]).
        { right. split; [repeat constructor; exact Hs|].
          rewrite oversize_fits in Hos. apply negb_false_iff in Hos. exact Hos. }
        destruct (IH [s] Hc1) as (groups & Hp & Hc & Hok & Hgr & Hfirst).
        exists groups. change (chunk_of [s]) with s in Hp.
        split; [exact Hp|]. split; [exact Hc|]. split; [exact Hok|]. split; [exact Hgr|].
        destruct (Hfirst ltac:(discriminate)) as (more & tail & ->). exists more, tail.
        reflexivity. }
    destruct Hg as [->|[Hne Hfit]].
    + change (chunk_of []) with (@nil N). simpl nonempty. simpl negb. cbv iota.
      destruct Hstart as (groups & Hp & Hc & Hok & Hgr & _).
      exists groups. repeat split; try assumption. congruence.
    + destruct g as [|a g'].
      { change (chunk_of []) with (@nil N). simpl nonempty. simpl negb. cbv iota.
        destruct Hstart as (groups & Hp & Hc & Hok & Hgr & _).
        exists groups. repeat split; try assumption. congruence. }
      rewrite (chunk_of_nonempty (a :: g')) by (congruence || exact Hne).
      simpl negb. cbv iota.
      change (chunk_of (a :: g') ++ SPACE :: s) with (chunk_of (a :: g') ++ [SPACE] ++ s).
      rewrite <- (chunk_of_snoc (a :: g') s) by discriminate.
      destruct (fits (chunk_of ((a :: g') ++ [s]))) eqn:Hpot.
      * assert (Hc1 : collecting ((a :: g') ++ [s])).
        { right. split; [|exact Hpot]. apply Forall_app. split; [exact Hne|].
          repeat constructor. exact Hs. }
        destruct (IH _ Hc1) as (groups & Hp & Hc & Hok & Hgr & Hfirst).
        exists groups. split; [exact Hp|].
        split; [rewrite Hc, <- app_assoc; reflexivity|].
        split; [exact Hok|]. split; [exact Hgr|]. intros _.
        destruct (Hfirst ltac:(destruct g'; discriminate)) as (more & tail & ->).
        exists (s :: more), tail. rewrite <- app_assoc. reflexivity.
      * destruct Hstart as (groups & Hp & Hc & Hok & Hgr & more & tail & ->).
        exists ((a :: g') :: (s :: more) :: tail).
        split; [change (map chunk_of ((a :: g') :: (s :: more) :: tail))
                  with (chunk_of (a :: g') :: map chunk_of ((s :: more) :: tail));
                rewrite <- Hp; reflexivity|].
        split; [change (concat ((a :: g') :: (s :: more) :: tail))
                  with ((a :: g') ++ concat ((s :: more) :: tail));
                rewrite Hc; reflexivity|].
        split; [constructor; [destruct g'; [exact I|exact Hfit]|exact Hok]|].
        split.
        -- split; [|exact Hgr]. rewrite <- (chunk_of_snoc (a :: g') s) by discriminate.
           exact Hpot.
        -- intros _. exists [], ((s :: more) :: tail). rewrite app_nil_r. reflexivity.
Qed.

(** [match] loses no character but [.], [!] and [?], and repeats none. *)
Definition no_terminator (c : N) : bool := negb (is_terminator c).

Lemma sentences_from_content (s : str) : forall st acc,
  (st = Seek -> acc = []) ->
  List.filter no_terminator (concat (sentences_from st acc s))
  = List.filter no_terminator (acc ++ s).
Proof.
  induction s as [|c r IH]; intros st acc Hseek.
  - destruct st; simpl; rewrite ?app_nil_r; try reflexivity.
    rewrite (Hseek eq_refl). reflexivity.
  - assert (Hdrop : is_terminator c = true ->
              List.filter no_terminator (acc ++ c :: r) = List.filter no_terminator (acc ++ r)).
    { intros Hc. rewrite !List.filter_app. simpl. unfold no_terminator at 2. rewrite Hc.
      reflexivity. }
    assert (Hnew : List.filter no_terminator (concat (acc :: sentences_from Body [c] r))
                   = List.filter no_terminator (acc ++ c :: r)).
    { simpl. rewrite List.filter_app, IH by discriminate. rewrite <- List.filter_app.
      reflexivity. }
    assert (Hgo : forall st', st' <> Seek ->
              List.filter no_terminator (concat (sentences_from st' (acc ++ [c]) r))
              = List.filter no_terminator (acc ++ c :: r)).
    { intros st' Hst. rewrite IH by (intros ->; congruence).
      rewrite <- app_assoc. reflexivity. }
    destruct st; simpl.
    + rewrite (Hseek eq_refl) in *. destruct (is_terminator c) eqn:Hc.
      * rewrite IH by reflexivity. simpl. unfold no_terminator at 2. rewrite Hc. reflexivity.
      * rewrite IH by discriminate. reflexivity.
    + destruct (is_terminator c); apply Hgo; discriminate.
    + destruct (is_terminator c); [apply Hgo; discriminate|].
      destruct (is_quote c || is_space c); [apply Hgo; discriminate|exact Hnew].
    + destruct (is_space c); [apply Hgo; discriminate|].
      destruct (is_terminator c) eqn:Hc; [|exact Hnew].
      simpl. rewrite List.filter_app, IH by reflexivity. simpl.
      rewrite Hdrop by reflexivity. rewrite List.filter_app. reflexivity.
Qed.

Lemma sentences_of_content (p : str) :
  List.filter no_terminator (concat (sentences_of p)) = List.filter no_terminator p.
Proof.
  unfold sentences_of.
  pose proof (sentences_from_content p Seek [] (fun _ => eq_refl)) as H.
  fold (match_sentences p) in H. simpl in H.
  destruct (match_sentences p); [simpl; rewrite app_nil_r; reflexivity|exact H].
Qed.

(** [split] on runs of line breaks loses nothing but line breaks. *)
Lemma split_runs_content (sep : N -> bool) (s : str) : forall cur run,
  Forall (fun c => sep c = true) run ->
  List.filter (fun c => negb (sep c)) (concat (split_runs sep cur run s))
  = List.filter (fun c => negb (sep c)) (cur ++ s).
Proof.
  assert (Hrun : forall run, Forall (fun c => sep c = true) run ->
            List.filter (fun c => negb (sep c)) run = []).
  { induction 1 as [|c r Hc _ IH]; simpl; [reflexivity|]. rewrite Hc. exact IH. }
  induction s as [|c r IH]; intros cur run Hr; simpl.
  - destruct run as [|x [|y run']]; simpl; rewrite ?app_nil_r; try reflexivity.
    rewrite List.filter_app, (Hrun [x] Hr), app_nil_r. reflexivity.
  - destruct (sep c) eqn:Hc.
    + rewrite IH by (apply Forall_app; split; [exact Hr|repeat constructor; exact Hc]).
      rewrite !List.filter_app. simpl. rewrite Hc. reflexivity.
    + destruct run as [|x [|y run']].
      * rewrite IH by constructor. simpl. rewrite <- app_assoc. reflexivity.
      * rewrite IH by constructor. rewrite <- !app_assoc, !List.filter_app.
        rewrite (Hrun [x] Hr). simpl. rewrite Hc. reflexivity.
      * simpl. rewrite List.filter_app, IH by constructor. rewrite <- List.filter_app.
        reflexivity.
Qed.

Lemma filter_nonempty_id (l : list str) :
  Forall (fun c => nonempty c = true) l -> List.filter nonempty l = l.
Proof. induction 1 as [|c r Hc _ IH]; simpl; [reflexivity|]. rewrite Hc, IH. reflexivity. Qed.

(** The last [filter] of [splitIntoHumanChunks] drops nothing. *)
Lemma splitIntoHumanChunks_paragraphs (text : str) :
  splitIntoHumanChunks text
  = if nonempty (replace_clean (trim text))
    then concat (map paragraph_chunks (split_paragraphs (replace_clean (trim text))))
    else [].
Proof.
  unfold splitIntoHumanChunks. destruct (nonempty (replace_clean (trim text))); [|reflexivity].
  simpl. apply filter_nonempty_id. apply Forall_forall. intros c Hin.
  apply list_elem_of_In, in_concat in Hin as (l & Hl & Hc).
  apply in_map_iff in Hl as (p & <- & _).
  apply clean_ends_nonempty. exact (paragraph_chunks_clean p c Hc).
Qed.

Lemma paragraph_chunks_packed (p : str) :
  nonempty (trim p) = true -> fits (trim p) = false ->
  exists groups,
    paragraph_chunks p = map chunk_of groups
    /\ concat groups = kept_sentences (sentences_of (trim p))
    /\ Forall group_ok groups /\ greedy groups.
Proof.
  intros Hne Hfit. unfold paragraph_chunks. rewrite Hne, Hfit. simpl.
  destruct (pack_groups (sentences_of (trim p)) [] (or_introl eq_refl))
    as (groups & Hp & Hc & Hok & Hgr & _).
  exists groups. auto.
Qed.

End PackFacts.

(** ** More of the sources: the order of the queue, the handlers' sessions,
    what the listeners pass over *)

Module HumanizeOrder.
Import Js Humanize.

Local Open Scope nat_scope.

(** The tasks of [u] that [processUserMessage] was called with, newest
    first. *)
Definition processed (u : string) (outs : list output) : list ctx :=
  omap (fun o => match o with
                 | Process v task => if bool_decide (v = u) then Some task else None
                 | Notice _ => None
                 end) outs.

(** The tasks of [u] in the order they are served: those processed, then
    those waiting. *)
Definition history (u : string) (s : store) : list ctx :=
  rev (processed u (outputs s)) ++ queue_of s u.

(** [welcomeFlow] puts the message [c] on the queue of [u]: it is a message
    of [u] and finds fewer than [MAX_QUEUE_SIZE] tasks waiting. *)
Definition accepts (u : string) (c : ctx) (s : store) : bool :=
  bool_decide (from c = u) && (length (queue_of s u) <? MAX_QUEUE_SIZE).
Arguments accepts : simpl never.

(** The messages of [u] that are put on the queue in the schedule [es]. *)
Fixpoint accepted (u : string) (es : list (Z * event)) (s : store) : list ctx :=
  match es with
  | [] => []
  | (t, e) :: es =>
      match e with
      | Welcome c => if accepts u c s then [c] else []
      | Resume _ _ => []
      end ++ accepted u es (step t e s)
  end.

Lemma history_same u s s' :
  outputs s' = outputs s -> userQueues s' = userQueues s -> history u s' = history u s.
Proof. unfold history, queue_of. intros -> ->. reflexivity. Qed.

Lemma history_drain u v s : history u (drain v s) = history u s.
Proof.
  unfold drain. destruct (queue_of s v) as [|task rest] eqn:Hq; [reflexivity|].
  unfold history, processUserMessage, queue_of in *. simpl.
  destruct (decide (v = u)) as [->|Hne].
  - rewrite bool_decide_eq_true_2 by reflexivity. rewrite lookup_insert_eq. simpl.
    rewrite Hq. rewrite <- app_assoc. reflexivity.
  - rewrite bool_decide_eq_false_2 by exact Hne. rewrite lookup_insert_ne by exact Hne.
    reflexivity.
Qed.

Lemma history_handleQueue u v s : history u (handleQueue v s) = history u s.
Proof.
  unfold handleQueue. destruct (userQueues s !! v); [|reflexivity].
  destruct (locked s v); [reflexivity|]. rewrite history_drain. reflexivity.
Qed.

Lemma history_step u t e s :
  history u (step t e s) = history u s ++ accepted u [(t, e)] s.
Proof.
  simpl. rewrite app_nil_r. destruct e as [c|k r]; simpl.
  - unfold welcomeFlow.
    set (s1 := match userQueues s !! from c with
               | Some _ => s
               | None => with_queues (insert (from c) []) s
               end).
    assert (Hq : forall v, queue_of s1 v = queue_of s v).
    { intros v. subst s1. destruct (userQueues s !! from c) eqn:E; [reflexivity|].
      unfold queue_of. simpl. destruct (decide (from c = v)) as [<-|Hne].
      - rewrite lookup_insert_eq, E. reflexivity.
      - rewrite lookup_insert_ne by exact Hne. reflexivity. }
    assert (Hh : history u s1 = history u s).
    { unfold history. rewrite Hq. subst s1.
      destruct (userQueues s !! from c); reflexivity. }
    destruct (MAX_QUEUE_SIZE <=? length (queue_of s1 (from c))) eqn:Hfull.
    + rewrite Hq in Hfull.
      assert (accepts u c s = false) as ->.
      { unfold accepts. case_bool_decide as E; [|reflexivity]. subst u.
        apply Nat.leb_le in Hfull. apply Nat.ltb_ge in Hfull. rewrite Hfull. reflexivity. }
      rewrite app_nil_r. unfold history in *. exact Hh.
    + set (s2 := with_queues (insert (from c) (queue_of s1 (from c) ++ [c])) s1).
      assert (H2 : history u s2 = history u s ++ (if accepts u c s then [c] else [])).
      { rewrite <- Hh. subst s2. unfold history, accepts, queue_of. cbn [userQueues with_queues outputs].
        case_bool_decide as E.
        - subst u. rewrite lookup_insert_eq. cbn [default from_option id andb].
          rewrite Hq in Hfull. apply Nat.leb_gt in Hfull. apply Nat.ltb_lt in Hfull.
          fold (queue_of s (from c)). rewrite Hfull.
          fold (queue_of s1 (from c)). rewrite app_assoc. reflexivity.
        - rewrite lookup_insert_ne by exact E. cbn [andb]. rewrite app_nil_r. reflexivity. }
      destruct (locked s2 (from c)); [exact H2|].
      rewrite history_handleQueue. exact H2.
  - rewrite app_nil_r.
    destruct (pending s !! k) as [[v task|deadline v]|] eqn:Hk; [| |reflexivity].
    + destruct r; [|reflexivity].
      destruct (queue_of (resume k s) v); [rewrite history_drain|]; reflexivity.
    + destruct r; [reflexivity|].
      destruct (deadline <=? t)%Z; [rewrite history_drain|]; reflexivity.
Qed.

(** The queue of [src/unnamed/part_002] serves a conversation in arrival
    order: after any schedule, the tasks [processUserMessage] was called
    with, oldest first, followed by the tasks still waiting, are the
    messages that were put on the queue, in the order they came; none is
    lost, repeated or overtaken. *)
Theorem queue_serves_in_arrival_order (u : string) (es : list (Z * event)) :
  forall s, history u (run es s) = history u s ++ accepted u es s.
Proof.
  induction es as [|[t e] es IH]; intros s.
  - simpl. rewrite app_nil_r. reflexivity.
  - change (run ((t, e) :: es) s) with (run es (step t e s)).
    rewrite IH, history_step. simpl. rewrite app_nil_r, <- app_assoc. reflexivity.
Qed.

End HumanizeOrder.

(** ** The queue of [src/unnamed/part_002] waits for [processUserMessage] *)

Module HumanizeWait.
Import Js Humanize HumanizeQueue HumanizeOrder.

Local Open Scope nat_scope.

(** The continuation [k] is still waiting and no task of [u] was started. *)
Definition undisturbed (u : string) (k : nat) (s s' : store) : Prop :=
  pending s' !! k = pending s !! k
  /\ processed u (outputs s') = processed u (outputs s).

Lemma drain_undisturbed u k v s :
  v <> u -> k < next_id s -> undisturbed u k s (drain v s).
Proof.
  intros Hne Hk. unfold drain, processUserMessage.
  destruct (queue_of s v); split; simpl; try reflexivity.
  - apply lookup_insert_ne. lia.
  - rewrite bool_decide_eq_false_2 by exact Hne. reflexivity.
Qed.

Lemma handleQueue_undisturbed u k v s :
  v <> u -> k < next_id s -> undisturbed u k s (handleQueue v s).
Proof.
  intros Hne Hk. unfold handleQueue. destruct (userQueues s !! v); [|split; reflexivity].
  destruct (locked s v); [split; reflexivity|].
  exact (drain_undisturbed u k v (with_locks (insert v true) s) Hne Hk).
Qed.

(** While [processUserMessage] has not settled, no callback starts another
    task of the same user. *)
Lemma step_waits t e k u task s :
  inv s -> pending s !! k = Some (AwaitProcess u task) ->
  e <> Resume k Settled ->
  pending (step t e s) !! k = Some (AwaitProcess u task)
  /\ processed u (outputs (step t e s)) = processed u (outputs s).
Proof.
  intros Hi Hk He.
  assert (Hu : forall s', undisturbed u k s s' ->
            pending s' !! k = Some (AwaitProcess u task)
            /\ processed u (outputs s') = processed u (outputs s)).
  { intros s' [H1 H2]. rewrite H1. auto. }
  pose proof (inv_fresh s Hi k _ Hk) as Hfresh.
  pose proof (inv_locked s Hi k _ Hk) as Hlock. simpl in Hlock.
  destruct e as [c|k' r]; simpl.
  - apply Hu. unfold welcomeFlow.
    set (s1 := match userQueues s !! from c with
               | None => with_queues (insert (from c) []) s
               | Some _ => s
               end).
    assert (H1 : undisturbed u k s s1 /\ next_id s1 = next_id s /\ userLocks s1 = userLocks s).
    { subst s1. destruct (userQueues s !! from c); repeat split. }
    destruct H1 as ([P1 O1] & N1 & L1).
    destruct (MAX_QUEUE_SIZE <=? length (queue_of s1 (from c))); [split; simpl; assumption|].
    set (s2 := with_queues (insert (from c) (queue_of s1 (from c) ++ [c])) s1).
    destruct (locked s2 (from c)) eqn:Hl; [split; simpl; assumption|].
    assert (Hne : from c <> u).
    { intros E. unfold locked in Hl. subst s2. simpl in Hl. rewrite L1, E, Hlock in Hl.
      discriminate. }
    destruct (handleQueue_undisturbed u k (from c) s2 Hne) as [P2 O2].
    { subst s2. simpl. lia. }
    split; [rewrite P2; exact P1|rewrite O2; exact O1].
  - destruct (decide (k' = k)) as [->|Hne].
    + rewrite Hk. destruct r; [congruence|]. auto.
    + destruct (pending s !! k') as [[v task'|d v]|] eqn:Hk'; [| |auto].
      * destruct r; [|auto].
        assert (Hv : v <> u).
        { intros ->. apply Hne. exact (inv_unique s Hi k' k _ _ Hk' Hk eq_refl). }
        apply Hu.
        assert (R : undisturbed u k s (resume k' s)).
        { split; simpl; [apply lookup_delete_ne; exact Hne|reflexivity]. }
        destruct R as [P1 O1].
        destruct (queue_of (resume k' s) v).
        -- destruct (drain_undisturbed u k v (resume k' s) Hv Hfresh) as [P2 O2].
           split; [rewrite P2; exact P1|rewrite O2; exact O1].
        -- split; simpl; [|reflexivity].
           rewrite lookup_insert_ne by lia. apply lookup_delete_ne. exact Hne.
      * destruct r; [auto|]. destruct (d <=? t)%Z; [|auto].
        assert (Hv : v <> u).
        { intros ->. apply Hne. exact (inv_unique s Hi k' k _ _ Hk' Hk eq_refl). }
        apply Hu.
        destruct (drain_undisturbed u k v (resume k' s) Hv Hfresh) as [P2 O2].
        split; [rewrite P2; simpl; apply lookup_delete_ne; exact Hne|rewrite O2; reflexivity].
Qed.

End HumanizeWait.

Module SessionFacts.
Import Js Handlers.

(** [GeminiHandler] creates the chat session of a user once: when a call of
    [processMessage] has resolved, the user has a session in
    [userChatSessions], the sessions of the other users are as they were,
    and every later call for that user works with this session, creates
    none (whatever [getGenerativeModel] and [startChat] would do) and
    resolves; a call that rejects leaves the handler as it was. *)
Theorem gemini_session_created_once (g : Gemini.sdk) (h : Gemini.handler)
    (userId : string) (message : str) :
  let out := Gemini.processMessage g h userId message in
  match out.2 with
  | Ok _ =>
      exists chatSession,
        Gemini.userChatSessions out.1 !! userId = Some chatSession
        /\ (forall other, other <> userId ->
              Gemini.userChatSessions out.1 !! other = Gemini.userChatSessions h !! other)
        /\ (forall g' message',
              Gemini.processMessage g' out.1 userId message'
              = (out.1, Ok (Gemini.answer g' chatSession message')))
  | Throws => out.1 = h
  end.
Proof.
  unfold Gemini.processMessage.
  destruct (Gemini.userChatSessions h !! userId) as [cs|] eqn:Hs; simpl.
  - exists cs. split; [exact Hs|]. split; [reflexivity|].
    intros g' message'. rewrite Hs. reflexivity.
  - destruct (Gemini.getGenerativeModel g (Gemini.modelName h)) as [model|]; simpl;
      [|reflexivity].
    destruct (Gemini.startChat g model (Gemini.systemInstructionParts h)) as [cs|]; simpl;
      [|reflexivity].
    exists cs. split; [apply lookup_insert_eq|]. split.
    + intros other Hne. apply lookup_insert_ne. congruence.
    + intros g' message'. rewrite lookup_insert_eq. reflexivity.
Qed.

Import OpenAi.




End SessionFacts.

Module ListenerFacts.
Import Js.

(** An output of the listener: a message appended to a thread, or a
    warning. *)
Definition of_listener (o : App.output) : bool :=
  match o with
  | App.AppendMessage _ _ | App.Warn _ => true
  | _ => false
  end.

Lemma app_upsert_frame (msgs : list App.wa_message) : forall s,
  let s' := App.upsert_loop msgs s in
  App.clientThreadIds s' = App.clientThreadIds s
  /\ App.botSentMessages s' = App.botSentMessages s
  /\ App.userQueues s' = App.userQueues s
  /\ App.arrays s' = App.arrays s
  /\ App.userLocks s' = App.userLocks s
  /\ App.userMessageBuffers s' = App.userMessageBuffers s
  /\ App.userActivityTimers s' = App.userActivityTimers s
  /\ exists new, App.outputs s' = new ++ App.outputs s
                 /\ Forall (fun o => of_listener o = true) new.
Proof.
  induction msgs as [|msg rest IH]; intros s; simpl.
  { repeat split. exists []. split; [reflexivity|constructor]. }
  assert (Hemit : forall o, of_listener o = true ->
            let s' := App.upsert_loop rest (App.emit o s) in
            App.clientThreadIds s' = App.clientThreadIds s
            /\ App.botSentMessages s' = App.botSentMessages s
            /\ App.userQueues s' = App.userQueues s
            /\ App.arrays s' = App.arrays s
            /\ App.userLocks s' = App.userLocks s
            /\ App.userMessageBuffers s' = App.userMessageBuffers s
            /\ App.userActivityTimers s' = App.userActivityTimers s
            /\ exists new, App.outputs s' = new ++ App.outputs s
                           /\ Forall (fun o => of_listener o = true) new).
  { intros o Ho. destruct (IH (App.emit o s)) as (H1 & H2 & H3 & H4 & H5 & H6 & H7 & new & H8 & H9).
    repeat split; try assumption. exists (new ++ [o]). split.
    - rewrite H8. simpl. rewrite <- app_assoc. reflexivity.
    - apply Forall_app. split; [exact H9|]. repeat constructor. exact Ho. }
  destruct (_ || _); [apply IH|].
  destruct (App.extractTextFromMessage msg); [|apply IH].
  destruct (App.key_fromMe msg); [|apply IH].
  case_bool_decide; [apply IH|].
  destruct (App.clientThreadIds s !! App.remoteJid msg); [|apply Hemit; reflexivity].
  unfold App.syncManualMessageToOpenAI.
  destruct (App.thread_of s (App.remoteJid msg)); [|apply Hemit; reflexivity].
  simpl. repeat split. eexists [_]. split; [reflexivity|]. repeat constructor.
Qed.

(** The [messages.upsert] listener of [src/src/app.ts] only appends manual
    messages to threads and warns: whatever the event holds, the thread
    ids, the set of bot-sent ids, the queues, the locks, the buffers and the
    inactivity timers are as they were, and it calls neither [toAsk] nor
    [flowDynamic] and enqueues nothing; an event without outgoing messages
    changes nothing at all.  In [src/unnamed/part_001] an event of type
    [append] changes nothing, and neither does one without outgoing
    messages. *)
Theorem listeners_only_sync_manual_messages :
  (forall msgs s,
     let s' := App.upsert_loop msgs s in
     App.clientThreadIds s' = App.clientThreadIds s
     /\ App.botSentMessages s' = App.botSentMessages s
     /\ App.userQueues s' = App.userQueues s
     /\ App.arrays s' = App.arrays s
     /\ App.userLocks s' = App.userLocks s
     /\ App.userMessageBuffers s' = App.userMessageBuffers s
     /\ App.userActivityTimers s' = App.userActivityTimers s
     /\ exists new, App.outputs s' = new ++ App.outputs s
                    /\ Forall (fun o => of_listener o = true) new)
  /\ (forall msgs s, Forall (fun msg => App.key_fromMe msg = false) msgs ->
        App.upsert_loop msgs s = s)
  /\ (forall t msgs s, Sync.upsert_loop t Sync.Append msgs s = s)
  /\ (forall t type msgs s, Forall (fun msg => Sync.key_fromMe msg = false) msgs ->
        Sync.upsert_loop t type msgs s = s).
Proof.
  split; [exact app_upsert_frame|]. split; [|split].
  - intros msgs s H. induction H as [|msg rest Hme _ IH]; simpl; [reflexivity|].
    rewrite Hme. destruct (_ || _); [exact IH|].
    destruct (App.extractTextFromMessage msg); exact IH.
  - intros t msgs s. induction msgs as [|msg rest IH]; simpl; [reflexivity|].
    rewrite andb_false_r. case_bool_decide; [exact IH|].
    destruct (Sync.truthy_text (Sync.text msg)); exact IH.
  - intros t type msgs s H. induction H as [|msg rest Hme _ IH]; simpl; [reflexivity|].
    rewrite Hme. simpl. case_bool_decide; [exact IH|].
    destruct (Sync.truthy_text (Sync.text msg)); exact IH.
Qed.

End ListenerFacts.

(** ** [src/src/app.ts]: a buffer lives as long as its timer *)

Module AppBuffers.
Import Js App AppTimers.

Local Open Scope Z_scope.

(** The buffer of a client holds at least one message, its [lastCtx] is a
    message of the client, and the timer registered for the client is
    pending; a timer is registered only for a client that has a buffer. *)
Record buffered_ok (s : store) : Prop := {
  buffer_timer : forall u b,
    userMessageBuffers s !! u = Some b ->
    messages b <> [] /\ from (lastCtx b) = u
    /\ exists k d, userActivityTimers s !! u = Some k
                   /\ pending s !! k = Some (InactivityTimer d u);
  timer_buffer : forall u k,
    userActivityTimers s !! u = Some k -> is_Some (userMessageBuffers s !! u)
}.

Lemma buffered_ok_empty : buffered_ok empty_store.
Proof. split; simpl; intros *; rewrite lookup_empty; discriminate. Qed.

(** Nothing that was waiting is resumed, and the buffers and the registered
    timers are as they were. *)
Lemma buffered_ok_keep s s' :
  userActivityTimers s' = userActivityTimers s ->
  userMessageBuffers s' = userMessageBuffers s ->
  (forall k c, pending s !! k = Some c -> pending s' !! k = Some c) ->
  buffered_ok s -> buffered_ok s'.
Proof.
  intros E1 E2 Hold [H1 H2]. split; rewrite ?E1, ?E2.
  - intros u b Hb. destruct (H1 u b Hb) as (Hm & Hu & k & d & Hk & Hp).
    split; [exact Hm|]. split; [exact Hu|]. exists k, d. auto.
  - exact H2.
Qed.

Lemma buffered_ok_quiet s s' : quiet s s' -> buffered_ok s -> buffered_ok s'.
Proof. intros [Q1 Qb _ _ Q3 _]. apply buffered_ok_keep; assumption. Qed.

(** A continuation that is no inactivity timer is resumed. *)
Lemma buffered_ok_resume k c s :
  pending s !! k = Some c -> is_inactivity_timer c = false ->
  buffered_ok s -> buffered_ok (resume k s).
Proof.
  intros Hk Hc [H1 H2]. split; simpl; [|exact H2].
  intros u b Hb. destruct (H1 u b Hb) as (Hm & Hu & k' & d & Hk' & Hp).
  split; [exact Hm|]. split; [exact Hu|]. exists k', d. split; [exact Hk'|].
  rewrite lookup_delete_ne; [exact Hp|]. intros ->. rewrite Hk in Hp.
  injection Hp as ->. discriminate.
Qed.

(** What [mainFlow] does to the buffers, the registered timers and the
    pending continuations. *)
Lemma mainFlow_fields t c s :
  fromMe c = false ->
  userMessageBuffers (mainFlow t c s)
  = <[from c := {| messages := match userMessageBuffers s !! from c with
                               | Some b => messages b
                               | None => []
                               end ++ [body c];
                   lastCtx := c |}]> (userMessageBuffers s)
  /\ userActivityTimers (mainFlow t c s) = <[from c := next_id s]> (userActivityTimers s)
  /\ pending (mainFlow t c s)
     = <[next_id s := InactivityTimer (t + USER_INACTIVITY_TIMEOUT_MS) (from c)]>
         (match userActivityTimers s !! from c with
          | Some timerId => delete timerId (pending s)
          | None => pending s
          end)
  /\ userLocks (mainFlow t c s) = userLocks s
  /\ botSentMessages (mainFlow t c s) = botSentMessages s
  /\ userQueues (mainFlow t c s) = userQueues s
  /\ arrays (mainFlow t c s) = arrays s
  /\ next_array (mainFlow t c s) = next_array s
  /\ outputs (mainFlow t c s) = outputs s.
Proof.
  intros Hme. unfold mainFlow. rewrite Hme. simpl.
  destruct (userActivityTimers s !! from c); simpl;
    destruct (userMessageBuffers s !! from c); repeat split; reflexivity.
Qed.

Lemma mainFlow_buffered_ok t c s :
  timers_ok s -> buffered_ok s -> buffered_ok (mainFlow t c s).
Proof.
  intros Hok [H1 H2]. destruct (fromMe c) eqn:Hme.
  { unfold mainFlow. rewrite Hme. split; assumption. }
  pose proof (timers_ok_fresh s Hok) as Hf.
  destruct (mainFlow_fields t c s Hme) as (Eb & Et & Ep & _).
  assert (Hother : forall u k d,
            u <> from c -> userActivityTimers s !! u = Some k ->
            pending s !! k = Some (InactivityTimer d u) ->
            pending (mainFlow t c s) !! k = Some (InactivityTimer d u)).
  { intros u k d Hne Hk Hp. rewrite Ep.
    rewrite lookup_insert_ne by (specialize (Hf k _ Hp); lia).
    destruct (userActivityTimers s !! from c) as [timerId|] eqn:E; [|exact Hp].
    rewrite lookup_delete_ne; [exact Hp|]. intros ->.
    destruct (registered_timer s Hok _ _ _ E Hp) as [d' [= _ Hu]]. congruence. }
  split; rewrite ?Eb, ?Et.
  - intros u b' Hb'. destruct (decide (u = from c)) as [->|Hne].
    + rewrite lookup_insert_eq in Hb'. injection Hb' as <-.
      split; [simpl; destruct (match userMessageBuffers s !! from c with
                               | Some b => messages b | None => [] end); discriminate|].
      split; [reflexivity|].
      eexists _, _. split; [apply lookup_insert_eq|]. rewrite Ep. apply lookup_insert_eq.
    + rewrite lookup_insert_ne in Hb' by congruence.
      destruct (H1 u b' Hb') as (Hm & Hu & k & d & Hk & Hp).
      split; [exact Hm|]. split; [exact Hu|]. exists k, d.
      split; [rewrite lookup_insert_ne by congruence; exact Hk|].
      exact (Hother u k d Hne Hk Hp).
  - intros u k. destruct (decide (u = from c)) as [->|Hne].
    + intros _. rewrite lookup_insert_eq. eauto.
    + rewrite !lookup_insert_ne by congruence. apply H2.
Qed.

Lemma flush_buffered_ok k d u s :
  timers_ok s -> pending s !! k = Some (InactivityTimer d u) ->
  buffered_ok s -> buffered_ok (flush u (resume k s)).
Proof.
  intros Hok Hk [H1 H2]. rewrite flush_unfold.
  pose proof (timers_ok_resume k s Hok) as Hok1.
  destruct (flush_body_flushed u (resume k s) (timers_ok_fresh _ Hok1))
    as [F1 Fb _ _ F3 _].
  split; simpl; rewrite ?F1, ?Fb; simpl.
  - intros v b Hb. apply lookup_delete_Some in Hb as [Hne Hb].
    destruct (H1 v b Hb) as (Hm & Hv & k' & d' & Hk' & Hp).
    split; [exact Hm|]. split; [exact Hv|]. exists k', d'.
    split; [rewrite lookup_delete_ne by exact Hne; exact Hk'|].
    apply F3. simpl. rewrite lookup_delete_ne; [exact Hp|].
    intros ->. rewrite Hk in Hp. injection Hp as _ ->. congruence.
  - intros v k' Hv. apply lookup_delete_Some in Hv as [Hne Hv].
    rewrite lookup_delete_ne by exact Hne. eauto.
Qed.

Lemma step_buffered_ok t e s :
  timers_ok s -> buffered_ok s -> buffered_ok (step t e s).
Proof.
  intros Hok Hb. pose proof (timers_ok_fresh s Hok) as Hf.
  assert (Hr : forall k, fresh (resume k s)).
  { intros k. apply timers_ok_fresh, timers_ok_resume, Hok. }
  destruct e as [c|msgs|k r]; simpl.
  - apply mainFlow_buffered_ok; assumption.
  - eapply buffered_ok_quiet; [apply upsert_loop_quiet, Hf|exact Hb].
  - destruct (pending s !! k) as [c|] eqn:Hk; [|exact Hb].
    assert (Hq : forall s', is_inactivity_timer c = false ->
                   quiet (resume k s) s' -> buffered_ok s').
    { intros s' Hc Q. eapply buffered_ok_quiet; [exact Q|].
      eapply buffered_ok_resume; eauto. }
    destruct c, r; try exact Hb.
    + destruct (deadline <=? t); [|exact Hb]. eapply flush_buffered_ok; eauto.
    + apply Hq; [reflexivity|].
      pose proof (quiet_suspend (ThreadTimer (t + THREAD_SAVE_DELAY_MS) (from task))
                    (resume k s) (Hr k) eq_refl) as Q.
      eapply quiet_trans; [exact Q|].
      apply send_next_quiet. eapply quiet_fresh; [apply Hr|exact Q].
    + apply Hq; [reflexivity|]. apply finish_task_quiet, Hr.
    + apply Hq; [reflexivity|].
      pose proof (record_sent_quiet t id (resume k s) (Hr k)) as Q.
      eapply quiet_trans; [exact Q|].
      apply quiet_suspend; [|reflexivity].
      eapply quiet_fresh; [apply Hr|exact Q].
    + apply Hq; [reflexivity|]. apply finish_task_quiet, Hr.
    + destruct (deadline <=? t); [|exact Hb]. apply Hq; [reflexivity|].
      apply send_next_quiet, Hr.
    + destruct (deadline <=? t); [|exact Hb]. apply Hq; [reflexivity|]. apply loop_quiet, Hr.
    + destruct (deadline <=? t); [|exact Hb].
      destruct threadId as [th|]; [|apply Hq; [reflexivity|apply quiet_refl]].
      case_bool_decide; apply Hq; try reflexivity; [apply quiet_refl|quiet_same].
    + destruct (deadline <=? t); [|exact Hb]. apply Hq; [reflexivity|apply quiet_refl].
    + destruct (deadline <=? t); [|exact Hb]. apply Hq; [reflexivity|quiet_same].
    + apply Hq; [reflexivity|]. apply upsert_loop_quiet, Hr.
    + apply Hq; [reflexivity|]. apply upsert_loop_quiet, Hr.
Qed.

Lemma run_buffered_ok es : forall s,
  timers_ok s -> buffered_ok s -> buffered_ok (run es s).
Proof.
  induction es as [|[t e] es IH]; intros s Hok Hb; simpl; [exact Hb|].
  apply IH; [apply step_timers_ok, Hok|apply step_buffered_ok; assumption].
Qed.

(** In every store that [src/src/app.ts] can reach, a client has a buffer
    exactly while an inactivity timer of the client is pending, and that
    timer is the one registered in [userActivityTimers]; the buffer holds at
    least one message and its [lastCtx] is a message of that client.  So no
    buffered message is left without a timer that will flush it, and no
    timer fires on a missing or empty buffer. *)
Theorem buffer_lives_with_its_timer (es : list (Z * event)) (u : string) :
  let s := run es empty_store in
  (is_Some (userMessageBuffers s !! u)
   <-> exists k d, pending s !! k = Some (InactivityTimer d u))
  /\ (forall k d, pending s !! k = Some (InactivityTimer d u) ->
        userActivityTimers s !! u = Some k)
  /\ (forall b, userMessageBuffers s !! u = Some b ->
        messages b <> [] /\ from (lastCtx b) = u).
Proof.
  intros s.
  assert (Hok : timers_ok s) by apply run_timers_ok, timers_ok_empty.
  assert (Hb : buffered_ok s).
  { apply run_buffered_ok; [apply timers_ok_empty|apply buffered_ok_empty]. }
  split; [split|split].
  - intros [b Hbuf]. destruct (buffer_timer s Hb u b Hbuf) as (_ & _ & k & d & _ & Hp). eauto.
  - intros (k & d & Hp). apply (timer_buffer s Hb u k).
    exact (timer_registered s Hok k d u Hp).
  - intros k d Hp. exact (timer_registered s Hok k d u Hp).
  - intros b Hbuf. destruct (buffer_timer s Hb u b Hbuf) as (Hm & Hu & _). auto.
Qed.

End AppBuffers.

(** ** [src/src/app.ts]: the ids of sent messages, and the lock *)

Module AppEvict.
Import Js App AppTimers AppBuffers.

Local Open Scope Z_scope.

(** Every id in [botSentMessages] has a timer pending that will remove it. *)
Definition evict_ok (s : store) : Prop :=
  forall id, id ∈ botSentMessages s ->
    exists k d, pending s !! k = Some (EvictTimer d id).

Definition is_evict_timer (c : cont) : bool :=
  match c with EvictTimer _ _ => true | _ => false end.

Lemma evict_ok_keep s s' :
  botSentMessages s' = botSentMessages s ->
  (forall k c, pending s !! k = Some c -> pending s' !! k = Some c) ->
  evict_ok s -> evict_ok s'.
Proof.
  intros E Hold H id. rewrite E. intros Hin.
  destruct (H id Hin) as (k & d & Hk). eauto.
Qed.

Lemma evict_ok_resume k c s :
  pending s !! k = Some c -> is_evict_timer c = false ->
  evict_ok s -> evict_ok (resume k s).
Proof.
  intros Hk Hc H id Hin. destruct (H id Hin) as (k' & d & Hk').
  exists k', d. simpl. rewrite lookup_delete_ne; [exact Hk'|].
  intros ->. rewrite Hk in Hk'. injection Hk' as ->. discriminate.
Qed.

Ltac split_cases :=
  repeat (simpl; match goal with
                 | |- context [match ?x with _ => _ end] => destruct x
                 end).

Lemma finish_task_sent t u q s : botSentMessages (finish_task t u q s) = botSentMessages s.
Proof. unfold finish_task, loop, after_loop, processUserMessage. split_cases; reflexivity. Qed.

Lemma loop_sent u q s : botSentMessages (loop u q s) = botSentMessages s.
Proof. unfold loop, after_loop, processUserMessage. split_cases; reflexivity. Qed.

Lemma send_next_sent t u q task chunks s :
  botSentMessages (send_next t u q task chunks s) = botSentMessages s.
Proof. destruct chunks; simpl; [apply finish_task_sent|reflexivity]. Qed.

Lemma flush_sent u s : botSentMessages (flush u s) = botSentMessages s.
Proof.
  rewrite flush_unfold. simpl.
  unfold flush_body, handleQueue, loop, after_loop, processUserMessage.
  split_cases; reflexivity.
Qed.

Lemma upsert_loop_sent msgs : forall s,
  botSentMessages (upsert_loop msgs s) = botSentMessages s.
Proof.
  induction msgs as [|msg rest IH]; intros s; simpl; [reflexivity|].
  destruct (_ || _); [apply IH|].
  destruct (extractTextFromMessage msg); [|apply IH].
  destruct (key_fromMe msg); [|apply IH].
  case_bool_decide; [apply IH|].
  destruct (clientThreadIds s !! remoteJid msg); [|rewrite IH; reflexivity].
  unfold syncManualMessageToOpenAI.
  destruct (thread_of s (remoteJid msg)); [reflexivity|]. rewrite IH. reflexivity.
Qed.

Lemma flush_keeps k c u s :
  fresh s -> pending s !! k = Some c -> pending (flush u s) !! k = Some c.
Proof.
  intros Hf Hk. rewrite flush_unfold. simpl.
  destruct (flush_body_flushed u s Hf) as [_ _ _ _ F3 _]. auto.
Qed.

Lemma step_evict_ok t e s : timers_ok s -> evict_ok s -> evict_ok (step t e s).
Proof.
  intros Hok He. pose proof (timers_ok_fresh s Hok) as Hf.
  assert (Hr : forall k, fresh (resume k s)).
  { intros k. apply timers_ok_fresh, timers_ok_resume, Hok. }
  destruct e as [c|msgs|k r]; simpl.
  - destruct (fromMe c) eqn:Hme; [unfold mainFlow; rewrite Hme; exact He|].
    destruct (mainFlow_fields t c s Hme) as (_ & _ & Ep & _ & Es & _).
    intros id. rewrite Es. intros Hin. destruct (He id Hin) as (k & d & Hk).
    exists k, d. rewrite Ep.
    rewrite lookup_insert_ne by (specialize (Hf k _ Hk); lia).
    destruct (userActivityTimers s !! from c) as [timerId|] eqn:E; [|exact Hk].
    rewrite lookup_delete_ne; [exact Hk|]. intros ->.
    destruct (registered_timer s Hok _ _ _ E Hk) as [d' [=]].
  - eapply evict_ok_keep; [apply upsert_loop_sent| |exact He].
    apply (quiet_old s _ (upsert_loop_quiet msgs s Hf)).
  - destruct (pending s !! k) as [c|] eqn:Hk; [|exact He].
    assert (Hq : forall s', is_evict_timer c = false ->
                   botSentMessages s' = botSentMessages s ->
                   quiet (resume k s) s' -> evict_ok s').
    { intros s' Hc Es Q. apply (evict_ok_keep (resume k s) s'); [exact Es|exact (quiet_old _ _ Q)|].
      eapply evict_ok_resume; eauto. }
    destruct c, r; try exact He.
    + destruct (deadline <=? t); [|exact He].
      apply (evict_ok_keep (resume k s)); [apply flush_sent| |eapply evict_ok_resume; eauto].
      intros k' c' Hk'. apply flush_keeps; [apply Hr|exact Hk'].
    + pose proof (quiet_suspend (ThreadTimer (t + THREAD_SAVE_DELAY_MS) (from task))
                    (resume k s) (Hr k) eq_refl) as Q.
      apply Hq; [reflexivity|rewrite send_next_sent; reflexivity|].
      eapply quiet_trans; [exact Q|].
      apply send_next_quiet. eapply quiet_fresh; [apply Hr|exact Q].
    + apply Hq; [reflexivity|rewrite finish_task_sent; reflexivity|].
      apply finish_task_quiet, Hr.
    + pose proof (record_sent_quiet t id (resume k s) (Hr k)) as Q.
      assert (He1 : evict_ok (record_sent t id (resume k s))).
      { pose proof (evict_ok_resume k _ s Hk eq_refl He) as He0.
        unfold record_sent. destruct id as [id|]; [|exact He0].
        case_bool_decide; [exact He0|].
        intros id'. simpl. rewrite elem_of_union, elem_of_singleton. intros [->|Hin].
        - eexists _, _. apply lookup_insert_eq.
        - destruct (He0 id' Hin) as (k' & d & Hk'). exists k', d.
          rewrite lookup_insert_ne; [exact Hk'|].
          pose proof (Hr k k' _ Hk') as Hlt. simpl in Hlt. lia. }
      apply (evict_ok_keep (record_sent t id (resume k s))); [reflexivity| |exact He1].
      apply (quiet_old _ _ (quiet_suspend (AwaitPacing (t + CHUNK_DELAY_MS) userId queue task rest) _
                              (quiet_fresh _ _ (Hr k) Q) eq_refl)).
    + apply Hq; [reflexivity|rewrite finish_task_sent; reflexivity|].
      apply finish_task_quiet, Hr.
    + destruct (deadline <=? t); [|exact He].
      apply Hq; [reflexivity|rewrite send_next_sent; reflexivity|].
      apply send_next_quiet, Hr.
    + destruct (deadline <=? t); [|exact He].
      apply Hq; [reflexivity|rewrite loop_sent; reflexivity|]. apply loop_quiet, Hr.
    + destruct (deadline <=? t); [|exact He].
      destruct threadId as [th|]; [|apply Hq; [reflexivity|reflexivity|apply quiet_refl]].
      case_bool_decide; apply Hq; try reflexivity; [apply quiet_refl|quiet_same].
    + destruct (deadline <=? t); [|exact He].
      apply Hq; [reflexivity|reflexivity|apply quiet_refl].
    + destruct (deadline <=? t); [|exact He].
      intros id'. simpl. rewrite elem_of_difference, elem_of_singleton.
      intros [Hin Hne]. destruct (He id' Hin) as (k' & d & Hk'). exists k', d.
      rewrite lookup_delete_ne; [exact Hk'|]. intros ->. congruence.
    + apply Hq; [reflexivity|rewrite upsert_loop_sent; reflexivity|].
      apply upsert_loop_quiet, Hr.
    + apply Hq; [reflexivity|rewrite upsert_loop_sent; reflexivity|].
      apply upsert_loop_quiet, Hr.
Qed.

(** In every store that [src/src/app.ts] can reach, each id in
    [botSentMessages] has a timer pending that removes it when it fires: no
    id of a sent chunk stays in the set without end. *)
Theorem sent_ids_have_eviction_timers (es : list (Z * event)) (id : string) :
  let s := run es empty_store in
  id ∈ botSentMessages s ->
  exists k d,
    pending s !! k = Some (EvictTimer d id)
    /\ forall t, d <= t -> id ∉ botSentMessages (step t (Resume k TimerDue) s).
Proof.
  intros s Hin.
  assert (H : forall es s0, timers_ok s0 -> evict_ok s0 -> evict_ok (run es s0)).
  { clear. induction es as [|[t e] es IH]; intros s0 Hok He; simpl; [exact He|].
    apply IH; [apply step_timers_ok, Hok|apply step_evict_ok; assumption]. }
  assert (He : evict_ok s).
  { apply H; [apply timers_ok_empty|]. intros id'. simpl. set_solver. }
  destruct (He id Hin) as (k & d & Hk). exists k, d. split; [exact Hk|].
  intros t Hd. simpl. rewrite Hk. apply Z.leb_le in Hd. rewrite Hd. simpl.
  rewrite elem_of_difference, elem_of_singleton. tauto.
Qed.

(** One chunk of an answer has been sent and its id recorded. *)
Definition one_chunk_sent : list (Z * event) :=
  [(0, Message AppBurst.hola);
   (6000, Resume 0 TimerDue);
   (9000, Resume 1 (AskResolved (u16 "Buenas")));
   (9100, Resume 3 (SendResolved (Some "MSG1")))].

Lemma sent_ids_have_eviction_timers_witness :
  exists k d,
    pending (run one_chunk_sent empty_store) !! k = Some (EvictTimer d "MSG1")
    /\ forall t, d <= t ->
         "MSG1" ∉ botSentMessages (step t (Resume k TimerDue) (run one_chunk_sent empty_store)).
Proof.
  apply (sent_ids_have_eviction_timers one_chunk_sent "MSG1").
  vm_compute. reflexivity.
Defined.

End AppEvict.

(** ** [src/src/app.ts]: every enqueued task is asked once or still waits *)

Module AppAccounting.
Import Js App AppTimers AppQueue AppBuffers.

Local Open Scope Z_scope.

(** The bodies of the tasks [toAsk] was called for, for [u], newest first. *)
Definition asked_for (u : string) (outs : list output) : list str :=
  omap (fun o => match o with
                 | AskBackend v ctx_body => if bool_decide (v = u) then Some ctx_body else None
                 | _ => None
                 end) outs.

Definition of_user (u : string) (task : ctx) : bool := bool_decide (from task = u).

(** The tasks of [u] in the arrays, those of the queue entries and those
    that only a drain still holds. *)
Definition waiting (u : string) (s : store) : list ctx :=
  concat (map (fun q => List.filter (of_user u) (array_of s q)) (seq 0 (next_array s))).

(** The tasks enqueued for [u] are those asked and those waiting. *)
Definition balanced (u : string) (s : store) : Prop :=
  map body (enqueued_for u (outputs s))
  ≡ₚ asked_for u (outputs s) ++ map body (waiting u s).

Definition owned_by (u : string) (tasks : list ctx) : Prop :=
  Forall (fun task => from task = u) tasks.

(** The arrays a user's entry or drains point to hold tasks of that user
    only. *)
Record acct (s : store) : Prop := {
  acct_entry : forall u q, userQueues s !! u = Some q -> owned_by u (array_of s q);
  acct_drain : forall k c u q,
    pending s !! k = Some c -> drain_of c = Some (u, q) -> owned_by u (array_of s q);
  acct_balanced : forall u, balanced u s
}.

Lemma acct_empty : acct empty_store.
Proof.
  split; simpl.
  - intros u q. rewrite lookup_empty. discriminate.
  - intros k c u q. rewrite lookup_empty. discriminate.
  - intros u. unfold balanced. simpl. reflexivity.
Qed.

(** *** The arrays *)

Lemma concat_same {A} (f g : nat -> list A) (n start : nat) :
  (forall i, (start <= i < start + n)%nat -> f i = g i) ->
  concat (map f (seq start n)) = concat (map g (seq start n)).
Proof.
  revert start. induction n as [|n IH]; intros start H; simpl; [reflexivity|].
  rewrite (H start) by lia. f_equal. apply IH. intros i Hi. apply H. lia.
Qed.

Lemma concat_point {A} (f g : nat -> list A) (q : nat) (x : list A) (n : nat) : forall start,
  (forall i, i <> q -> f i = g i) ->
  (start <= q < start + n)%nat ->
  f q ≡ₚ x ++ g q ->
  concat (map f (seq start n)) ≡ₚ x ++ concat (map g (seq start n)).
Proof.
  induction n as [|n IH]; intros start Hother Hq Hx; simpl; [lia|].
  destruct (decide (start = q)) as [->|Hne].
  - rewrite Hx. rewrite (concat_same f g n (S q)).
    + rewrite <- app_assoc. reflexivity.
    + intros i Hi. apply Hother. lia.
  - rewrite (Hother start Hne). rewrite (IH (S start) Hother) by (lia || exact Hx).
    rewrite !app_assoc. apply Permutation_app_tail, Permutation_app_comm.
Qed.

Lemma waiting_same u s s' :
  next_array s' = next_array s ->
  (forall q, (q < next_array s)%nat -> array_of s' q = array_of s q) ->
  waiting u s' = waiting u s.
Proof.
  intros En Ha. unfold waiting. rewrite En. apply concat_same.
  intros i Hi. rewrite Ha by lia. reflexivity.
Qed.

Lemma waiting_change u s s' q x :
  next_array s' = next_array s -> (q < next_array s)%nat ->
  (forall q', q' <> q -> array_of s' q' = array_of s q') ->
  List.filter (of_user u) (array_of s q) ≡ₚ x ++ List.filter (of_user u) (array_of s' q) ->
  waiting u s ≡ₚ x ++ waiting u s'.
Proof.
  intros En Hq Hother Hx. unfold waiting. rewrite En.
  apply (concat_point _ _ q x); [|lia|exact Hx].
  intros i Hi. rewrite (Hother i Hi). reflexivity.
Qed.

Lemma array_of_insert_eq q l s f :
  arrays (f s) = <[q := l]> (arrays s) -> array_of (f s) q = l.
Proof. unfold array_of. intros ->. rewrite lookup_insert_eq. reflexivity. Qed.

(** *** Steps that leave the arrays and the accounts alone *)

Lemma acct_frame s s' :
  (forall u q, userQueues s' !! u = Some q -> userQueues s !! u = Some q) ->
  arrays s' = arrays s -> next_array s' = next_array s ->
  (forall u, enqueued_for u (outputs s') = enqueued_for u (outputs s)) ->
  (forall u, asked_for u (outputs s') = asked_for u (outputs s)) ->
  (forall k c u q, pending s' !! k = Some c -> drain_of c = Some (u, q) ->
     owned_by u (array_of s q)) ->
  acct s -> acct s'.
Proof.
  intros Hq Ea En Ee Eask Hd [H1 H2 H3].
  assert (Harr : forall q, array_of s' q = array_of s q).
  { intros q. unfold array_of. rewrite Ea. reflexivity. }
  split.
  - intros u q Hu. rewrite Harr. apply H1, Hq, Hu.
  - intros k c u q Hk Hc. rewrite Harr. eapply Hd; eauto.
  - intros u. unfold balanced. rewrite Ee, Eask.
    rewrite (waiting_same u s s' En (fun q _ => Harr q)). apply H3.
Qed.

Lemma acct_same s s' :
  userQueues s' = userQueues s -> arrays s' = arrays s -> next_array s' = next_array s ->
  (forall u, enqueued_for u (outputs s') = enqueued_for u (outputs s)) ->
  (forall u, asked_for u (outputs s') = asked_for u (outputs s)) ->
  pending s' = pending s ->
  acct s -> acct s'.
Proof.
  intros Eq Ea En Ee Eask Ep H. apply (acct_frame s s'); try assumption.
  - intros u q. rewrite Eq. auto.
  - intros k c u q. rewrite Ep. apply (acct_drain s H).
Qed.

Ltac same := apply acct_same; solve [reflexivity | intros; reflexivity].

Lemma acct_resume k s : acct s -> acct (resume k s).
Proof.
  intros H. apply (acct_frame s); try reflexivity; try (intros; reflexivity); auto.
  intros k' c u q Hk'. simpl in Hk'. apply lookup_delete_Some in Hk' as [_ Hk'].
  apply (acct_drain s H k' c u q Hk').
Qed.

Lemma acct_suspend_drain c u q s :
  drain_of c = Some (u, q) -> owned_by u (array_of s q) -> acct s -> acct (suspend c s).
Proof.
  intros Hc Ho H. apply (acct_frame s); try reflexivity; try (intros; reflexivity); auto.
  intros k c' u' q' Hk. simpl in Hk. rewrite lookup_insert in Hk. case_decide.
  - injection Hk as <-. rewrite Hc. intros [= <- <-]. exact Ho.
  - apply (acct_drain s H k c' u' q' Hk).
Qed.

Lemma acct_suspend_idle c s : drain_of c = None -> acct s -> acct (suspend c s).
Proof.
  intros Hc H. apply (acct_frame s); try reflexivity; try (intros; reflexivity); auto.
  intros k c' u' q' Hk. simpl in Hk. rewrite lookup_insert in Hk. case_decide.
  - injection Hk as <-. rewrite Hc. discriminate.
  - apply (acct_drain s H k c' u' q' Hk).
Qed.

Lemma acct_unqueue u s : acct s -> acct (with_locks (delete u) (with_queues (delete u) s)).
Proof.
  intros H. apply (acct_frame s); try reflexivity; try (intros; reflexivity).
  - intros v q Hv. simpl in Hv. apply lookup_delete_Some in Hv as [_ Hv]. exact Hv.
  - apply (acct_drain s H).
  - exact H.
Qed.

(** *** [shift] and [push] *)

Lemma balanced_shift task (E A : list str) (W W' : list ctx) :
  E ≡ₚ A ++ map body W -> W ≡ₚ [task] ++ W' ->
  E ≡ₚ (body task :: A) ++ map body W'.
Proof.
  intros HE HW. rewrite HE, HW. simpl. symmetry. apply Permutation_middle.
Qed.

Lemma balanced_push task (E A : list str) (W W' : list ctx) :
  E ≡ₚ A ++ map body W -> W' ≡ₚ [task] ++ W ->
  body task :: E ≡ₚ A ++ map body W'.
Proof.
  intros HE HW. rewrite HE, HW. simpl. apply Permutation_middle.
Qed.

(** The drain of [u] takes the first task of its array and calls the
    backend with it. *)
Lemma acct_shift u q task rest f s :
  array_of s q = task :: rest -> (q < next_array s)%nat -> from task = u ->
  acct s ->
  acct (emit (AskBackend u (body task)) (with_arrays (insert q rest) (with_locks f s))).
Proof.
  intros Ha Hq Hu [H1 H2 H3].
  set (s' := emit _ _).
  assert (Hhere : array_of s' q = rest).
  { unfold array_of. subst s'. simpl. rewrite lookup_insert_eq. reflexivity. }
  assert (Hother : forall q', q' <> q -> array_of s' q' = array_of s q').
  { intros q' Hne. unfold array_of. subst s'. simpl.
    rewrite lookup_insert_ne by congruence. reflexivity. }
  assert (Hown : forall v q', owned_by v (array_of s q') -> owned_by v (array_of s' q')).
  { intros v q' H. destruct (decide (q' = q)) as [->|Hne].
    - rewrite Hhere. rewrite Ha in H. inversion H; assumption.
    - rewrite Hother by exact Hne. exact H. }
  split.
  - intros v q' Hv. apply Hown. apply H1. exact Hv.
  - intros k c v q' Hk Hc. apply Hown. eapply H2; eauto.
  - intros v. unfold balanced. subst s'. simpl. destruct (decide (u = v)) as [->|Hne].
    + rewrite bool_decide_eq_true_2 by reflexivity.
      apply (balanced_shift task _ _ (waiting v s)); [apply H3|].
      apply (waiting_change v s _ q [task]); [reflexivity|exact Hq|exact Hother|].
      rewrite Hhere, Ha. simpl. unfold of_user at 1.
      rewrite bool_decide_eq_true_2 by exact Hu. reflexivity.
    + rewrite bool_decide_eq_false_2 by exact Hne.
      assert (Hw : waiting v s ≡ₚ [] ++ waiting v (emit (AskBackend u (body task))
                     (with_arrays (insert q rest) (with_locks f s)))).
      { apply (waiting_change v s _ q []); [reflexivity|exact Hq|exact Hother|].
        rewrite Hhere, Ha. simpl. unfold of_user at 1.
        rewrite bool_decide_eq_false_2 by congruence. reflexivity. }
      simpl in Hw. rewrite <- Hw. apply H3.
Qed.

(** The flush of [u] puts a task at the end of the array of [u]. *)
Lemma acct_push u q task s :
  userQueues s !! u = Some q -> (q < next_array s)%nat -> from task = u ->
  (forall v, userQueues s !! v = Some q -> v = u) ->
  (forall k c v, pending s !! k = Some c -> drain_of c = Some (v, q) -> v = u) ->
  acct s ->
  acct (emit (Enqueued u task) (with_arrays (insert q (array_of s q ++ [task])) s)).
Proof.
  intros Hentry Hq Hu Hin Hdr [H1 H2 H3].
  set (s' := emit _ _).
  assert (Hhere : array_of s' q = array_of s q ++ [task]).
  { unfold array_of at 1. subst s'. simpl. rewrite lookup_insert_eq. reflexivity. }
  assert (Hother : forall q', q' <> q -> array_of s' q' = array_of s q').
  { intros q' Hne. unfold array_of. subst s'. simpl.
    rewrite lookup_insert_ne by congruence. reflexivity. }
  assert (Hown : forall v q', (q' = q -> v = u) ->
            owned_by v (array_of s q') -> owned_by v (array_of s' q')).
  { intros v q' Hv H. destruct (decide (q' = q)) as [->|Hne].
    - rewrite Hhere. apply Forall_app. split; [exact H|].
      repeat constructor. rewrite (Hv eq_refl). exact Hu.
    - rewrite Hother by exact Hne. exact H. }
  split.
  - intros v q' Hv. apply Hown; [|apply H1; exact Hv].
    intros ->. apply Hin. exact Hv.
  - intros k c v q' Hk Hc. apply Hown; [|eapply H2; eauto].
    intros ->. eapply Hdr; eauto.
  - intros v. unfold balanced. subst s'. simpl. destruct (decide (u = v)) as [->|Hne].
    + rewrite bool_decide_eq_true_2 by reflexivity. simpl.
      apply (balanced_push task _ _ (waiting v s)); [apply H3|].
      apply (waiting_change v _ s q [task]); [reflexivity|exact Hq| |].
      * intros q' Hne. symmetry. apply Hother, Hne.
      * rewrite Hhere, List.filter_app. simpl. unfold of_user at 2.
        rewrite bool_decide_eq_true_2 by exact Hu.
        symmetry. apply Permutation_cons_append.
    + rewrite bool_decide_eq_false_2 by exact Hne.
      assert (Hw : waiting v (emit (Enqueued u task)
                     (with_arrays (insert q (array_of s q ++ [task])) s))
                   ≡ₚ [] ++ waiting v s).
      { apply (waiting_change v _ s q []); [reflexivity|exact Hq| |].
        - intros q' Hn. symmetry. apply Hother, Hn.
        - rewrite Hhere, List.filter_app. simpl. unfold of_user at 2.
          rewrite bool_decide_eq_false_2 by congruence. rewrite app_nil_r. reflexivity. }
      simpl in Hw. rewrite Hw. apply H3.
Qed.

(** [userQueues.set(clientId, [])] *)
Lemma acct_new_queue u s :
  (forall v q, userQueues s !! v = Some q -> (q < next_array s)%nat) ->
  (forall k c v q, pending s !! k = Some c -> drain_of c = Some (v, q) ->
     (q < next_array s)%nat) ->
  acct s -> acct (new_queue u s).
Proof.
  intros Hfe Hfd [H1 H2 H3].
  assert (Hold : forall q, (q < next_array s)%nat -> array_of (new_queue u s) q = array_of s q).
  { intros q Hq. unfold array_of. simpl. rewrite lookup_insert_ne by lia. reflexivity. }
  split.
  - intros v q. simpl. rewrite lookup_insert. case_decide.
    + intros [= <-]. unfold array_of. simpl. rewrite lookup_insert_eq. constructor.
    + intros Hv. rewrite Hold by (eapply Hfe; eauto). apply H1, Hv.
  - intros k c v q Hk Hc. simpl in Hk. rewrite Hold by (eapply Hfd; eauto). eapply H2; eauto.
  - intros v. unfold balanced. simpl outputs.
    assert (Hw : waiting v (new_queue u s) = waiting v s).
    { unfold waiting. simpl next_array. rewrite seq_S, map_app, concat_app. simpl.
      unfold array_of at 2. simpl. rewrite lookup_insert_eq. simpl. rewrite app_nil_r.
      apply concat_same. intros i Hi. rewrite Hold by lia. reflexivity. }
    rewrite Hw. apply H3.
Qed.

(** *** The functions of the queue *)

Lemma after_loop_acct u q s : acct s -> acct (after_loop u q s).
Proof.
  intros H. unfold after_loop. destruct (array_of s q); [|exact H].
  destruct (locked s u); [exact H|apply acct_unqueue, H].
Qed.

Lemma loop_acct u q s :
  owned_by u (array_of s q) -> (q < next_array s)%nat -> acct s -> acct (loop u q s).
Proof.
  intros Ho Hq H. unfold loop. destruct (array_of s q) as [|task rest] eqn:Ha;
    [apply after_loop_acct, H|].
  destruct (locked s u); [exact H|].
  unfold owned_by in Ho. apply Forall_cons in Ho as [Htask Hrest].
  unfold processUserMessage. apply (acct_suspend_drain _ u q); [reflexivity| |].
  - unfold array_of. simpl. rewrite lookup_insert_eq. exact Hrest.
  - apply acct_shift; auto.
Qed.

Lemma handleQueue_acct u s :
  (forall q, userQueues s !! u = Some q -> (q < next_array s)%nat) ->
  acct s -> acct (handleQueue u s).
Proof.
  intros Hf H. unfold handleQueue. destruct (userQueues s !! u) as [q|] eqn:Hu.
  - destruct (locked s u); [exact H|].
    apply loop_acct; [exact (acct_entry s H u q Hu)|exact (Hf q eq_refl)|exact H].
  - revert H. same.
Qed.

Lemma finish_task_acct t u q s :
  owned_by u (array_of s q) -> (q < next_array s)%nat -> acct s ->
  acct (finish_task t u q s).
Proof.
  intros Ho Hq H. unfold finish_task.
  set (s1 := with_locks (insert u false) s).
  assert (H1 : acct s1) by (revert H; same).
  destruct (array_of s1 q) eqn:Ha.
  - apply loop_acct; assumption.
  - apply (acct_suspend_drain _ u q); [reflexivity|exact Ho|exact H1].
Qed.

Lemma send_next_acct t u q task chunks s :
  owned_by u (array_of s q) -> (q < next_array s)%nat -> acct s ->
  acct (send_next t u q task chunks s).
Proof.
  intros Ho Hq H. destruct chunks as [|chunk rest]; simpl.
  - apply finish_task_acct; assumption.
  - apply (acct_suspend_drain _ u q); [reflexivity|exact Ho|]. revert H. same.
Qed.

Lemma record_sent_acct t id s : acct s -> acct (record_sent t id s).
Proof.
  intros H. unfold record_sent. destruct id as [id|]; [|exact H].
  case_bool_decide; [exact H|].
  apply acct_suspend_idle; [reflexivity|]. revert H. same.
Qed.

Lemma upsert_loop_acct msgs : forall s, acct s -> acct (upsert_loop msgs s).
Proof.
  induction msgs as [|msg rest IH]; intros s H; simpl; [exact H|].
  assert (Hemit : forall o,
            match o with AppendMessage _ _ | Warn _ => True | _ => False end ->
            acct (emit o s)).
  { intros o Ho. revert H. destruct o; try contradiction; same. }
  destruct (_ || _); [apply IH, H|].
  destruct (extractTextFromMessage msg); [|apply IH, H].
  destruct (key_fromMe msg); [|apply IH, H].
  case_bool_decide; [apply IH, H|].
  destruct (clientThreadIds s !! remoteJid msg); [|apply IH, Hemit; exact I].
  unfold syncManualMessageToOpenAI.
  destruct (thread_of s (remoteJid msg)); [|apply IH, Hemit; exact I].
  apply acct_suspend_idle; [reflexivity|]. apply Hemit. exact I.
Qed.

Lemma mainFlow_acct t c s : acct s -> acct (mainFlow t c s).
Proof.
  intros H. destruct (fromMe c) eqn:Hme; [unfold mainFlow; rewrite Hme; exact H|].
  destruct (mainFlow_fields t c s Hme) as (_ & _ & Ep & _ & _ & Eq & Ea & En & Eo).
  apply (acct_frame s); try assumption.
  - intros u q. rewrite Eq. auto.
  - intros u. rewrite Eo. reflexivity.
  - intros u. rewrite Eo. reflexivity.
  - intros k c' u q. rewrite Ep, lookup_insert. case_decide; [intros [= <-]; discriminate|].
    intros Hk. apply (acct_drain s H k c' u q).
    destruct (userActivityTimers s !! from c); [|exact Hk].
    apply lookup_delete_Some in Hk as [_ Hk]. exact Hk.
Qed.

Lemma flush_body_acct u s :
  base s ->
  (forall b, userMessageBuffers s !! u = Some b -> from (lastCtx b) = u) ->
  acct s -> acct (flush_body u s).
Proof.
  intros Hb Hbuf H. unfold flush_body.
  destruct (userMessageBuffers s !! u) as [b|] eqn:Eb; [|exact H].
  destruct (messages b) as [|m ms]; [exact H|].
  set (task := with_body (lastCtx b) _).
  assert (Htask : from task = u) by (subst task; simpl; apply Hbuf; reflexivity).
  set (s1 := match userQueues s !! u with None => new_queue u s | Some _ => s end).
  assert (H1 : acct s1).
  { subst s1. destruct (userQueues s !! u); [exact H|].
    apply acct_new_queue; [exact (fresh_entry s Hb)|exact (fresh_drain s Hb)|exact H]. }
  assert (Hfresh : forall v q, userQueues s1 !! v = Some q -> (q < next_array s1)%nat).
  { subst s1. destruct (userQueues s !! u) eqn:Eu; [exact (fresh_entry s Hb)|].
    intros v q. simpl. rewrite lookup_insert. case_decide.
    - intros [= <-]. lia.
    - intros Hv. pose proof (fresh_entry s Hb v q Hv). lia. }
  assert (Hin : forall v q, userQueues s1 !! u = Some q -> userQueues s1 !! v = Some q -> v = u).
  { subst s1. destruct (userQueues s !! u) eqn:Eu.
    - intros v q Hq Hv. exact (entry_inj s Hb v u q Hv Hq).
    - intros v q. simpl. rewrite lookup_insert_eq. intros [= <-].
      rewrite lookup_insert. case_decide; [congruence|].
      intros Hv. pose proof (fresh_entry s Hb v _ Hv). lia. }
  assert (Hdr : forall k c v q, userQueues s1 !! u = Some q ->
            pending s1 !! k = Some c -> drain_of c = Some (v, q) -> v = u).
  { subst s1. destruct (userQueues s !! u) eqn:Eu.
    - intros k c v q Hq Hk Hc. symmetry. exact (drain_owner s Hb k c v q u Hk Hc Hq).
    - intros k c v q. simpl. rewrite lookup_insert_eq. intros [= <-] Hk Hc.
      pose proof (fresh_drain s Hb k c v _ Hk Hc). lia. }
  destruct (userQueues s1 !! u) as [q|] eqn:Eq; [|exact H1].
  set (s2 := emit (Enqueued u task) (with_arrays (insert q (array_of s1 q ++ [task])) s1)).
  assert (H2 : acct s2).
  { apply acct_push; [exact Eq|exact (Hfresh u q Eq)|exact Htask| | |exact H1].
    - intros v Hv. exact (Hin v q eq_refl Hv).
    - intros k c v Hk Hc. exact (Hdr k c v q eq_refl Hk Hc). }
  change (acct (if locked s2 u then s2 else handleQueue u s2)).
  destruct (locked s2 u); [exact H2|].
  apply handleQueue_acct; [|exact H2].
  intros q' Hq'. exact (Hfresh u q' Hq').
Qed.

Lemma step_acct t e s :
  timers_ok s -> inv s -> buffered_ok s -> acct s -> acct (step t e s).
Proof.
  intros Hok Hi Hbuf H. pose proof (inv_base s Hi) as Hb.
  destruct e as [c|msgs|k r]; simpl.
  - apply mainFlow_acct, H.
  - apply upsert_loop_acct, H.
  - destruct (pending s !! k) as [c|] eqn:Hk; [|exact H].
    pose proof (acct_resume k s H) as H0.
    assert (Hdrain : forall u q, drain_of c = Some (u, q) ->
              owned_by u (array_of (resume k s) q) /\ (q < next_array (resume k s))%nat).
    { intros u q Hc. split; [exact (acct_drain s H k c u q Hk Hc)|].
      exact (fresh_drain s Hb k c u q Hk Hc). }
    destruct c, r; try exact H.
    + destruct (deadline <=? t); [|exact H]. rewrite flush_unfold.
      assert (H1 : acct (flush_body clientId (resume k s))).
      { apply flush_body_acct; [apply base_resume, Hb| |exact H0].
        intros b Hbf. destruct (buffer_timer s Hbuf clientId b Hbf) as (_ & Hu & _). exact Hu. }
      revert H1. same.
    + destruct (Hdrain userId queue eq_refl) as [Ho Hq].
      apply send_next_acct; [exact Ho|exact Hq|].
      apply acct_suspend_idle; [reflexivity|exact H0].
    + destruct (Hdrain userId queue eq_refl) as [Ho Hq].
      apply finish_task_acct; assumption.
    + destruct (Hdrain userId queue eq_refl) as [Ho Hq].
      apply (acct_suspend_drain _ userId queue); [reflexivity| |apply record_sent_acct, H0].
      unfold record_sent. destruct id as [id|]; [case_bool_decide|]; exact Ho.
    + destruct (Hdrain userId queue eq_refl) as [Ho Hq].
      apply finish_task_acct; assumption.
    + destruct (deadline <=? t); [|exact H].
      destruct (Hdrain userId queue eq_refl) as [Ho Hq].
      apply send_next_acct; assumption.
    + destruct (deadline <=? t); [|exact H].
      destruct (Hdrain userId queue eq_refl) as [Ho Hq].
      apply loop_acct; assumption.
    + destruct (deadline <=? t); [|exact H].
      destruct threadId as [th|]; [|exact H0].
      case_bool_decide; [exact H0|]. revert H0. same.
    + destruct (deadline <=? t); [exact H0|exact H].
    + destruct (deadline <=? t); [|exact H]. revert H0. same.
    + apply upsert_loop_acct, H0.
    + apply upsert_loop_acct, H0.
Qed.

Lemma run_acct es : forall s,
  timers_ok s -> inv s -> buffered_ok s -> acct s -> acct (run es s).
Proof.
  induction es as [|[t e] es IH]; intros s Hok Hi Hbuf H; simpl; [exact H|].
  apply IH; [apply step_timers_ok, Hok|apply step_inv; assumption|
             apply step_buffered_ok; assumption|apply step_acct; assumption].
Qed.

(** In every store that [src/src/app.ts] can reach, and for every user,
    the tasks enqueued for the user are, by their bodies and up to their
    order, the tasks [toAsk] was called for together with the tasks of the
    user that are still in an array: the backend is asked only for tasks
    that were enqueued, never twice for one task, and a task that has not
    been asked is still in its array.  So there are never more backend
    calls for a user than tasks enqueued for it. *)
Theorem enqueued_tasks_are_asked_once (es : list (Z * event)) (u : string) :
  let s := run es empty_store in
  map body (enqueued_for u (outputs s))
  ≡ₚ asked_for u (outputs s) ++ map body (waiting u s)
  /\ (length (asked_for u (outputs s)) <= length (enqueued_for u (outputs s)))%nat.
Proof.
  intros s.
  assert (H : acct s).
  { apply run_acct; [apply timers_ok_empty|apply inv_empty|apply buffered_ok_empty|
                     apply acct_empty]. }
  pose proof (acct_balanced s H u) as Hbal. unfold balanced in Hbal.
  split; [exact Hbal|].
  apply Permutation_length in Hbal. rewrite length_app, !length_map in Hbal. lia.
Qed.

End AppAccounting.

(** ** [src/src/app.ts]: the lock is held only while a task is processed *)

Module AppLock.
Import Js App AppTimers AppQueue AppBuffers.

Local Open Scope Z_scope.

(** A task of [u] is being processed. *)
Definition working (s : store) (u : string) : Prop :=
  exists k c q, pending s !! k = Some c /\ processing c = Some (u, q).

(** The lock of [u] is [true] only while a task of [u] is being
    processed. *)
Definition held (u : string) (s : store) : Prop :=
  userLocks s !! u = Some true -> working s u.

Definition lock_ok (s : store) : Prop := forall u, held u s.

Lemma held_keep u s s' :
  userLocks s' !! u = userLocks s !! u ->
  (forall k c, pending s !! k = Some c -> pending s' !! k = Some c) ->
  held u s -> held u s'.
Proof.
  intros E Hold H. unfold held. rewrite E. intros Hl.
  destruct (H Hl) as (k & c & q & Hk & Hc). exists k, c, q. auto.
Qed.

Lemma held_quiet u s s' :
  userLocks s' !! u = userLocks s !! u -> quiet s s' -> held u s -> held u s'.
Proof. intros E Q. apply held_keep; [exact E|exact (quiet_old _ _ Q)]. Qed.

Lemma held_resume u k c s :
  pending s !! k = Some c -> (forall q, processing c <> Some (u, q)) ->
  held u s -> held u (resume k s).
Proof.
  intros Hk Hc H Hl. destruct (H Hl) as (k' & c' & q & Hk' & Hc').
  exists k', c', q. split; [|exact Hc']. simpl.
  rewrite lookup_delete_ne; [exact Hk'|]. intros ->.
  rewrite Hk in Hk'. injection Hk' as ->. exact (Hc q Hc').
Qed.

Lemma held_unlocked u s : locked s u = false -> held u s.
Proof. unfold held, locked. intros H Hl. rewrite Hl in H. discriminate. Qed.

(** The locks of the other users. *)
Lemma after_loop_others u q v s :
  v <> u -> userLocks (after_loop u q s) !! v = userLocks s !! v.
Proof.
  intros Hne. unfold after_loop. destruct (array_of s q); [|reflexivity].
  destruct (locked s u); [reflexivity|]. simpl. apply lookup_delete_ne. congruence.
Qed.

Lemma loop_others u q v s :
  v <> u -> userLocks (loop u q s) !! v = userLocks s !! v.
Proof.
  intros Hne. unfold loop. destruct (array_of s q); [apply after_loop_others, Hne|].
  destruct (locked s u); [reflexivity|]. simpl. apply lookup_insert_ne. congruence.
Qed.

Lemma handleQueue_others u v s :
  v <> u -> userLocks (handleQueue u s) !! v = userLocks s !! v.
Proof.
  intros Hne. unfold handleQueue. destruct (userQueues s !! u).
  - destruct (locked s u); [reflexivity|apply loop_others, Hne].
  - simpl. apply lookup_delete_ne. congruence.
Qed.

Lemma finish_task_others t u q v s :
  v <> u -> userLocks (finish_task t u q s) !! v = userLocks s !! v.
Proof.
  intros Hne. unfold finish_task. destruct (array_of _ q).
  - rewrite loop_others by exact Hne. simpl. apply lookup_insert_ne. congruence.
  - simpl. apply lookup_insert_ne. congruence.
Qed.

Lemma send_next_others t u q task chunks v s :
  v <> u -> userLocks (send_next t u q task chunks s) !! v = userLocks s !! v.
Proof. intros Hne. destruct chunks; simpl; [apply finish_task_others, Hne|reflexivity]. Qed.

Lemma flush_body_others u v s :
  v <> u -> userLocks (flush_body u s) !! v = userLocks s !! v.
Proof.
  intros Hne. unfold flush_body.
  destruct (userMessageBuffers s !! u) as [b|]; [|reflexivity].
  destruct (messages b); [reflexivity|].
  set (s1 := match userQueues s !! u with None => new_queue u s | Some _ => s end).
  assert (E1 : userLocks s1 = userLocks s) by (subst s1; destruct (userQueues s !! u); reflexivity).
  destruct (userQueues s1 !! u) as [q|]; [|rewrite E1; reflexivity].
  match goal with |- userLocks (if ?b then ?x else _) !! _ = _ => destruct b end.
  - simpl. rewrite E1. reflexivity.
  - rewrite handleQueue_others by exact Hne. simpl. rewrite E1. reflexivity.
Qed.

(** The lock of the user the function works for. *)
Lemma after_loop_held u q s : held u s -> held u (after_loop u q s).
Proof.
  intros H. unfold after_loop. destruct (array_of s q); [|exact H].
  destruct (locked s u); [exact H|].
  intros Hl. simpl in Hl. rewrite lookup_delete_eq in Hl. discriminate.
Qed.

Lemma loop_held u q s : fresh s -> held u s -> held u (loop u q s).
Proof.
  intros Hf H. unfold loop. destruct (array_of s q); [apply after_loop_held, H|].
  destruct (locked s u); [exact H|].
  intros _. eexists _, _, q. split; [apply lookup_insert_eq|reflexivity].
Qed.

Lemma handleQueue_held u s : fresh s -> held u s -> held u (handleQueue u s).
Proof.
  intros Hf H. unfold handleQueue. destruct (userQueues s !! u).
  - destruct (locked s u); [exact H|apply loop_held; assumption].
  - intros Hl. simpl in Hl. rewrite lookup_delete_eq in Hl. discriminate.
Qed.

(** When the processing of a task of [u] ends, the lock of [u] is released:
    it is [false], or its entry is deleted. *)
Lemma finish_task_unlocked t u q s : locked (finish_task t u q s) u = false.
Proof.
  unfold finish_task.
  set (s1 := with_locks (insert u false) s).
  assert (H1 : locked s1 u = false).
  { unfold locked. subst s1. simpl. rewrite lookup_insert_eq. reflexivity. }
  destruct (array_of s1 q) eqn:Ha.
  - unfold loop. rewrite Ha. unfold after_loop. rewrite Ha, H1.
    unfold locked. simpl. rewrite lookup_delete_eq. reflexivity.
  - exact H1.
Qed.

Lemma send_next_held t u q task chunks s : held u (send_next t u q task chunks s).
Proof.
  destruct chunks as [|chunk rest]; simpl.
  - apply held_unlocked, finish_task_unlocked.
  - intros _. eexists _, _, q. split; [apply lookup_insert_eq|reflexivity].
Qed.

Lemma flush_body_held u s : fresh s -> held u s -> held u (flush_body u s).
Proof.
  intros Hf H. unfold flush_body.
  destruct (userMessageBuffers s !! u) as [b|]; [|exact H].
  destruct (messages b); [exact H|].
  set (task := with_body _ _).
  set (s1 := match userQueues s !! u with None => new_queue u s | Some _ => s end).
  assert (Q1 : quiet s s1).
  { subst s1. destruct (userQueues s !! u); [apply quiet_refl|quiet_same]. }
  assert (E1 : userLocks s1 = userLocks s) by (subst s1; destruct (userQueues s !! u); reflexivity).
  assert (H1 : held u s1) by (eapply held_quiet; [rewrite E1; reflexivity|exact Q1|exact H]).
  destruct (userQueues s1 !! u) as [q|]; [|exact H1].
  set (s2 := emit (Enqueued u task) (with_arrays (insert q (array_of s1 q ++ [task])) s1)).
  assert (H2 : held u s2) by exact H1.
  change (held u (if locked s2 u then s2 else handleQueue u s2)).
  destruct (locked s2 u); [exact H2|].
  apply handleQueue_held; [|exact H2].
  intros k c Hk. exact (quiet_fresh s s1 Hf Q1 k c Hk).
Qed.

Lemma upsert_loop_locks_same msgs : forall s, userLocks (upsert_loop msgs s) = userLocks s.
Proof.
  induction msgs as [|msg rest IH]; intros s; simpl; [reflexivity|].
  destruct (_ || _); [apply IH|].
  destruct (extractTextFromMessage msg); [|apply IH].
  destruct (key_fromMe msg); [|apply IH].
  case_bool_decide; [apply IH|].
  destruct (clientThreadIds s !! remoteJid msg); [|rewrite IH; reflexivity].
  unfold syncManualMessageToOpenAI.
  destruct (thread_of s (remoteJid msg)); [reflexivity|]. rewrite IH. reflexivity.
Qed.

Lemma record_sent_locks t id s : userLocks (record_sent t id s) = userLocks s.
Proof. unfold record_sent. destruct id; [case_bool_decide|]; reflexivity. Qed.

Lemma step_lock_ok t e s : timers_ok s -> lock_ok s -> lock_ok (step t e s).
Proof.
  intros Hok Hl. pose proof (timers_ok_fresh s Hok) as Hf.
  assert (Hr : forall k, fresh (resume k s)).
  { intros k. apply timers_ok_fresh, timers_ok_resume, Hok. }
  destruct e as [c|msgs|k r]; simpl.
  - destruct (fromMe c) eqn:Hme; [unfold mainFlow; rewrite Hme; exact Hl|].
    destruct (mainFlow_fields t c s Hme) as (_ & _ & Ep & El & _).
    intros u. unfold held. rewrite El. intros Hu.
    destruct (Hl u Hu) as (k & c' & q & Hk & Hc). exists k, c', q. split; [|exact Hc].
    rewrite Ep. rewrite lookup_insert_ne by (specialize (Hf k _ Hk); lia).
    destruct (userActivityTimers s !! from c) as [timerId|] eqn:E; [|exact Hk].
    rewrite lookup_delete_ne; [exact Hk|]. intros ->.
    destruct (registered_timer s Hok _ _ _ E Hk) as [d' ->]. discriminate.
  - intros u. eapply held_quiet; [|apply upsert_loop_quiet, Hf|apply Hl].
    rewrite upsert_loop_locks_same. reflexivity.
  - destruct (pending s !! k) as [c|] eqn:Hk; [|exact Hl].
    (* the users whose task [c] is not processing *)
    assert (Hres : forall u, (forall q, processing c <> Some (u, q)) -> held u (resume k s)).
    { intros u Hc. eapply held_resume; [exact Hk|exact Hc|apply Hl]. }
    assert (Hquiet : forall s', (forall q u, processing c <> Some (u, q)) ->
                       userLocks s' = userLocks s -> quiet (resume k s) s' -> lock_ok s').
    { intros s' Hc E Q u. apply (held_quiet u (resume k s) s'); [rewrite E; reflexivity|exact Q|].
      apply Hres. intros q. apply Hc. }
    (* a drain of [userId]: the others keep their locks and their tasks *)
    assert (Hdrain : forall userId s',
              (forall v q, processing c = Some (v, q) -> v = userId) ->
              (forall v, v <> userId -> userLocks s' !! v = userLocks s !! v) ->
              quiet (resume k s) s' -> held userId s' -> lock_ok s').
    { intros userId s' Hc E Q Hu v. destruct (decide (v = userId)) as [->|Hne]; [exact Hu|].
      apply (held_quiet v (resume k s) s'); [apply (E v Hne)|exact Q|].
      apply Hres. intros q Hp. apply Hne. exact (Hc v q Hp). }
    destruct c, r; try exact Hl.
    + destruct (deadline <=? t); [|exact Hl].
      rewrite flush_unfold. intros u.
      pose proof (flush_body_flushed clientId (resume k s) (Hr k)) as F.
      assert (H0 : held u (resume k s)) by (apply Hres; discriminate).
      destruct (decide (u = clientId)) as [->|Hne].
      * exact (flush_body_held clientId (resume k s) (Hr k) H0).
      * apply (held_keep u (resume k s)); [|exact (flushed_old _ _ _ F)|exact H0].
        exact (flush_body_others clientId u (resume k s) Hne).
    + pose proof (quiet_suspend (ThreadTimer (t + THREAD_SAVE_DELAY_MS) (from task))
                    (resume k s) (Hr k) eq_refl) as Q.
      apply (Hdrain userId).
      * intros v q [= -> _]. reflexivity.
      * intros v Hne. rewrite send_next_others by exact Hne. reflexivity.
      * eapply quiet_trans; [exact Q|].
        apply send_next_quiet. eapply quiet_fresh; [apply Hr|exact Q].
      * apply send_next_held.
    + apply (Hdrain userId).
      * intros v q [= -> _]. reflexivity.
      * intros v Hne. rewrite finish_task_others by exact Hne. reflexivity.
      * apply finish_task_quiet, Hr.
      * apply held_unlocked, finish_task_unlocked.
    + pose proof (record_sent_quiet t id (resume k s) (Hr k)) as Q.
      apply (Hdrain userId).
      * intros v q [= -> _]. reflexivity.
      * intros v _. simpl. rewrite record_sent_locks. reflexivity.
      * eapply quiet_trans; [exact Q|].
        apply quiet_suspend; [|reflexivity]. eapply quiet_fresh; [apply Hr|exact Q].
      * intros _. eexists _, _, queue. split; [apply lookup_insert_eq|reflexivity].
    + apply (Hdrain userId).
      * intros v q [= -> _]. reflexivity.
      * intros v Hne. rewrite finish_task_others by exact Hne. reflexivity.
      * apply finish_task_quiet, Hr.
      * apply held_unlocked, finish_task_unlocked.
    + destruct (deadline <=? t); [|exact Hl].
      apply (Hdrain userId).
      * intros v q [= -> _]. reflexivity.
      * intros v Hne. rewrite send_next_others by exact Hne. reflexivity.
      * apply send_next_quiet, Hr.
      * apply send_next_held.
    + destruct (deadline <=? t); [|exact Hl].
      apply (Hdrain userId).
      * intros v q [=].
      * intros v Hne. rewrite loop_others by exact Hne. reflexivity.
      * apply loop_quiet, Hr.
      * apply loop_held; [apply Hr|]. apply Hres. discriminate.
    + destruct (deadline <=? t); [|exact Hl].
      destruct threadId as [th|]; [|apply Hquiet; [discriminate|reflexivity|apply quiet_refl]].
      case_bool_decide; apply Hquiet; try discriminate; try reflexivity;
        [apply quiet_refl|quiet_same].
    + destruct (deadline <=? t); [|exact Hl].
      apply Hquiet; [discriminate|reflexivity|apply quiet_refl].
    + destruct (deadline <=? t); [|exact Hl].
      apply Hquiet; [discriminate|reflexivity|quiet_same].
    + apply Hquiet; [discriminate|rewrite upsert_loop_locks_same; reflexivity|].
      apply upsert_loop_quiet, Hr.
    + apply Hquiet; [discriminate|rewrite upsert_loop_locks_same; reflexivity|].
      apply upsert_loop_quiet, Hr.
Qed.

Lemma run_lock_ok es : forall s, timers_ok s -> lock_ok s -> lock_ok (run es s).
Proof.
  induction es as [|[t e] es IH]; intros s Hok Hl; simpl; [exact Hl|].
  apply IH; [apply step_timers_ok, Hok|apply step_lock_ok; assumption].
Qed.

(** The ways the processing of a task ends: the backend call or a send is
    rejected, or the pause after the last chunk is over. *)
Definition ends_task (c : cont) (r : reply) (t : Z) : bool :=
  match c, r with
  | AwaitAsk _ _ _, Rejected _ => true
  | AwaitAsk _ _ _, AskResolved response =>
      match response_chunks response with [] => true | _ => false end
  | AwaitSend _ _ _ _, Rejected _ => true
  | AwaitPacing deadline _ _ _ [], TimerDue => deadline <=? t
  | _, _ => false
  end.

(** In every store that [src/src/app.ts] can reach, the lock of a user is
    [true] exactly while one of its tasks is being processed (from the
    [shift] of the task to the [finally] block); and however the processing
    ends, with the last chunk sent, with an answer without chunks or with a
    rejection of the backend call or of a send, the callback that ends it
    leaves the lock released: no conversation stays locked with nothing in
    flight. *)
Theorem lock_held_only_while_processing (es : list (Z * event)) (u : string) :
  let s := run es empty_store in
  (locked s u = true
   <-> exists k c q, pending s !! k = Some c /\ processing c = Some (u, q))
  /\ (forall t k c q r,
        pending s !! k = Some c -> processing c = Some (u, q) ->
        ends_task c r t = true ->
        locked (step t (Resume k r) s) u = false).
Proof.
  intros s.
  assert (Hok : timers_ok s) by apply run_timers_ok, timers_ok_empty.
  assert (Hi : inv s).
  { apply run_inv; [apply timers_ok_empty|apply inv_empty]. }
  assert (Hl : lock_ok s).
  { apply run_lock_ok; [apply timers_ok_empty|]. intros v Hv. simpl in Hv.
    rewrite lookup_empty in Hv. discriminate. }
  split; [split|].
  - intros H. apply (Hl u). unfold locked in H.
    destruct (userLocks s !! u) as [[|]|]; congruence.
  - intros (k & c & q & Hk & Hc). unfold locked.
    rewrite (processing_locked s (inv_base s Hi) k c u q Hk Hc). reflexivity.
  - intros t k c q r Hk Hc He. simpl. rewrite Hk.
    destruct c, r; simpl in He; try discriminate; try (destruct rest; discriminate);
      injection Hc as -> ->.
    + destruct (response_chunks response); [|discriminate]. simpl.
      apply finish_task_unlocked.
    + apply finish_task_unlocked.
    + apply finish_task_unlocked.
    + destruct rest; [|discriminate]. rewrite He. simpl. apply finish_task_unlocked.
Qed.

Lemma lock_held_only_while_processing_witness :
  locked (step 9000 (Resume 1 (Rejected (u16 "while a run is active")))
            (run [(0, Message AppBurst.hola); (6000, Resume 0 TimerDue)] empty_store)) "C1"
  = false.
Proof.
  apply (proj2 (lock_held_only_while_processing
                  [(0, Message AppBurst.hola); (6000, Resume 0 TimerDue)] "C1")
           9000 1%nat (AwaitAsk "C1" 0 AppBurst.hola) 0%nat);
    reflexivity.
Defined.

End AppLock.

(** ** [src/src/app.ts]: the thread ids the bot has learnt *)

Module AppThreads.
Import Js App AppTimers.

Local Open Scope Z_scope.

(** No thread id in [clientThreadIds] is the empty string. *)
Definition threads_ok (s : store) : Prop :=
  forall jid threadId, clientThreadIds s !! jid = Some threadId -> threadId <> "".

(** An output other than the warning of [syncManualMessageToOpenAI]. *)
Definition not_sync_warning (o : output) : bool :=
  match o with
  | Warn (NoThreadInSync _) => false
  | _ => true
  end.

(** The thread ids are as they were and no such warning was given. *)
Record kept (s s' : store) : Prop := {
  kept_threads : clientThreadIds s' = clientThreadIds s;
  kept_outputs : forallb not_sync_warning (outputs s) = true ->
                 forallb not_sync_warning (outputs s') = true
}.

Lemma kept_refl s : kept s s.
Proof. split; auto. Qed.

Lemma kept_trans s1 s2 s3 : kept s1 s2 -> kept s2 s3 -> kept s1 s3.
Proof. intros [A1 A2] [B1 B2]. split; [congruence|auto]. Qed.

Lemma kept_emit o s : not_sync_warning o = true -> kept s (emit o s).
Proof. intros Ho. split; simpl; [reflexivity|]. rewrite Ho. auto. Qed.

Lemma kept_same s s' :
  clientThreadIds s' = clientThreadIds s -> outputs s' = outputs s -> kept s s'.
Proof. intros E1 E2. split; [exact E1|]. rewrite E2. auto. Qed.

Ltac kept_same := apply kept_same; reflexivity.

Lemma after_loop_kept u q s : kept s (after_loop u q s).
Proof.
  unfold after_loop. destruct (array_of s q); [|apply kept_refl].
  destruct (locked s u); [apply kept_refl|kept_same].
Qed.

Lemma loop_kept u q s : kept s (loop u q s).
Proof.
  unfold loop. destruct (array_of s q); [apply after_loop_kept|].
  destruct (locked s u); [apply kept_refl|].
  unfold processUserMessage. split; simpl; auto.
Qed.

Lemma handleQueue_kept u s : kept s (handleQueue u s).
Proof.
  unfold handleQueue. destruct (userQueues s !! u); [|kept_same].
  destruct (locked s u); [apply kept_refl|apply loop_kept].
Qed.

Lemma finish_task_kept t u q s : kept s (finish_task t u q s).
Proof.
  unfold finish_task. destruct (array_of _ q).
  - eapply kept_trans; [|apply loop_kept]. kept_same.
  - kept_same.
Qed.

Lemma send_next_kept t u q task chunks s : kept s (send_next t u q task chunks s).
Proof.
  destruct chunks; simpl; [apply finish_task_kept|]. split; simpl; auto.
Qed.

Lemma record_sent_kept t id s : kept s (record_sent t id s).
Proof.
  unfold record_sent. destruct id; [|apply kept_refl].
  case_bool_decide; [apply kept_refl|kept_same].
Qed.

Lemma flush_kept u s : kept s (flush u s).
Proof.
  rewrite flush_unfold.
  assert (H : kept s (flush_body u s)).
  { unfold flush_body. destruct (userMessageBuffers s !! u) as [b|]; [|apply kept_refl].
    destruct (messages b); [apply kept_refl|].
    set (task := with_body _ _).
    set (s1 := match userQueues s !! u with None => new_queue u s | Some _ => s end).
    assert (K1 : kept s s1) by (subst s1; destruct (userQueues s !! u); [apply kept_refl|kept_same]).
    destruct (userQueues s1 !! u) as [q|]; [|exact K1].
    set (s2 := emit (Enqueued u task) (with_arrays (insert q (array_of s1 q ++ [task])) s1)).
    assert (K2 : kept s s2).
    { eapply kept_trans; [exact K1|]. split; simpl; auto. }
    change (kept s (if locked s2 u then s2 else handleQueue u s2)).
    destruct (locked s2 u); [exact K2|].
    eapply kept_trans; [exact K2|apply handleQueue_kept]. }
  eapply kept_trans; [exact H|]. kept_same.
Qed.

Lemma mainFlow_kept t c s : kept s (mainFlow t c s).
Proof.
  destruct (fromMe c) eqn:Hme; [unfold mainFlow; rewrite Hme; apply kept_refl|].
  unfold mainFlow. rewrite Hme.
  destruct (userActivityTimers s !! from c) eqn:E; simpl; rewrite E; kept_same.
Qed.

Lemma upsert_loop_kept msgs : forall s, threads_ok s -> kept s (upsert_loop msgs s).
Proof.
  induction msgs as [|msg rest IH]; intros s Hth; simpl; [apply kept_refl|].
  destruct (_ || _); [apply IH, Hth|].
  destruct (extractTextFromMessage msg); [|apply IH, Hth].
  destruct (key_fromMe msg); [|apply IH, Hth].
  case_bool_decide; [apply IH, Hth|].
  destruct (clientThreadIds s !! remoteJid msg) as [threadId|] eqn:E.
  - unfold syncManualMessageToOpenAI, thread_of. rewrite E.
    rewrite bool_decide_eq_false_2 by exact (Hth _ _ E).
    split; simpl; auto.
  - eapply kept_trans; [|apply IH; exact Hth]. split; simpl; auto.
Qed.

Lemma step_threads t e s :
  threads_ok s ->
  threads_ok (step t e s)
  /\ (forallb not_sync_warning (outputs s) = true ->
      forallb not_sync_warning (outputs (step t e s)) = true).
Proof.
  intros Hth.
  assert (Hkept : forall s', kept s s' ->
            threads_ok s'
            /\ (forallb not_sync_warning (outputs s) = true ->
                forallb not_sync_warning (outputs s') = true)).
  { intros s' [E1 E2]. split; [|exact E2]. intros jid th. rewrite E1. apply Hth. }
  assert (Hres : forall k s', kept (resume k s) s' -> kept s s').
  { intros k s' [E1 E2]. split; assumption. }
  destruct e as [c|msgs|k r]; simpl.
  - apply Hkept, mainFlow_kept.
  - apply Hkept, upsert_loop_kept, Hth.
  - destruct (pending s !! k) as [c|]; [|apply Hkept, kept_refl].
    destruct c, r; try (apply Hkept, kept_refl).
    + destruct (deadline <=? t); [|apply Hkept, kept_refl].
      apply Hkept, (Hres k), flush_kept.
    + apply Hkept, (Hres k).
      eapply kept_trans; [|apply send_next_kept]. split; simpl; auto.
    + apply Hkept, (Hres k), finish_task_kept.
    + apply Hkept, (Hres k).
      eapply kept_trans; [apply record_sent_kept|]. split; simpl; auto.
    + apply Hkept, (Hres k), finish_task_kept.
    + destruct (deadline <=? t); [|apply Hkept, kept_refl].
      apply Hkept, (Hres k), send_next_kept.
    + destruct (deadline <=? t); [|apply Hkept, kept_refl].
      apply Hkept, (Hres k), loop_kept.
    + destruct (deadline <=? t); [|apply Hkept, kept_refl].
      destruct threadId as [th|]; [|apply Hkept; split; simpl; auto].
      case_bool_decide as Hne; [apply Hkept; split; simpl; auto|].
      split; [|simpl; auto].
      intros jid th'. simpl. rewrite lookup_insert. case_decide.
      * intros [= <-]. exact Hne.
      * apply Hth.
    + destruct (deadline <=? t); apply Hkept; split; simpl; auto.
    + destruct (deadline <=? t); apply Hkept; split; simpl; auto.
    + apply Hkept, (Hres k), upsert_loop_kept. exact Hth.
    + apply Hkept, (Hres k), upsert_loop_kept. exact Hth.
Qed.

(** In every store that [src/src/app.ts] can reach, the thread ids in
    [clientThreadIds] are not empty, so a conversation that has an entry
    there has a thread to append to; and as the listener calls
    [syncManualMessageToOpenAI] only for a conversation with an entry, the
    function never takes its own branch for a missing thread id: its
    warning is never given. *)
Theorem learnt_thread_ids_are_usable (es : list (Z * event)) :
  let s := run es empty_store in
  (forall jid threadId, clientThreadIds s !! jid = Some threadId ->
     threadId <> "" /\ thread_of s jid = Some threadId)
  /\ (forall jid, ~ In (Warn (NoThreadInSync jid)) (outputs s)).
Proof.
  intros s.
  assert (H : forall es s0, threads_ok s0 ->
            forallb not_sync_warning (outputs s0) = true ->
            threads_ok (run es s0)
            /\ forallb not_sync_warning (outputs (run es s0)) = true).
  { clear. induction es as [|[t e] es IH]; intros s0 Hth Ho; simpl; [auto|].
    destruct (step_threads t e s0 Hth) as [Hth' Ho']. apply IH; auto. }
  destruct (H es empty_store) as [Hth Ho].
  { intros jid th. simpl. rewrite lookup_empty. discriminate. }
  { reflexivity. }
  fold s in Hth, Ho. split.
  - intros jid th E. split; [exact (Hth jid th E)|].
    unfold thread_of. rewrite E. rewrite bool_decide_eq_false_2 by exact (Hth jid th E).
    reflexivity.
  - intros jid Hin. rewrite forallb_forall in Ho. specialize (Ho _ Hin). discriminate.
Qed.

End AppThreads.

(** ** The properties of the specification *)

Module Splitting.
Import Js Humanize JsFacts HumanizeFacts PackFacts.

Local Open Scope nat_scope.

(** *** C8: what [splitIntoHumanChunks] does with a long text *)

(** C8, as amended.  [splitIntoHumanChunks] splits at paragraph breaks
    first and packs the sentences of a paragraph that is over the budget:
    every chunk it produces is within the budget (at most
    [MAX_MESSAGE_LENGTH] code units and [MAX_LINES_PER_MESSAGE] estimated
    lines) or is one whole sentence of one paragraph that alone exceeds the
    budget.  A text without markers, paragraph breaks, sentence ends or outer
    white space comes back unchanged as its only chunk, whatever its length,
    from [splitIntoHumanChunks] and from the loop of [src/src/app.ts]: nothing
    is lost or repeated, and a text of 900 code units is a chunk of 900.
    The chunks are those of the paragraphs, in order, none filtered away; a
    paragraph of white space gives none, one within the budget is one chunk,
    and the chunks of a paragraph over the budget are its sentences, trimmed,
    the empty ones left out, in their order, none dropped or repeated,
    grouped so that a chunk is one sentence or several that fit the budget
    with single spaces between them, and no chunk could have taken the
    sentence that follows it.  The sentences of a paragraph hold its
    characters in order but for some [.], [!] or [?], and the paragraphs
    those of the text but for line breaks. *)
Theorem splitIntoHumanChunks_budget_or_whole_sentence :
  (forall text c, In c (splitIntoHumanChunks text) ->
     (length c <= MAX_MESSAGE_LENGTH /\ estimated_lines c <= MAX_LINES_PER_MESSAGE)
     \/ exists p, In p (split_paragraphs (replace_clean (trim text)))
                  /\ whole_sentence (sentences_of (trim p)) c)
  /\ (forall text, plain text ->
        splitIntoHumanChunks text = [text] /\ App.response_chunks text = [text])
  /\ (forall text,
        splitIntoHumanChunks text
        = if nonempty (replace_clean (trim text))
          then concat (map paragraph_chunks (split_paragraphs (replace_clean (trim text))))
          else [])
  /\ (forall p, nonempty (trim p) = false -> paragraph_chunks p = [])
  /\ (forall p, nonempty (trim p) = true -> fits (trim p) = true ->
        paragraph_chunks p = [trim p])
  /\ (forall p, nonempty (trim p) = true -> fits (trim p) = false ->
        exists groups,
          paragraph_chunks p = map chunk_of groups
          /\ concat groups = kept_sentences (sentences_of (trim p))
          /\ Forall group_ok groups /\ greedy groups)
  /\ (forall p,
        List.filter no_terminator (concat (sentences_of p)) = List.filter no_terminator p)
  /\ (forall text,
        List.filter (fun c => negb (is_crlf c)) (concat (split_paragraphs text))
        = List.filter (fun c => negb (is_crlf c)) text).
Proof.
  split; [|split; [intros text H; split;
                     [exact (plain_whole text H)|exact (response_chunks_plain text H)]|]].
  - intros text c. unfold splitIntoHumanChunks.
    destruct (nonempty (replace_clean (trim text))); simpl; [|tauto].
    rewrite filter_In, in_concat. intros [(l & Hl & Hc) _].
    apply in_map_iff in Hl. destruct Hl as (p & <- & Hp).
    destruct (paragraph_chunks_sound p c Hc) as [Hfit|Hwhole].
    + left. unfold fits in Hfit. apply andb_true_iff in Hfit.
      destruct Hfit as [H1 H2]. apply Nat.leb_le in H1, H2. auto.
    + right. exists p. auto.
  - split; [exact splitIntoHumanChunks_paragraphs|].
    split; [intros p H; unfold paragraph_chunks; rewrite H; reflexivity|].
    split; [intros p H1 H2; unfold paragraph_chunks; rewrite H1, H2; reflexivity|].
    split; [exact paragraph_chunks_packed|].
    split; [exact sentences_of_content|].
    intros text. unfold split_paragraphs.
    exact (split_runs_content is_crlf text [] [] (List.Forall_nil _)).
Qed.

Lemma splitIntoHumanChunks_budget_witness :
  splitIntoHumanChunks letters900 = [letters900]
  /\ App.response_chunks letters900 = [letters900].
Proof.
  exact (proj1 (proj2 splitIntoHumanChunks_budget_or_whole_sentence) letters900
           plain_letters900).
Defined.

(** C8, as stated, fails: two single-paragraph inputs of 900 code units, one
    with no sentence end and one with its only sentence end at 601, come back
    from [splitIntoHumanChunks] in chunks of 900, and of 601 and 298 code
    units, all longer than [MAX_MESSAGE_LENGTH]; the loop of [src/src/app.ts]
    sends both as one chunk of 900. *)
Lemma splitIntoHumanChunks_900_exceeds_max :
  (length letters900 = 900
   /\ map (@length N) (splitIntoHumanChunks letters900) = [900]
   /\ map (@length N) (App.response_chunks letters900) = [900])
  /\ (length two_long_sentences = 900
      /\ map (@length N) (splitIntoHumanChunks two_long_sentences) = [601; 298]
      /\ map (@length N) (App.response_chunks two_long_sentences) = [900])
  /\ MAX_MESSAGE_LENGTH = 250.
Proof. repeat split; vm_compute; reflexivity. Qed.

(** Four sentences of 120, 100, 90 and 80 code units, 393 with the spaces
    between them: the first two make a chunk of 221, which the third would
    take to 312; the last two make one of 171. *)
Definition four_sentences : str :=
  repeat 97%N 119 ++ u16 ". " ++ repeat 98%N 99 ++ u16 ". "
  ++ repeat 99%N 89 ++ u16 ". " ++ repeat 100%N 79 ++ u16 ".".

Lemma four_sentences_packed :
  length four_sentences = 393
  /\ splitIntoHumanChunks four_sentences
     = [repeat 97%N 119 ++ u16 ". " ++ repeat 98%N 99 ++ u16 ".";
        repeat 99%N 89 ++ u16 ". " ++ repeat 100%N 79 ++ u16 "."]
  /\ map (@length N) (splitIntoHumanChunks four_sentences) = [221; 171].
Proof. repeat split; vm_compute; reflexivity. Qed.

End Splitting.

Module Dispatch.
Import Js.

Local Open Scope Z_scope.

(** *** C1: one task in flight for a conversation *)

Definition ask (u : string) (text : string) : Humanize.ctx :=
  {| Humanize.from := u; Humanize.body := u16 text |}.

(** One message to the queue of [part_002], processed to its end. *)
Definition one_message : list (Z * Humanize.event) :=
  [(0, Humanize.Welcome (ask "C1" "Hola")); (9000, Humanize.Resume 0 Humanize.Settled)].

(** C1, as stated, fails for the queue of [src/unnamed/part_002]: when the
    only task of a conversation has been processed, nothing waits, the lock
    entry is deleted, and the queue entry is still in [userQueues], empty. *)
Lemma part_002_keeps_empty_queue :
  let s := Humanize.run one_message Humanize.empty_store in
  Humanize.userQueues s !! "C1" = Some []
  /\ Humanize.userLocks s !! "C1" = None
  /\ Humanize.pending s = ∅
  /\ Humanize.outputs s = [Humanize.Process "C1" (ask "C1" "Hola")].
Proof. vm_compute. repeat split; reflexivity. Qed.

(** C1, as amended.  In every store that [src/src/app.ts] can reach, at most
    one continuation is processing a task of a user, the lock of that user
    is [true] while it does, and a queue entry whose array is empty exists
    only while the lock is [true] (so the entry is deleted once empty and
    unlocked); a call of [handleQueue], or a drain back from its cooldown,
    that finds the lock [true] changes nothing.  In every store that
    [src/unnamed/part_002] can reach, at most one drain exists for a user
    and the lock of that user is [true] while it does, and [handleQueue]
    changes nothing when the lock is [true]; there no callback removes a
    queue entry. *)
Theorem one_task_in_flight :
  (forall es, let s := App.run es App.empty_store in
     (forall k1 k2 c1 c2 u q1 q2,
        App.pending s !! k1 = Some c1 -> App.pending s !! k2 = Some c2 ->
        AppQueue.processing c1 = Some (u, q1) -> AppQueue.processing c2 = Some (u, q2) ->
        k1 = k2)
     /\ (forall k c u q,
           App.pending s !! k = Some c -> AppQueue.processing c = Some (u, q) ->
           App.userLocks s !! u = Some true)
     /\ (forall u q,
           App.userQueues s !! u = Some q ->
           App.array_of s q <> [] \/ App.userLocks s !! u = Some true)
     /\ (forall u, App.locked s u = true -> is_Some (App.userQueues s !! u) ->
           App.handleQueue u s = s)
     /\ (forall u q, App.locked s u = true -> App.array_of s q <> [] ->
           App.loop u q s = s))
  /\ (forall es, let s := Humanize.run es Humanize.empty_store in
     (forall k1 k2 c1 c2,
        Humanize.pending s !! k1 = Some c1 -> Humanize.pending s !! k2 = Some c2 ->
        HumanizeQueue.user_of c1 = HumanizeQueue.user_of c2 -> k1 = k2)
     /\ (forall k c, Humanize.pending s !! k = Some c ->
           Humanize.userLocks s !! HumanizeQueue.user_of c = Some true)
     /\ (forall u, Humanize.locked s u = true -> Humanize.handleQueue u s = s)
     /\ (forall t e u, is_Some (Humanize.userQueues s !! u) ->
           is_Some (Humanize.userQueues (Humanize.step t e s) !! u))).
Proof.
  split.
  - intros es s.
    assert (Hi : AppQueue.inv s).
    { apply AppQueue.run_inv; [apply AppTimers.timers_ok_empty|apply AppQueue.inv_empty]. }
    pose proof (AppQueue.inv_base s Hi) as Hb.
    split; [exact (AppQueue.one_processing s Hb)|].
    split; [exact (AppQueue.processing_locked s Hb)|].
    split; [|split].
    + intros u q Hu. destruct (App.array_of s q) as [|task rest] eqn:Ha; [|left; discriminate].
      right. destruct (AppQueue.entry_busy s Hi u q Hu Ha) as (k & c & Hk & Hc).
      exact (AppQueue.processing_locked s Hb k c u q Hk Hc).
    + intros u Hl [q Hq]. unfold App.handleQueue. rewrite Hq, Hl. reflexivity.
    + intros u q Hl Ha. unfold App.loop.
      destruct (App.array_of s q); [congruence|]. rewrite Hl. reflexivity.
  - intros es s.
    assert (Hi : HumanizeQueue.inv s).
    { apply HumanizeQueue.queue_run_inv, HumanizeQueue.queue_inv_empty. }
    split; [exact (HumanizeQueue.inv_unique s Hi)|].
    split; [exact (HumanizeQueue.inv_locked s Hi)|].
    split.
    + intros u Hl. unfold Humanize.handleQueue.
      destruct (Humanize.userQueues s !! u); [|reflexivity]. rewrite Hl. reflexivity.
    + intros t e u. apply HumanizeQueue.step_keeps_queue.
Qed.

Definition hola : App.ctx := AppBurst.hola.

(** The first task of a conversation is being processed. *)
Definition hola_in_flight : list (Z * App.event) :=
  [(0, App.Message hola); (6000, App.Resume 0 App.TimerDue)].

Lemma one_task_in_flight_witness :
  App.userLocks (App.run hola_in_flight App.empty_store) !! "C1" = Some true.
Proof.
  exact (proj1 (proj2 (proj1 one_task_in_flight hola_in_flight))
           1%nat (App.AwaitAsk "C1" 0 hola) "C1" 0%nat eq_refl eq_refl).
Defined.

End Dispatch.

Module Aggregation.
Import Js.

Local Open Scope Z_scope.

(** *** C2: a burst is one task *)

Definition said (text : string) : Sync.ctx :=
  {| Sync.from := "C1"; Sync.body := u16 text; Sync.fromMe := false |}.

Definition no_thread : Sync.thread_state :=
  {| Sync.thread := None; Sync.openaiAssistant := None; Sync.openai := None |}.

(** [A] is sent at 0 and flushed at 6000; the backend answers at 9000 and
    the chunks are out at 10000.  [B] is sent at 7000, while [A] is being
    processed; its timer is due at 13000. *)
Definition late_message : list (Z * Sync.event) :=
  [(0, Sync.Message (said "A"));
   (6000, Sync.Resume 0 Sync.TimerDue);
   (7000, Sync.Message (said "B"));
   (9000, Sync.Resume 1 (Sync.AskResolved (u16 "ok") no_thread));
   (10000, Sync.Resume 3 Sync.Settled);
   (13000, Sync.Resume 2 Sync.TimerDue)].

(** The same, with a backend that has not answered when the timer of [B]
    is due. *)
Definition slow_backend : list (Z * Sync.event) :=
  [(0, Sync.Message (said "A"));
   (6000, Sync.Resume 0 Sync.TimerDue);
   (7000, Sync.Message (said "B"));
   (13000, Sync.Resume 2 Sync.TimerDue)].

(** C2 in [src/unnamed/part_001] (first file), where the timer's callback
    deletes the buffer only after [processUserMessage] has returned: the
    message [B], a burst of its own, is never processed when [A] is done
    first, and is processed together with [A] again when it is not. *)
Lemma part_001_late_message :
  (let s := Sync.run late_message Sync.empty_store in
   Sync.outputs s = [Sync.Process "C1" (said "A")]
   /\ Sync.userMessageBuffers s = ∅ /\ Sync.pending s = ∅)
  /\ (let s := Sync.run slow_backend Sync.empty_store in
      Sync.outputs s
      = [Sync.Process "C1" {| Sync.from := "C1"; Sync.body := u16 "A" ++ [LF; LF] ++ u16 "B";
                              Sync.fromMe := false |};
         Sync.Process "C1" (said "A")]).
Proof. vm_compute. repeat split; reflexivity. Qed.

End Aggregation.

Module Retry.
Import Js.

Local Open Scope Z_scope.

(** *** C3: retries *)

Definition msg (text : string) : App.ctx :=
  {| App.from := "C1"; App.body := u16 text; App.fromMe := false |}.

Definition run_is_active : str :=
  u16 "Can't add messages to thread_1 while a run run_1 is active.".

(** Two tasks of one conversation; the backend rejects the first with the
    error of a run that is still active. *)
Definition rejected_task : list (Z * App.event) :=
  [(0, App.Message (msg "uno"));
   (6000, App.Resume 0 App.TimerDue);
   (7000, App.Message (msg "dos"));
   (13000, App.Resume 2 App.TimerDue);
   (14000, App.Resume 1 (App.Rejected run_is_active));
   (17000, App.Resume 3 App.TimerDue)].

(** C3, as stated, fails for [handleQueue] of [src/src/app.ts]: the task
    that the backend rejected is asked once and never again; after the
    cooldown the drain asks the next task. *)
Lemma app_does_not_retry :
  let s := App.run rejected_task App.empty_store in
  App.outputs s
  = [App.AskBackend "C1" (u16 "dos"); App.Enqueued "C1" (msg "dos");
     App.AskBackend "C1" (u16 "uno"); App.Enqueued "C1" (msg "uno")]
  /\ App.pending s !! 4%nat = Some (App.AwaitAsk "C1" 0 (msg "dos")).
Proof. vm_compute. split; reflexivity. Qed.

(** C3, as amended.  [getAssistantResponse] of [src/unnamed/part_002] asks
    the backend at most [MAX_RETRIES] = 3 times for one task: whatever the
    failure of attempt [n < 3], it sleeps [2^n] seconds and asks again, so
    the pauses are 2 s and 4 s, strictly increasing; it returns the first
    answer; after the third failure it throws, without a pause, the error
    of that failure, or, when the backend rejected with a falsy value, a
    new error with a fixed message.  Meanwhile the drain of that file waits:
    until [processUserMessage] has settled, no callback starts another task
    of the same user.  [handleQueue] of [src/src/app.ts] does not retry:
    when the backend rejects, whatever the error, the drain runs its
    [finally] block and no call of the backend follows in that callback. *)
Theorem retries_capped_with_backoff :
  (forall toAsk : nat -> Humanize.outcome,
     exists n : nat,
       (1 <= n <= Humanize.MAX_RETRIES)%nat
       /\ (forall i, (1 <= i < n)%nat -> RetryFacts.is_answer (toAsk i) = false)
       /\ (RetryFacts.is_answer (toAsk n) = false -> n = Humanize.MAX_RETRIES)
       /\ Humanize.attempts Humanize.MAX_RETRIES 1 toAsk None
          = (RetryFacts.schedule n 1, RetryFacts.ending (toAsk n)))
  /\ (forall n : nat, Humanize.backoff n = 2 ^ Z.of_nat n * 1000)
  /\ (forall i j : nat, (i < j)%nat -> Humanize.backoff i < Humanize.backoff j)
  /\ RetryFacts.schedule 3 1
     = [Humanize.Ask 1; Humanize.Sleep 2000; Humanize.Ask 2; Humanize.Sleep 4000; Humanize.Ask 3]
  /\ (forall t k s userId queue task message,
        App.pending s !! k = Some (App.AwaitAsk userId queue task) ->
        App.step t (App.Resume k (App.Rejected message)) s
        = App.finish_task t userId queue (App.resume k s)
        /\ App.outputs (App.step t (App.Resume k (App.Rejected message)) s) = App.outputs s)
  /\ (forall o : Humanize.outcome,
        RetryFacts.ending o
        = match o with
          | Humanize.Answer response => Humanize.Returned response
          | _ =>
              if Humanize.is_truthy (Humanize.error_of o)
              then Humanize.Thrown (Humanize.error_of o)
              else Humanize.Thrown (Humanize.ErrorWith Humanize.no_response)
          end)
  /\ (forall es t e k u task,
        let s := Humanize.run es Humanize.empty_store in
        Humanize.pending s !! k = Some (Humanize.AwaitProcess u task) ->
        e <> Humanize.Resume k Humanize.Settled ->
        Humanize.pending (Humanize.step t e s) !! k = Some (Humanize.AwaitProcess u task)
        /\ HumanizeOrder.processed u (Humanize.outputs (Humanize.step t e s))
           = HumanizeOrder.processed u (Humanize.outputs s)).
Proof.
  split; [exact RetryFacts.attempts_schedule|].
  split; [reflexivity|].
  split; [exact RetryFacts.backoff_increasing|].
  split; [reflexivity|].
  split; [|split].
  - intros t k s userId queue task message Hk. simpl. rewrite Hk. split; [reflexivity|].
    unfold App.finish_task, App.loop, App.after_loop.
    repeat (simpl; match goal with
                   | |- context [match ?x with _ => _ end] => destruct x
                   end); reflexivity.
  - intros [response| |reason|]; try reflexivity.
    unfold RetryFacts.ending, Humanize.last_or_default. simpl.
    destruct (Humanize.is_truthy reason); reflexivity.
  - intros es t e k u task s Hk He.
    apply HumanizeWait.step_waits; [|exact Hk|exact He].
    apply HumanizeQueue.queue_run_inv, HumanizeQueue.queue_inv_empty.
Qed.

(** A backend that rejects every call with [undefined]. *)
Definition rejects_with_undefined (n : nat) : Humanize.outcome :=
  Humanize.Rejects (Humanize.OtherValue false 0).

(** Three rejections with a falsy value: what is thrown in the end is the
    new error, not the value. *)
Lemma falsy_rejection_throws_fixed_error :
  Humanize.attempts Humanize.MAX_RETRIES 1 rejects_with_undefined None
  = ([Humanize.Ask 1; Humanize.Sleep 2000; Humanize.Ask 2; Humanize.Sleep 4000; Humanize.Ask 3],
     Humanize.Thrown (Humanize.ErrorWith Humanize.no_response)).
Proof. reflexivity. Qed.

(** The first two attempts time out, the third is answered. *)
Definition third_time (n : nat) : Humanize.outcome :=
  match n with
  | 1%nat | 2%nat => Humanize.TimedOut
  | _ => Humanize.Answer (u16 "ok")
  end.

Lemma retries_capped_witness :
  exists n : nat,
    (1 <= n <= Humanize.MAX_RETRIES)%nat
    /\ (forall i, (1 <= i < n)%nat -> RetryFacts.is_answer (third_time i) = false)
    /\ (RetryFacts.is_answer (third_time n) = false -> n = Humanize.MAX_RETRIES)
    /\ Humanize.attempts Humanize.MAX_RETRIES 1 third_time None
       = (RetryFacts.schedule n 1, RetryFacts.ending (third_time n)).
Proof. exact (proj1 retries_capped_with_backoff third_time). Defined.

End Retry.

Module Echo.
Import Js.

Local Open Scope Z_scope.

(** *** C4: the ids the bot records are passed over by the listener *)

(** C4.  When [flowDynamic] answers with a message id (not empty), the id
    is put in [botSentMessages] and a timer of five minutes is set to
    remove it; an id stays in the set until a timer set for it fires, at
    its deadline at the earliest; the listener passes over every message
    whose id is in the set: no call of the backend, no warning, no change
    of the store; and when the timer of an id fires, the id is no longer in
    the set. *)
Theorem recorded_id_is_self_echo :
  (forall t k s userId queue task rest id,
     App.pending s !! k = Some (App.AwaitSend userId queue task rest) ->
     id <> "" ->
     let s' := App.step t (App.Resume k (App.SendResolved (Some id))) s in
     id ∈ App.botSentMessages s'
     /\ App.pending s' !! App.next_id s
        = Some (App.EvictTimer (t + App.BOT_MESSAGE_RETENTION_MS) id))
  /\ (forall t e s id,
        id ∈ App.botSentMessages s ->
        id ∈ App.botSentMessages (App.step t e s)
        \/ exists k d, e = App.Resume k App.TimerDue
                       /\ App.pending s !! k = Some (App.EvictTimer d id) /\ d <= t)
  /\ (forall t s msg rest,
        App.key_id msg ∈ App.botSentMessages s ->
        App.upsert_loop (msg :: rest) s = App.upsert_loop rest s
        /\ App.step t (App.MessagesUpsert [msg]) s = s)
  /\ (forall t k s d id,
        App.pending s !! k = Some (App.EvictTimer d id) ->
        d <= t ->
        id ∉ App.botSentMessages (App.step t (App.Resume k App.TimerDue) s)).
Proof.
  split; [|split; [|split]]; cycle 3.
  - intros t k s d id Hk Hd. simpl. rewrite Hk.
    apply Z.leb_le in Hd. rewrite Hd. simpl.
    rewrite elem_of_difference, elem_of_singleton. tauto.
  - intros t k s userId queue task rest id Hk Hid. simpl. rewrite Hk.
    unfold App.record_sent. rewrite bool_decide_eq_false_2 by exact Hid. simpl.
    split; [apply elem_of_union; left; apply elem_of_singleton; reflexivity|].
    rewrite lookup_insert_ne by lia. apply lookup_insert_eq.
  - exact AppManual.sent_until_evicted.
  - intros t s msg rest Hin. split; [exact (AppManual.upsert_echo msg rest s Hin)|].
    simpl. exact (AppManual.upsert_echo msg [] s Hin).
Qed.

Definition chunk_sent : list (Z * App.event) :=
  [(0, App.Message AppBurst.hola);
   (6000, App.Resume 0 App.TimerDue);
   (9000, App.Resume 1 (App.AskResolved (u16 "Buenas")))].

Lemma recorded_id_witness :
  let s' := App.step 9100 (App.Resume 3 (App.SendResolved (Some "MSG1")))
              (App.run chunk_sent App.empty_store) in
  "MSG1" ∈ App.botSentMessages s'
  /\ App.pending s' !! App.next_id (App.run chunk_sent App.empty_store)
     = Some (App.EvictTimer (9100 + App.BOT_MESSAGE_RETENTION_MS) "MSG1").
Proof.
  apply (proj1 recorded_id_is_self_echo 9100 3%nat (App.run chunk_sent App.empty_store)
           "C1" 0%nat AppBurst.hola []).
  - reflexivity.
  - discriminate.
Defined.

End Echo.

Module Manual.
Import Js.

Local Open Scope Z_scope.

(** *** C5: the manual message and the lock *)

Definition text_message (body : string) : App.content :=
  {| App.conversation := Some (u16 body); App.extendedText := None; App.imageCaption := None;
     App.videoCaption := None; App.ephemeralExtendedText := None;
     App.ephemeralConversation := None |}.

(** What the operator types on the phone for the client [C1]. *)
Definition operator_message : App.wa_message :=
  {| App.message := Some (text_message "Le confirmo el precio");
     App.remoteJid := "C1"; App.key_fromMe := true; App.key_id := "OP1" |}.

(** A first exchange gives the client a thread; a second task of the client
    is at the backend. *)
Definition second_task_in_flight : list (Z * App.event) :=
  [(0, App.Message AppBurst.hola);
   (6000, App.Resume 0 App.TimerDue);
   (9000, App.Resume 1 (App.AskResolved (u16 "Buenas")));
   (9100, App.Resume 3 (App.SendResolved None));
   (9250, App.Resume 4 App.TimerDue);
   (9500, App.Resume 2 (App.ThreadInfo (Some "thread_1")));
   (20000, App.Message AppBurst.quiero_info);
   (26000, App.Resume 5 App.TimerDue)].

(** C5, as stated, fails: while the lock of [C1] is [true] and a task of
    [C1] is at the backend, the manual message is appended to the thread at
    once, and the lock is as it was. *)
Lemma manual_append_while_locked :
  let s := App.run second_task_in_flight App.empty_store in
  let s' := App.step 27000 (App.MessagesUpsert [operator_message]) s in
  App.userLocks s !! "C1" = Some true
  /\ App.pending s !! 6%nat = Some (App.AwaitAsk "C1" 1 AppBurst.quiero_info)
  /\ App.outputs s'
     = App.AppendMessage "thread_1" (u16 "Le confirmo el precio") :: App.outputs s
  /\ App.userLocks s' = App.userLocks s.
Proof. vm_compute. repeat split; reflexivity. Qed.

(** C5, as amended.  The manual path takes no lock and reads none.  In
    [src/src/app.ts] the listener commutes with every change of
    [userLocks] and leaves [userLocks] as it is, and a manual message for a
    conversation with a thread is appended at once.  In
    [src/unnamed/part_001], where no lock exists, the manual timer's
    callback sends the note of the combined messages as soon as it fires
    and the thread is known. *)
Theorem manual_path_ignores_lock :
  (forall f msgs s,
     App.upsert_loop msgs (App.with_locks f s) = App.with_locks f (App.upsert_loop msgs s))
  /\ (forall msgs s, App.userLocks (App.upsert_loop msgs s) = App.userLocks s)
  /\ (forall msg messageBody rest s threadId,
        AppManual.outgoing msg messageBody ->
        App.key_id msg ∉ App.botSentMessages s ->
        App.clientThreadIds s !! App.remoteJid msg = Some threadId -> threadId <> "" ->
        App.upsert_loop (msg :: rest) s
        = App.suspend (App.AwaitAppend rest) (App.emit (App.AppendMessage threadId messageBody) s))
  /\ (forall jid m ms threadId s,
        Sync.manualMessageBuffers s !! jid = Some (m :: ms) ->
        Sync.getThreadId s jid = Some threadId ->
        Sync.manual_flush jid s
        = Sync.suspend (Sync.AwaitNote jid threadId (join [LF; LF] (m :: ms)))
            (Sync.emit (Sync.AppendNote threadId) s)).
Proof.
  split; [exact AppManual.upsert_loop_locks|].
  split; [exact AppManual.upsert_loop_keeps_locks|].
  split; [|exact SyncFacts.manual_flush_appends].
  intros msg messageBody rest s threadId Hout Hid Hth Hne.
  rewrite (AppManual.upsert_outgoing msg messageBody rest s Hout).
  rewrite bool_decide_eq_false_2 by exact Hid.
  unfold App.syncManualMessageToOpenAI, App.thread_of.
  rewrite Hth. rewrite bool_decide_eq_false_2 by exact Hne.
  reflexivity.
Qed.

Lemma operator_message_outgoing :
  AppManual.outgoing operator_message (u16 "Le confirmo el precio").
Proof. repeat split; discriminate. Qed.

Lemma manual_path_witness :
  App.upsert_loop [operator_message] (App.run second_task_in_flight App.empty_store)
  = App.suspend (App.AwaitAppend [])
      (App.emit (App.AppendMessage "thread_1" (u16 "Le confirmo el precio"))
         (App.run second_task_in_flight App.empty_store)).
Proof.
  apply (proj1 (proj2 (proj2 manual_path_ignores_lock)) operator_message
           (u16 "Le confirmo el precio") [] (App.run second_task_in_flight App.empty_store)
           "thread_1" operator_message_outgoing).
  - assert (E : App.botSentMessages (App.run second_task_in_flight App.empty_store) = ∅)
      by (vm_compute; reflexivity).
    rewrite E. apply not_elem_of_empty.
  - reflexivity.
  - discriminate.
Defined.

(** *** C6: a manual message before any thread *)

(** C6.  A manual message for a conversation without a thread id only
    leaves a warning: in [src/src/app.ts] the listener's callback adds one
    warning to the outputs and changes nothing else of the store (no call of
    the backend, the buffers, queues and locks as they were); in
    [src/unnamed/part_001] the listener does the same and the message is
    not buffered; and in both files [syncManualMessageToOpenAI] itself
    returns with a warning, calling nothing, when it finds no thread id.
    In [src/unnamed/part_001] the thread ids are read from a plain object:
    [getThreadId] finds nothing exactly for the empty jid and for a short id
    that has no thread id saved (or an empty one) and is no name of a
    property of [Object.prototype]. *)
Theorem manual_without_thread_is_dropped :
  (forall t msg messageBody s,
     AppManual.outgoing msg messageBody ->
     App.key_id msg ∉ App.botSentMessages s ->
     App.thread_of s (App.remoteJid msg) = None ->
     exists w, App.step t (App.MessagesUpsert [msg]) s = App.emit (App.Warn w) s)
  /\ (forall t type msg messageBody s,
        SyncFacts.outgoing type msg messageBody ->
        Sync.getThreadId s (Sync.remoteJid msg) = None ->
        Sync.step t (Sync.MessagesUpsert type [msg]) s
        = Sync.emit (Sync.WarnNoThread (Sync.remoteJid msg)) s)
  /\ (forall jid messageContent s,
        Sync.getThreadId s jid = None ->
        Sync.syncManualMessageToOpenAI jid messageContent s
        = inl (Sync.emit (Sync.WarnNoThread jid) s))
  /\ (forall jid messageContent s,
        App.thread_of s jid = None ->
        App.syncManualMessageToOpenAI jid messageContent s
        = (App.emit (App.Warn (App.NoThreadInSync jid)) s, false))
  /\ (forall jid s,
        Sync.getThreadId s jid = None
        <-> jid = ""
            \/ Sync.clientThreadMap s !! Sync.getShortUserId jid = Some ""
            \/ (Sync.clientThreadMap s !! Sync.getShortUserId jid = None
                /\ Sync.getShortUserId jid ∉ Sync.object_prototype_names)).
Proof.
  split; [|split; [|split; [|split]]]; cycle 4.
  - intros jid s. unfold Sync.getThreadId.
    case_bool_decide as Hj; [split; auto|].
    destruct (Sync.clientThreadMap s !! Sync.getShortUserId jid) as [threadId|].
    + case_bool_decide as Ht.
      * subst threadId. split; auto.
      * split; [discriminate|]. intros [?|[?|[? _]]]; congruence.
    + case_bool_decide as Hp.
      * split; [discriminate|]. intros [?|[?|[_ ?]]]; [congruence|discriminate|contradiction].
      * split; auto.
  - intros t msg messageBody s Hout Hid Hth.
    change (App.step t (App.MessagesUpsert [msg]) s) with (App.upsert_loop [msg] s).
    rewrite (AppManual.upsert_outgoing msg messageBody [] s Hout).
    rewrite bool_decide_eq_false_2 by exact Hid.
    unfold App.syncManualMessageToOpenAI. rewrite Hth.
    destruct (App.clientThreadIds s !! App.remoteJid msg); eexists; reflexivity.
  - intros t type msg messageBody s Hout Hth.
    change (Sync.step t (Sync.MessagesUpsert type [msg]) s)
      with (Sync.upsert_loop t type [msg] s).
    rewrite (SyncFacts.sync_upsert_outgoing t type msg messageBody [] s Hout), Hth. reflexivity.
  - intros jid messageContent s Hth. unfold Sync.syncManualMessageToOpenAI.
    rewrite Hth. reflexivity.
  - intros jid messageContent s Hth. unfold App.syncManualMessageToOpenAI.
    rewrite Hth. reflexivity.
Qed.

(** A manual message for the number [573001112233], before any thread id
    was saved, in [src/unnamed/part_001]. *)
Definition first_manual_message : Sync.wa_message :=
  {| Sync.text := Some (u16 "Le confirmo el precio");
     Sync.remoteJid := "573001112233@s.whatsapp.net"; Sync.key_fromMe := true |}.

(** What the hypothesis on [getThreadId] leaves out: for a jid whose short
    id names a property of [Object.prototype], the plain object answers
    with that property though no thread id was saved, and the listener
    buffers the message. *)
Lemma inherited_name_is_no_thread_id :
  let msg := {| Sync.text := Some (u16 "Le confirmo el precio");
                Sync.remoteJid := "constructor@s.whatsapp.net"; Sync.key_fromMe := true |} in
  let s := Sync.step 1000 (Sync.MessagesUpsert Sync.Notify [msg]) Sync.empty_store in
  Sync.getThreadId Sync.empty_store "constructor@s.whatsapp.net"
  = Some (Sync.Inherited "constructor")
  /\ Sync.manualMessageBuffers s !! "constructor@s.whatsapp.net"
     = Some [u16 "Le confirmo el precio"]
  /\ Sync.outputs s = [].
Proof. vm_compute. repeat split; reflexivity. Qed.

Lemma manual_without_thread_witness :
  (exists w, App.step 1000 (App.MessagesUpsert [operator_message]) App.empty_store
             = App.emit (App.Warn w) App.empty_store)
  /\ Sync.step 1000 (Sync.MessagesUpsert Sync.Notify [first_manual_message]) Sync.empty_store
     = Sync.emit (Sync.WarnNoThread "573001112233@s.whatsapp.net") Sync.empty_store.
Proof.
  split.
  - apply (proj1 manual_without_thread_is_dropped 1000 operator_message
             (u16 "Le confirmo el precio") App.empty_store operator_message_outgoing).
    + apply not_elem_of_empty.
    + reflexivity.
  - apply (proj1 (proj2 manual_without_thread_is_dropped) 1000 Sync.Notify
             first_manual_message (u16 "Le confirmo el precio") Sync.empty_store).
    + repeat split; discriminate.
    + reflexivity.
Defined.

End Manual.

Module Backpressure.
Import Js.

Local Open Scope Z_scope.

(** *** C7: the size of the queue *)

Definition msg (n : nat) : App.ctx :=
  {| App.from := "C1"; App.body := [N.of_nat n]; App.fromMe := false |}.

(** The [i]-th burst of one message and its timer. *)
Definition one_burst (i : nat) : list (Z * App.event) :=
  [(Z.of_nat i * 7000, App.Message (msg i));
   (Z.of_nat i * 7000 + 6000, App.Resume i App.TimerDue)].

(** A first burst, whose task stays at the backend, and eleven more. *)
Definition twelve_bursts : list (Z * App.event) :=
  one_burst 0 ++ concat (map one_burst (seq 2 11)).

(** C7, as stated, fails for [src/src/app.ts]: eleven bursts that arrive
    while the first task is at the backend are all enqueued, nothing is
    sent to the user, and the queue is longer than the bound of
    [src/unnamed/part_002]. *)
Lemma app_queue_grows_past_bound :
  let s := App.run twelve_bursts App.empty_store in
  length (App.array_of s 0) = 11%nat
  /\ App.userQueues s !! "C1" = Some 0%nat
  /\ length (AppTimers.enqueued_for "C1" (App.outputs s)) = 12%nat
  /\ List.filter (fun o => match o with App.SendChunk _ _ => true | _ => false end)
       (App.outputs s) = []
  /\ Humanize.MAX_QUEUE_SIZE = 10%nat.
Proof. vm_compute. repeat split; reflexivity. Qed.

(** C7, as amended.  In [src/unnamed/part_002] the queue of a user never
    holds more than [MAX_QUEUE_SIZE] = 10 tasks: a message that finds it
    with that many is answered with the notice and not enqueued, and the
    store is otherwise unchanged.  In [src/src/app.ts] there is no bound:
    while the lock is [true] the timer's callback appends the combined task
    to the array whatever its length. *)
Theorem queue_bound :
  (forall es u q,
     Humanize.userQueues (Humanize.run es Humanize.empty_store) !! u = Some q ->
     (length q <= Humanize.MAX_QUEUE_SIZE)%nat)
  /\ (forall c s q,
        Humanize.userQueues s !! Humanize.from c = Some q ->
        (Humanize.MAX_QUEUE_SIZE <= length q)%nat ->
        Humanize.welcomeFlow c s = Humanize.emit (Humanize.Notice (Humanize.from c)) s)
  /\ (forall u b q s,
        App.userMessageBuffers s !! u = Some b -> App.messages b <> [] ->
        App.userQueues s !! u = Some q -> App.locked s u = true ->
        App.array_of (App.flush u s) q
        = App.array_of s q
          ++ [App.with_body (App.lastCtx b) (join [LF; LF] (App.messages b))]).
Proof.
  split; [|split].
  - intros es u q Hq.
    exact (HumanizeQueue.inv_bound _
             (HumanizeQueue.queue_run_inv es _ HumanizeQueue.queue_inv_empty) u q Hq).
  - intros c s q Hq Hfull. unfold Humanize.welcomeFlow. rewrite Hq.
    unfold Humanize.queue_of. rewrite Hq.
    apply Nat.leb_le in Hfull. cbn [default from_option id]. rewrite Hfull. reflexivity.
  - intros u b q s Hb Hne Hq Hl. rewrite AppTimers.flush_unfold.
    unfold AppTimers.flush_body. rewrite Hb.
    destruct (App.messages b) as [|m ms] eqn:Hm; [congruence|].
    rewrite Hq. simpl. rewrite Hq.
    change (App.locked (App.emit _ (App.with_arrays _ s)) u) with (App.locked s u).
    rewrite Hl. unfold App.array_of at 1. simpl. rewrite lookup_insert_eq. reflexivity.
Qed.

Definition ask (n : nat) : Humanize.ctx :=
  {| Humanize.from := "C1"; Humanize.body := [N.of_nat n] |}.

(** Eleven messages at once: the first is being processed, ten wait. *)
Definition eleven_messages : list (Z * Humanize.event) :=
  map (fun i => (Z.of_nat i, Humanize.Welcome (ask i))) (seq 0 11).

Lemma queue_bound_witness :
  Humanize.welcomeFlow (ask 11) (Humanize.run eleven_messages Humanize.empty_store)
  = Humanize.emit (Humanize.Notice "C1") (Humanize.run eleven_messages Humanize.empty_store).
Proof.
  apply (proj1 (proj2 queue_bound) (ask 11) (Humanize.run eleven_messages Humanize.empty_store)
           (map ask (seq 1 10))).
  - vm_compute. reflexivity.
  - vm_compute. lia.
Defined.

End Backpressure.

Module AiHandlers.
Import Js Handlers.

(** *** C9: [GeminiHandler.processMessage] *)

(** The SDK as far as the handler can tell: a model needs a name. *)
Definition strict_sdk : Gemini.sdk :=
  {| Gemini.getGenerativeModel := fun name => if bool_decide (name = "") then Throws else Ok 0%nat;
     Gemini.startChat := fun _ _ => Ok 1%nat;
     Gemini.sendMessage := fun _ _ => Ok {| Gemini.candidates := None |} |}.

Definition unnamed_model : Gemini.handler :=
  {| Gemini.modelName := ""; Gemini.systemInstructionParts := [];
     Gemini.userChatSessions := ∅ |}.

(** C9, as stated, fails: the chat session of a new user is made before the
    [try] block, so when [getGenerativeModel] throws, the promise rejects. *)
Lemma gemini_rejects_without_session :
  Gemini.processMessage strict_sdk unnamed_model "C1" (u16 "Hola") = (unnamed_model, Throws).
Proof. reflexivity. Qed.

(** C9, as amended.  When the user has a chat session, or the SDK makes
    one, [processMessage] resolves with a text: the apology when
    [sendMessage] throws (or the candidate has no parts), the request to
    try again when the response has no candidate, and else the texts of the
    first candidate's parts joined by line feeds.  When the session cannot
    be made, the promise rejects. *)
Theorem gemini_resolves_with_text :
  (forall g h userId message chatSession,
     HandlerFacts.session_for g h userId = Some chatSession ->
     exists h' r,
       Gemini.processMessage g h userId message = (h', Ok r)
       /\ (Gemini.sendMessage g chatSession message = Throws -> text r = apology)
       /\ (forall resp,
             Gemini.sendMessage g chatSession message = Ok resp ->
             Gemini.candidates resp = None \/ Gemini.candidates resp = Some [] ->
             text r = unclear)
       /\ (forall resp c cs parts,
             Gemini.sendMessage g chatSession message = Ok resp ->
             Gemini.candidates resp = Some (c :: cs) ->
             Gemini.content_parts c = Some parts ->
             text r = join [LF] (Gemini.part_texts parts)))
  /\ (forall g h userId message,
        HandlerFacts.session_for g h userId = None ->
        Gemini.processMessage g h userId message = (h, Throws)).
Proof.
  split; [|exact HandlerFacts.gemini_rejects].
  intros g h userId message chatSession Hs.
  destruct (HandlerFacts.gemini_resolves g h userId message chatSession Hs) as [h' Hp].
  exists h', (Gemini.answer g chatSession message). split; [exact Hp|].
  unfold Gemini.answer. split; [|split].
  - intros ->. reflexivity.
  - intros resp -> [-> | ->]; reflexivity.
  - intros resp c cs parts -> -> ->. reflexivity.
Qed.

Definition named_model : Gemini.handler :=
  {| Gemini.modelName := "gemini-pro"; Gemini.systemInstructionParts := [];
     Gemini.userChatSessions := ∅ |}.

Lemma gemini_resolves_witness :
  exists h' r,
    Gemini.processMessage strict_sdk named_model "C1" (u16 "Hola") = (h', Ok r)
    /\ (Gemini.sendMessage strict_sdk 1%nat (u16 "Hola") = Throws -> text r = apology)
    /\ (forall resp,
          Gemini.sendMessage strict_sdk 1%nat (u16 "Hola") = Ok resp ->
          Gemini.candidates resp = None \/ Gemini.candidates resp = Some [] ->
          text r = unclear)
    /\ (forall resp c cs parts,
          Gemini.sendMessage strict_sdk 1%nat (u16 "Hola") = Ok resp ->
          Gemini.candidates resp = Some (c :: cs) ->
          Gemini.content_parts c = Some parts ->
          text r = join [LF] (Gemini.part_texts parts)).
Proof.
  exact (proj1 gemini_resolves_with_text strict_sdk named_model "C1" (u16 "Hola") 1%nat eq_refl).
Defined.

(** *** C10: the polling loop of [OpenAiHandler.processMessage] *)

Import OpenAi.

(** C10.  If some answer of [runs.retrieve] is [completed] or [failed],
    [processMessage] settles: for enough iterations of the polling loop its
    result is there.  If the calls before the loop return and every answer
    of [runs.retrieve] is a status other than these two, [processMessage]
    never settles: whatever the number of iterations, the loop is still
    running. *)
Theorem polling_ends_only_on_completed_or_failed :
  (forall g h userId message n st,
     retrieve g n = Ok st -> st = completed \/ st = failed ->
     exists fuel, is_Some (processMessage fuel g h userId message))
  /\ (forall g h userId message,
        HandlerFacts.reaches_loop g h userId message ->
        (forall n, exists st, retrieve g n = Ok st /\ st <> completed /\ st <> failed) ->
        forall fuel, processMessage fuel g h userId message = None).
Proof.
  split.
  - intros g h userId message n st Hr Hst.
    assert (Hk : keeps_polling st = false) by (destruct Hst as [-> | ->]; reflexivity).
    assert (Hw : forall threadId, exists fuel, is_Some (wait_for_run fuel g threadId))
      by (intros threadId; exact (HandlerFacts.wait_exits g threadId n st Hr Hk)).
    assert (Hstart : forall h0 threadId, exists fuel,
               is_Some (start_run fuel g h0 threadId message)).
    { intros h0 threadId. unfold start_run.
      destruct (messages_create g threadId message); [|exists 0; eauto].
      destruct (runs_create g threadId); [|exists 0; eauto].
      destruct (Hw threadId) as [fuel [r Hf]]. exists fuel. rewrite Hf. simpl. eauto. }
    unfold processMessage.
    destruct (userThreadMap h !! userId) as [threadId|].
    + case_bool_decide.
      * destruct (threads_create g) as [th|]; [apply Hstart|exists 0; eauto].
      * apply Hstart.
    + destruct (threads_create g) as [th|]; [apply Hstart|exists 0; eauto].
  - intros g h userId message (threadId & Hth & Hm & runId & Hrun) Hall fuel.
    assert (Hall' : forall n, exists st, retrieve g n = Ok st /\ keeps_polling st = true).
    { intros n. destruct (Hall n) as (st & Hr & H1 & H2). exists st. split; [exact Hr|].
      destruct st; try reflexivity; congruence. }
    pose proof (HandlerFacts.wait_forever g threadId Hall' fuel) as Hw.
    assert (Hstart : forall h0, start_run fuel g h0 threadId message = None).
    { intros h0. unfold start_run. rewrite Hm, Hrun, Hw. reflexivity. }
    unfold processMessage.
    destruct (userThreadMap h !! userId) as [th|].
    + case_bool_decide.
      * rewrite Hth. apply Hstart.
      * subst th. apply Hstart.
    + rewrite Hth. apply Hstart.
Qed.

(** A run that is queued, in progress, and then cancelled for good. *)
Definition cancelled_run : sdk :=
  {| threads_create := Ok "thread_1";
     messages_create := fun _ _ => Ok tt;
     runs_create := fun _ => Ok "run_1";
     retrieve := fun n => Ok (match n with
                             | 0%nat => queued
                             | 1%nat => in_progress
                             | _ => cancelled
                             end);
     messages_list := fun _ => Ok [] |}.

Definition no_threads : handler := {| userThreadMap := ∅ |}.

Lemma polling_never_ends_when_cancelled :
  forall fuel, processMessage fuel cancelled_run no_threads "C1" (u16 "Hola") = None.
Proof.
  apply (proj2 polling_ends_only_on_completed_or_failed cancelled_run no_threads "C1" (u16 "Hola")).
  - exists "thread_1". split; [reflexivity|]. split; [reflexivity|]. exists "run_1". reflexivity.
  - intros n. destruct n as [|[|n]]; eexists; (split; [reflexivity|split; discriminate]).
Qed.

(** A run that completes at the third answer. *)
Definition completed_run : sdk :=
  {| threads_create := Ok "thread_1";
     messages_create := fun _ _ => Ok tt;
     runs_create := fun _ => Ok "run_1";
     retrieve := fun n => Ok (match n with
                             | 0%nat => queued
                             | 1%nat => in_progress
                             | _ => completed
                             end);
     messages_list := fun _ => Ok [{| is_assistant := true; content := [TextBlock (u16 "Buenas")] |}] |}.

Lemma polling_ends_witness :
  exists fuel, is_Some (processMessage fuel completed_run no_threads "C1" (u16 "Hola")).
Proof.
  exact (proj1 polling_ends_only_on_completed_or_failed completed_run no_threads "C1"
           (u16 "Hola") 2%nat completed eq_refl (or_introl eq_refl)).
Defined.

Example completed_run_answer :
  processMessage 2 completed_run no_threads "C1" (u16 "Hola")
  = Some ({| userThreadMap := {["C1" := "thread_1"]} |}, Ok {| text := u16 "Buenas" |}).
Proof. vm_compute. reflexivity. Qed.

End AiHandlers.
